(** * Diviner: values and the local run database

    A shallow embedding of [value.go] (package [diviner]) and of
    [localdb/localdb.go] (package [localdb]), with the properties of the
    run database contract proved over it.

    Conventions of the embedding.
    - Go [string] and [[]byte] are both byte sequences: they are modelled by
      [string] (a list of 8-bit [ascii]).
    - [int64] is [Z], [uint64] is [N] with the wrap-around at [2^64] written
      out where the code does arithmetic, [float64] is the IEEE-754 model
      [spec_float] of the standard library.
    - A Go [error] result is [option error] ([None] is [nil]); a panic is
      [None] of an [option] result for pure functions and the [panicked]
      error inside a transaction.
    - bbolt, encoding/gob, compress/gzip, bufio, strconv and
      encoding/binary are dependencies of the repository: their behaviour is
      modelled after their documentation (sections "bbolt", "codecs",
      "bufio", "strconv"), without bbolt's limits on key and value sizes.
      gob and gzip are classes of codecs with their round-trip laws; the
      module [Ref] has an instance of each, on which the examples run.
    - A loop of the source that the model cannot see to terminate takes
      the number of iterations it may use ([fuel]) and returns [None] when
      that is exhausted; the properties give a sufficient number.

    The first part holds the definitions, in the order of the sources; the
    part "Properties" holds the lemmas and the theorems. *)

From Stdlib Require Import ZArith NArith String Ascii List Floats.SpecFloat Lia.
From stdpp Require Import gmap strings list fin_maps sorting.

#[local] Set Warnings "-register-all".
#[local] Open Scope string_scope.

Abbreviation bytes := string (only parsing).
Abbreviation float64 := spec_float (only parsing).

(** ** strconv and fmt: decimal integers *)

Definition digit_char (d : N) : ascii := ascii_of_N (48 + d).

(** The decimal digits of [n], most significant first, at most [fuel] of
    them. *)
Fixpoint fmt_digits (fuel : nat) (n : N) : string :=
  match fuel with
  | O => ""
  | S fuel' =>
      if (n <? 10)%N then String.String (digit_char n) ""
      else fmt_digits fuel' (n / 10)%N ++ String.String (digit_char (n mod 10)%N) ""
  end.

(** [%d] of a [uint64]: twenty digits are enough below [2^64]. *)
Definition FormatUint (n : N) : string := fmt_digits 20 n.

(** [fmt.Sprint] of an [int64]. *)
Definition FormatInt (z : Z) : string :=
  if (z <? 0)%Z then "-" ++ FormatUint (Z.to_N (- z)) else FormatUint (Z.to_N z).

Definition maxUint64 : N := 18446744073709551615.

(** One step of [strconv.ParseUint(s, 10, 64)]: [None] is a syntax or a
    range error. *)
Definition parse_step (acc : option N) (c : ascii) : option N :=
  match acc with
  | None => None
  | Some n =>
      let b := N_of_ascii c in
      if ((48 <=? b) && (b <=? 57))%N then
        if (maxUint64 / 10 + 1 <=? n)%N then None
        else
          let n1 := (n * 10 + (b - 48))%N in
          if (maxUint64 <? n1)%N then None else Some n1
      else None
  end.

Definition ParseUint (s : string) : option N :=
  match s with
  | "" => None
  | _ => fold_left parse_step (list_ascii_of_string s) (Some 0%N)
  end.

(** ** strings *)

(** [strings.SplitN(s, sep, 2)] for a one-byte separator: the text before
    the first separator and the text after it, or [s] alone. *)
Fixpoint cut (sep : ascii) (s : string) : option (string * string) :=
  match s with
  | "" => None
  | String.String c s' =>
      if Ascii.eqb c sep then Some ("", s')
      else match cut sep s' with
           | Some (a, b) => Some (String.String c a, b)
           | None => None
           end
  end.

Definition SplitN2 (s : string) (sep : ascii) : list string :=
  match cut sep s with
  | Some (a, b) => [a; b]
  | None => [s]
  end.

(** The slices [s[:n]] and [s[n:]], for [n] up to the length of [s]. *)
Fixpoint take_bytes (n : nat) (s : string) : string :=
  match n, s with
  | S n', String.String c s' => String.String c (take_bytes n' s')
  | _, _ => ""
  end.

Fixpoint drop_bytes (n : nat) (s : string) : string :=
  match n, s with
  | S n', String.String _ s' => drop_bytes n' s'
  | _, _ => s
  end.

(** [strings.Join]. *)
Fixpoint strings_Join (elems : list string) (sep : string) : string :=
  match elems with
  | [] => ""
  | x :: rest =>
      match rest with
      | [] => x
      | _ => x ++ sep ++ strings_Join rest sep
      end
  end.

(** Go's [<=] on strings is the bytewise lexicographic order. *)
Definition string_le (s1 s2 : string) : Prop := String.leb s1 s2 = true.

#[global] Instance string_le_dec s1 s2 : Decision (string_le s1 s2).
Proof. unfold string_le. apply _. Defined.

(** [sort.Strings]. *)
Definition sort_Strings (a : list string) : list string := merge_sort string_le a.

(** ** package diviner: value.go *)

Module diviner.

Inductive Kind := Integer | Real | Str.

Definition Kind_String (k : Kind) : string :=
  match k with
  | Integer => "integer"
  | Real => "real"
  | Str => "string"
  end.

(** The three implementations of the [Value] interface. *)
Inductive Value :=
| Int (v : Z)
| Float (v : float64)
| String (v : string).

Definition Value_Kind (v : Value) : Kind :=
  match v with
  | Int _ => Integer
  | Float _ => Real
  | String _ => Str
  end.

(** [v.Less(w)]; the type assertion on [w] panics on another kind
    ([None]). *)
Definition Value_Less (v w : Value) : option bool :=
  match v, w with
  | Int a, Int b => Some (a <? b)%Z
  | Float a, Float b => Some (SFltb a b)
  | String a, String b => Some (String.ltb a b)
  | _, _ => None
  end.



Definition Value_Float (v : Value) : option float64 :=
  match v with Float f => Some f | _ => None end.

Definition Value_Int (v : Value) : option Z :=
  match v with Int i => Some i | _ => None end.

Definition Value_Str (v : Value) : option string :=
  match v with String s => Some s | _ => None end.

Abbreviation Values := (gmap string Value) (only parsing).

Section Format.
(** [fmt.Sprint] of a [float64] (the shortest decimal that reads back)
    is left open. *)
Variable FormatFloat : float64 → string.

Definition Value_String (v : Value) : string :=
  match v with
  | Int i => FormatInt i
  | Float f => FormatFloat f
  | String s => s
  end.

(** [fmt.Sprintf("%s=%s", key, v[key])]. *)
Definition elem (v : Values) (key : string) : string :=
  key ++ "=" ++
  match v !! key with
  | Some x => Value_String x
  | None => "%!s(<nil>)"
  end.

(** [Values.String], given the order [keys] in which [range v] happened
    to yield the keys. *)
Definition Values_String_from (keys : list string) (v : Values) : string :=
  let keys := sort_Strings keys in
  let elems := map (elem v) keys in
  strings_Join elems ",".

Definition Values_String (v : Values) : string :=
  Values_String_from (map_to_list v).*1 v.
End Format.

(** Modelled from the spec: the type [RunState] and its constants are
    declared in a file of package [diviner] that is not part of the
    sources at hand. "State ∈ {Pending, Success, Failure}; aggregate flag
    Complete = Success ∪ Failure": the states are the bits of a mask,
    which is how [DB.Runs] tests them ([state&states == state]), and zero
    is no state ([run.init] replaces it by [Pending]). *)
Abbreviation RunState := N (only parsing).
Definition Pending : RunState := 1.
Definition Success : RunState := 2.
Definition Failure : RunState := 4.
Definition Complete : RunState := N.lor Success Failure.

(** Modelled from the spec: [Metrics] is declared outside the sources at
    hand; the runner test builds it as a map from metric names to
    [float64]. *)
Abbreviation Metrics := (gmap string float64) (only parsing).

(** Modelled from the spec: "Param. A named domain. Only discrete domains
    are required: an ordered nonempty list of Values". *)
Abbreviation Params := (gmap string (list Value)) (only parsing).

(** The two fields of [Study] that the database reads. *)
Record Study := { Name : string; StudyParams : Params }.

End diviner.

(** ** Errors *)

Inductive error :=
| ErrNoSuchRun          (* localdb *)
| ErrInvalidRunId
| ErrNoSuchStudy
| io_EOF                (* io.EOF *)
| io_ErrShortWrite      (* io.ErrShortWrite *)
| ErrBucketExists       (* bbolt *)
| ErrBucketNameRequired
| ErrIncompatibleValue
| ErrKeyRequired
| gob_error             (* a failed gob decoding *)
| gzip_error            (* a failed gzip decoding *)
| panicked.             (* a run-time panic inside a transaction *)

#[global] Instance error_eq_dec : EqDecision error.
Proof. solve_decision. Defined.

(** ** encoding/binary: 8-byte big-endian keys *)

Fixpoint be_bytes (len : nat) (n : N) : string :=
  match len with
  | O => ""
  | S len' => be_bytes len' (n / 256)%N ++ String.String (ascii_of_N (n mod 256)%N) ""
  end.

(** [binary.BigEndian.PutUint64] into a fresh 8-byte slice. *)
Definition PutUint64 (n : N) : bytes := be_bytes 8 n.

(** [binary.BigEndian.Uint64]. *)
Definition Uint64 (p : bytes) : N :=
  fold_left (λ acc c, acc * 256 + N_of_ascii c)%N (list_ascii_of_string p) 0%N.

(** ** bbolt: nested buckets and transactions *)

Module bolt.

(** A bucket has a sequence counter and maps each key either to a value or
    to a nested bucket. *)
Inductive Bucket : Type :=
  MkBucket { sequence : N; entries : gmap string (string + Bucket) }.

Definition empty_bucket : Bucket := MkBucket 0 ∅.

(** A [*bolt.Bucket] is a position in the transaction's tree: the keys
    that lead to it from the root. The transaction itself is [[]]. *)
Abbreviation handle := (list string) (only parsing).

Fixpoint at_path (p : handle) (b : Bucket) : option Bucket :=
  match p with
  | [] => Some b
  | k :: p' =>
      match entries b !! k with
      | Some (inr c) => at_path p' c
      | _ => None
      end
  end.

Fixpoint alter_path (f : Bucket → Bucket) (p : handle) (b : Bucket) : Bucket :=
  match p with
  | [] => f b
  | k :: p' =>
      match entries b !! k with
      | Some (inr c) => MkBucket (sequence b) (<[k := inr (alter_path f p' c)]> (entries b))
      | _ => b
      end
  end.

(** The handle of the nested bucket [key] of [b]. *)
Definition child (b : handle) (key : string) : handle := (b ++ [key])%list.

(** A transaction body: it reads and writes the root and may fail. *)
Definition Tx (A : Type) : Type := Bucket → error + (A * Bucket).

Definition ret {A} (a : A) : Tx A := λ root, inr (a, root).
Definition fail {A} (e : error) : Tx A := λ _, inl e.
Definition bind {A B} (m : Tx A) (k : A → Tx B) : Tx B :=
  λ root, match m root with
          | inl e => inl e
          | inr (a, root') => k a root'
          end.

(** A method called on a handle reads the bucket it points to. *)
Definition read {A} (h : handle) (f : Bucket → A) : Tx A :=
  λ root, match at_path h root with
          | Some b => inr (f b, root)
          | None => inl panicked
          end.

Definition write (h : handle) (f : Bucket → Bucket) : Tx unit :=
  λ root, match at_path h root with
          | Some _ => inr (tt, alter_path f h root)
          | None => inl panicked
          end.

(** [db.Update]: the changes are committed unless the body fails. *)
Definition Update {A} (fn : Tx A) (root : Bucket) : Bucket * (error + A) :=
  match fn root with
  | inl e => (root, inl e)
  | inr (a, root') => (root', inr a)
  end.

(** [db.View]: a read-only transaction. *)
Definition View {A} (fn : Tx A) (root : Bucket) : error + A :=
  match fn root with
  | inl e => inl e
  | inr (a, _) => inr a
  end.

End bolt.

Notation "'let*' x ':=' m 'in' k" := (bolt.bind m (λ x, k))
  (at level 10, x pattern, m at level 100, k at level 200,
   format "'[v' 'let*'  x  ':='  m  'in' '/' k ']'").

Module Bucket.
Import bolt.

(** [b.Bucket(key)]: [nil] when the key is absent or holds a value. *)
Definition Bucket (b : handle) (key : bytes) : Tx (option handle) :=
  let* e := read b (λ bkt, entries bkt !! key) in
  match e with
  | Some (inr _) => ret (Some (child b key))
  | _ => ret None
  end.

Definition CreateBucket (b : handle) (key : bytes) : Tx handle :=
  if String.eqb key "" then fail ErrBucketNameRequired
  else
    let* e := read b (λ bkt, entries bkt !! key) in
    match e with
    | Some (inr _) => fail ErrBucketExists
    | Some (inl _) => fail ErrIncompatibleValue
    | None =>
        let* _ := write b (λ bkt, MkBucket (sequence bkt)
                                    (<[key := inr empty_bucket]> (entries bkt))) in
        ret (child b key)
    end.

Definition CreateBucketIfNotExists (b : handle) (key : bytes) : Tx handle :=
  λ root, match CreateBucket b key root with
          | inl ErrBucketExists => inr (child b key, root)
          | r => r
          end.

(** [b.NextSequence()]: the counter is a [uint64]. *)
Definition NextSequence (b : handle) : Tx N :=
  let* _ := write b (λ bkt, MkBucket ((sequence bkt + 1) mod 2 ^ 64)%N (entries bkt)) in
  read b sequence.

Definition Sequence (b : handle) : Tx N := read b sequence.

Definition Put (b : handle) (key value : bytes) : Tx unit :=
  if String.eqb key "" then fail ErrKeyRequired
  else
    let* e := read b (λ bkt, entries bkt !! key) in
    match e with
    | Some (inr _) => fail ErrIncompatibleValue
    | _ => write b (λ bkt, MkBucket (sequence bkt) (<[key := inl value]> (entries bkt)))
    end.

(** [b.Get(key)]: [nil] when the key is absent or holds a bucket. *)
Definition Get (b : handle) (key : bytes) : Tx (option bytes) :=
  let* e := read b (λ bkt, entries bkt !! key) in
  match e with
  | Some (inl v) => ret (Some v)
  | _ => ret None
  end.

(** The pairs [ForEach] visits, in key order; a nested bucket shows a
    [nil] value. *)
Definition items (bkt : bolt.Bucket) : list (bytes * option bytes) :=
  map (λ k, (k, match entries bkt !! k with
                | Some (inl v) => Some v
                | _ => None
                end))
      (sort_Strings (map_to_list (entries bkt)).*1).

(** [b.ForEach(fn)] inside a read-only transaction: [fn] updates the
    variables it captured (the state [S]) and stops the iteration with an
    error. *)
Fixpoint ForEach_loop {S} (fn : bytes → option bytes → S → S * option error)
    (kvs : list (bytes * option bytes)) (s : S) : S * option error :=
  match kvs with
  | [] => (s, None)
  | (k, v) :: kvs' =>
      match fn k v s with
      | (s', None) => ForEach_loop fn kvs' s'
      | (s', Some e) => (s', Some e)
      end
  end.

Definition ForEach {S} (bkt : bolt.Bucket)
    (fn : bytes → option bytes → S → S * option error) (s : S) : S * option error :=
  ForEach_loop fn (items bkt) s.

End Bucket.

(** ** Codecs: encoding/gob and compress/gzip *)

(** A gob codec for [T]. [Decode] writes into an existing value [dst]:
    [fill v dst] is what [dst] holds after an encoding of [v] was decoded
    into it. *)
Class Gob (T : Type) (fill : T → T → T) := {
  gob_encode : T → bytes;
  gob_decode : bytes → T → option T;
  gob_decode_encode v dst : gob_decode (gob_encode v) dst = Some (fill v dst)
}.

(** gzip: [deflate] is the function of that name in localdb.go, which
    cannot fail on an in-memory buffer; [inflate] yields what
    [ioutil.ReadAll] read and its error. *)
Class Gzip := {
  deflate : bytes → bytes;
  inflate : bytes → bytes * option error;
  inflate_deflate p : inflate (deflate p) = (p, None)
}.

(** ** bufio.Writer *)

Module bufio.

(** [buf] is [b.buf[:b.n]], [err] the sticky error. *)
Record Writer := { buf : bytes; err : option error }.

Definition NewWriterSize : Writer := {| buf := ""; err := None |}.

Section Writer.
(** The state [U] the underlying [io.Writer] acts on, its [Write], and
    the size of the buffer. *)
Context {U : Type}.
Variable wr_Write : bytes → U → U * (nat * option error).
Variable size : nat.

Definition Buffered (b : Writer) : nat := String.length (buf b).
Definition Available (b : Writer) : nat := size - String.length (buf b).

Definition Flush (b : Writer) (u : U) : Writer * U * option error :=
  match err b with
  | Some e => (b, u, Some e)
  | None =>
      if (Buffered b =? 0)%nat then (b, u, None)
      else
        let '(u', (n, e)) := wr_Write (buf b) u in
        let e := match e with
                 | None => if (n <? Buffered b)%nat then Some io_ErrShortWrite else None
                 | Some e => Some e
                 end in
        match e with
        | Some e => ({| buf := drop_bytes n (buf b); err := Some e |}, u', Some e)
        | None => ({| buf := ""; err := None |}, u', None)
        end
  end.

(** The loop of [Write]: at most [fuel] iterations; [nn] counts the
    bytes accepted. *)
Fixpoint Write_loop (fuel : nat) (b : Writer) (p : bytes) (nn : nat) (u : U)
    : option (Writer * bytes * nat * U) :=
  if (Available b <? String.length p)%nat && bool_decide (err b = None) then
    match fuel with
    | O => None
    | S fuel' =>
        if (Buffered b =? 0)%nat then
          (* Large write, empty buffer: write directly from p. *)
          let '(u', (n, e)) := wr_Write p u in
          Write_loop fuel' {| buf := buf b; err := e |} (drop_bytes n p) (nn + n) u'
        else
          let n := Available b `min` String.length p in
          let b1 := {| buf := buf b ++ take_bytes n p; err := err b |} in
          let '(b2, u', _) := Flush b1 u in
          Write_loop fuel' b2 (drop_bytes n p) (nn + n) u'
    end
  else Some (b, p, nn, u).

Definition Write (fuel : nat) (b : Writer) (p : bytes) (u : U)
    : option (Writer * U * nat * option error) :=
  match Write_loop fuel b p 0 u with
  | None => None
  | Some (b, p, nn, u) =>
      match err b with
      | Some e => Some (b, u, nn, Some e)
      | None =>
          let n := Available b `min` String.length p in
          Some ({| buf := buf b ++ take_bytes n p; err := None |}, u, nn + n, None)
      end
  end.
End Writer.

End bufio.

(** ** package localdb: localdb.go *)

Module localdb.
Import bolt.

Definition studiesKey : bytes := "studies".
Definition metaKey : bytes := "meta".
Definition runsKey : bytes := "runs".
Definition logsKey : bytes := "logs".
Definition metricsKey : bytes := "metrics".

(** The exported fields are those gob stores; [wr] is the state of the
    buffered log writer and [status] the volatile status. The pointer to
    the bolt database is the root that every method takes and returns. *)
Record run := {
  Seq : N;
  Study : string;
  RunValues : diviner.Values;
  RunState : diviner.RunState;
  wr : bufio.Writer;
  status : string
}.

Definition with_RunState (r : run) (state : diviner.RunState) : run :=
  {| Seq := Seq r; Study := Study r; RunValues := RunValues r; RunState := state;
     wr := wr r; status := status r |}.

Definition with_wr (r : run) (w : bufio.Writer) : run :=
  {| Seq := Seq r; Study := Study r; RunValues := RunValues r; RunState := RunState r;
     wr := w; status := status r |}.

Definition with_status (r : run) (s : string) : run :=
  {| Seq := Seq r; Study := Study r; RunValues := RunValues r; RunState := RunState r;
     wr := wr r; status := s |}.

(** gob leaves out the fields of a struct that are zero, so decoding
    keeps what the destination held there; the entries of a map are added
    to the destination's. *)
Definition run_fill (v dst : run) : run :=
  {| Seq := if (Seq v =? 0)%N then Seq dst else Seq v;
     Study := if String.eqb (Study v) "" then Study dst else Study v;
     RunValues := RunValues v ∪ RunValues dst;
     RunState := if (RunState v =? 0)%N then RunState dst else RunState v;
     wr := wr dst;
     status := status dst |}.

Definition metrics_fill (v dst : diviner.Metrics) : diviner.Metrics := v ∪ dst.
Definition params_fill (v dst : diviner.Params) : diviner.Params := v ∪ dst.

(** The argument of [key]: a [uint64] or a [[]byte]. *)
Inductive keyarg := of_uint64 (n : N) | of_bytes (b : bytes).

Definition key (k : keyarg) : bytes :=
  match k with
  | of_uint64 arg => PutUint64 arg
  | of_bytes arg => arg
  end.

(** [seq] panics ([None]) unless the key has 8 bytes. *)
Definition seq (p : bytes) : option N :=
  if (String.length p =? 8)%nat then Some (Uint64 p) else None.

(** The liveset. *)
Abbreviation runKey := (string * N)%type (only parsing).

Record DB := { db : Bucket; live : gset runKey }.

Record runReader := { reader_run : run; whence : N; rbuf : bytes }.

Fixpoint bucket_loop (b : handle) (keys : list bytes) : Tx (option handle) :=
  match keys with
  | [] => ret (Some b)
  | key :: keys' =>
      let* b' := Bucket.Bucket b key in
      match b' with
      | None => ret None
      | Some b' => bucket_loop b' keys'
      end
  end.

(** [bucket(bkt, root, keys...)]. *)
Definition bucket (bkt : handle) (root : bytes) (keys : list bytes) : Tx (option handle) :=
  bucket_loop bkt (root :: keys).

Definition put `{Gob T fill} (b : handle) (k : keyarg) (v : T) : Tx unit :=
  Bucket.Put b (key k) (gob_encode v).

(** [get] decodes into [v]: it returns [ok] and the new contents of [v]. *)
Definition get `{Gob T fill} (b : handle) (k : keyarg) (v : T) : Tx (bool * T) :=
  let* p := Bucket.Get b (key k) in
  match p with
  | None => ret (false, v)
  | Some p =>
      match gob_decode p v with
      | None => fail gob_error
      | Some v' => ret (true, v')
      end
  end.

Section Database.
Context `{!Gob run run_fill, !Gob (gmap string float64) metrics_fill,
          !Gob (gmap string (list diviner.Value)) params_fill, !Gzip}.

(** [Open] on the contents [file] of the database file. *)
Definition Open (file : Bucket) : DB * option error :=
  match Update (Bucket.CreateBucketIfNotExists [] studiesKey) file with
  | (root, inl e) => ({| db := root; live := ∅ |}, Some e)
  | (root, inr _) => ({| db := root; live := ∅ |}, None)
  end.

Definition run_init (r : run) : run :=
  {| Seq := Seq r; Study := Study r; RunValues := RunValues r;
     RunState := if (RunState r =? 0)%N then diviner.Pending else RunState r;
     wr := bufio.NewWriterSize; status := status r |}.

Definition run_seq (r : run) : bytes := PutUint64 (Seq r).

Definition run_bucket (r : run) (which : option bytes) : Tx handle :=
  let* b := bucket [] studiesKey [Study r; runsKey; run_seq r] in
  match b with
  | None => fail ErrNoSuchRun
  | Some b =>
      match which with
      | None => ret b
      | Some which => Bucket.CreateBucketIfNotExists b which
      end
  end.

Definition run_marshal (r : run) : Tx unit :=
  let* b := run_bucket r None in
  put b (of_bytes metaKey) r.

Definition run_unmarshal (r : run) : Tx run :=
  let* b := run_bucket r None in
  let* (ok, r') := get b (of_bytes metaKey) r in
  if ok : bool then ret r' else fail ErrNoSuchRun.

(** A method on a nil [*bolt.Bucket] panics. *)
Definition deref (b : option handle) : Tx handle :=
  match b with
  | Some b => ret b
  | None => fail panicked
  end.

(** The value [new(run)] with the fields [DB.New] and [DB.Run] set. *)
Definition new_run (seq : N) (study : string) (values : diviner.Values) : run :=
  {| Seq := seq; Study := study; RunValues := values; RunState := 0%N;
     wr := bufio.NewWriterSize; status := "" |}.

Definition New_tx (study : diviner.Study) (values : diviner.Values) : Tx run :=
  let* s := Bucket.Bucket [] studiesKey in
  let* s := deref s in
  let* b := Bucket.Bucket s (diviner.Name study) in
  let* b := match b with
            | Some b => ret b
            | None =>
                let* s := Bucket.Bucket [] studiesKey in
                let* s := deref s in
                let* b := Bucket.CreateBucket s (diviner.Name study) in
                let* _ := put b (of_bytes metaKey) (diviner.StudyParams study) in
                ret b
            end in
  let* b := Bucket.CreateBucketIfNotExists b runsKey in
  let* sq := Bucket.NextSequence b in
  let run := run_init (new_run sq (diviner.Name study) values) in
  let* _ := Bucket.CreateBucketIfNotExists b (run_seq run) in
  let* _ := run_marshal run in
  ret run.

Definition DB_New (d : DB) (study : diviner.Study) (values : diviner.Values)
    : DB * (error + run) :=
  match Update (New_tx study values) (db d) with
  | (root, inl e) => ({| db := root; live := live d |}, inl e)
  | (root, inr run) =>
      ({| db := root; live := {[ (Study run, Seq run) ]} ∪ live d |}, inr run)
  end.

(** [DB.Run] returns a run and an error; the database is only read. *)
Definition DB_Run (d : DB) (id : string) : option run * option error :=
  match SplitN2 id "/" with
  | [part0; part1] =>
      if String.eqb part0 "" then (None, Some ErrInvalidRunId)
      else
        match ParseUint part1 with
        | None => (None, Some ErrInvalidRunId)
        | Some sq =>
            let run := run_init (new_run sq part0 ∅) in
            match View (run_unmarshal run) (db d) with
            | inl e => (Some run, Some e)
            | inr run' => (Some run', None)
            end
        end
  | _ => (None, Some ErrInvalidRunId)
  end.

Definition run_State (r : run) : diviner.RunState := RunState r.

(** The function [DB.Runs] passes to [ForEach]; [runs] is the result
    being built. *)
Definition Runs_visit (d : DB) (study : diviner.Study) (states : diviner.RunState)
    (tx : Bucket) (k : bytes) (v : option bytes) (runs : list run)
    : list run * option error :=
  match seq k with
  | None => (runs, Some panicked)
  | Some sq =>
      let run := run_init (new_run sq (diviner.Name study) ∅) in
      match run_unmarshal run tx with
      | inl e => (runs, Some e)
      | inr (run, _) =>
          let state := run_State run in
          if (N.land state states =? state)%N
             && (negb (state =? diviner.Pending)%N
                 || bool_decide ((Study run, Seq run) ∈ live d))
          then ((runs ++ [run])%list, None)
          else (runs, None)
      end
  end.

Definition DB_Runs (d : DB) (study : diviner.Study) (states : diviner.RunState)
    : list run * option error :=
  match View (λ tx,
          (let* b := bucket [] studiesKey [diviner.Name study] in
           match b with
           | None => fail ErrNoSuchStudy
           | Some b =>
               let* b := Bucket.Bucket b runsKey in
               match b with
               | None => ret ([], None)
               | Some b =>
                   let* bkt := read b id in
                   ret (Bucket.ForEach bkt (Runs_visit d study states tx) [])
               end
           end) tx) (db d) with
  | inl e => ([], Some e)
  | inr result => result
  end.

Definition run_ID (r : run) : string := Study r ++ "/" ++ FormatUint (Seq r).

Definition run_Values (r : run) : diviner.Values := RunValues r.

Definition run_Update (r : run) (metrics : diviner.Metrics) (root : Bucket)
    : Bucket * option error :=
  match Update (let* b := run_bucket r (Some metricsKey) in
                let* seq := Bucket.NextSequence b in
                put b (of_uint64 seq) metrics) root with
  | (root', inl e) => (root', Some e)
  | (root', inr _) => (root', None)
  end.

Definition run_SetStatus (r : run) (s : string) : run * option error :=
  (with_status r s, None).

Definition run_Status (r : run) : string * option error := (status r, None).

Definition run_Metrics (r : run) (root : Bucket) : diviner.Metrics * option error :=
  match View (let* b := run_bucket r None in
              let* b := Bucket.Bucket b metricsKey in
              match b with
              | None => ret ∅
              | Some b =>
                  let* seq := Bucket.Sequence b in
                  let* (_, metrics) := get b (of_uint64 seq) (∅ : gmap string float64) in
                  ret metrics
              end) root with
  | inl e => (∅, Some e)
  | inr metrics => (metrics, None)
  end.

Definition run_Complete (r : run) (state : diviner.RunState) (root : Bucket)
    : run * Bucket * option error :=
  let save := RunState r in
  let r := with_RunState r state in
  match Update (run_marshal r) root with
  | (root', inl e) => (with_RunState r save, root', Some e)
  | (root', inr _) => (r, root', None)
  end.

Definition run_Log (r : run) : runReader :=
  {| reader_run := r; whence := 1; rbuf := "" |}.

Definition runWriter_Write (w : run) (p : bytes) (root : Bucket)
    : Bucket * (nat * option error) :=
  let n := String.length p in
  match Update (let* b := run_bucket w (Some logsKey) in
                let p := deflate p in
                let* seq := Bucket.NextSequence b in
                Bucket.Put b (key (of_uint64 seq)) p) root with
  | (root', inl e) => (root', (0, Some e))
  | (root', inr _) => (root', (n, None))
  end.

(** [4<<10], the size [run.init] gives the buffered writer. *)
Definition wr_size : nat := 4096.

Definition run_Write (fuel : nat) (r : run) (p : bytes) (root : Bucket)
    : option (run * Bucket * nat * option error) :=
  match bufio.Write (runWriter_Write r) wr_size fuel (wr r) p root with
  | None => None
  | Some (w, root', n, e) => Some (with_wr r w, root', n, e)
  end.

Definition run_Flush (r : run) (root : Bucket) : run * Bucket * option error :=
  let '(w, root', e) := bufio.Flush (runWriter_Write r) (wr r) root in
  (with_wr r w, root', e).

(** The transaction of one iteration of [runReader.Read]: the reader it
    leaves and the error it returns. *)
Definition Read_tx (r : runReader) : Tx (runReader * option error) :=
  let* b := run_bucket (reader_run r) None in
  let* b := Bucket.Bucket b logsKey in
  match b with
  | None => ret (r, Some io_EOF)
  | Some b =>
      let* p := Bucket.Get b (key (of_uint64 (whence r))) in
      match p with
      | None => ret ({| reader_run := reader_run r; whence := whence r; rbuf := "" |},
                     Some io_EOF)
      | Some p =>
          match inflate p with
          | (buf, Some e) =>
              ret ({| reader_run := reader_run r; whence := whence r; rbuf := buf |}, Some e)
          | (buf, None) =>
              ret ({| reader_run := reader_run r;
                      whence := ((whence r + 1) mod 2 ^ 64)%N;
                      rbuf := buf |}, None)
          end
      end
  end.

(** The loop [for len(r.buf) == 0] of [Read], at most [fuel]
    iterations. *)
Fixpoint Read_loop (fuel : nat) (r : runReader) (root : Bucket)
    : option (runReader * option error) :=
  if (String.length (rbuf r) =? 0)%nat then
    match fuel with
    | O => None
    | S fuel' =>
        match View (Read_tx r) root with
        | inl e => Some (r, Some e)
        | inr (r', Some e) => Some (r', Some e)
        | inr (r', None) => Read_loop fuel' r' root
        end
    end
  else Some (r, None).

(** [Read(p)] with [len(p) = len_p]: the reader, the bytes copied to [p]
    and the error. *)
Definition runReader_Read (fuel : nat) (r : runReader) (len_p : nat) (root : Bucket)
    : option (runReader * bytes * option error) :=
  match Read_loop fuel r root with
  | None => None
  | Some (r, Some e) => Some (r, "", Some e)
  | Some (r, None) =>
      let n := len_p `min` String.length (rbuf r) in
      Some ({| reader_run := reader_run r; whence := whence r;
               rbuf := drop_bytes n (rbuf r) |},
            take_bytes n (rbuf r), None)
  end.

(** A client that reads the log to the end ([ioutil.ReadAll]): [Read]
    into a buffer of [len_p] bytes until it returns an error; [io.EOF]
    is the regular end. *)
Fixpoint ReadAll (fuel : nat) (r : runReader) (len_p : nat) (root : Bucket) (acc : bytes)
    : option (bytes * option error) :=
  match fuel with
  | O => None
  | S fuel' =>
      match runReader_Read fuel r len_p root with
      | None => None
      | Some (r', data, Some e) =>
          Some (acc ++ data, if bool_decide (e = io_EOF) then None else Some e)
      | Some (r', data, None) => ReadAll fuel' r' len_p root (acc ++ data)
      end
  end.

(** *** Clients: sequences of calls on one run *)

(** A sequence of calls of [Update] on one run, up to the first
    error. *)
Fixpoint run_Updates (r : run) (ms : list (gmap string float64)) (root : Bucket)
    : Bucket * option error :=
  match ms with
  | [] => (root, None)
  | metrics :: ms' =>
      match run_Update r metrics root with
      | (root', None) => run_Updates r ms' root'
      | (root', Some e) => (root', Some e)
      end
  end.

(** A sequence of calls of [Write] on one run, up to the first error. *)
Fixpoint run_Writes (fuel : nat) (r : run) (ws : list string) (root : Bucket)
    : option (run * Bucket * option error) :=
  match ws with
  | [] => Some (r, root, None)
  | p :: ws' =>
      match run_Write fuel r p root with
      | None => None
      | Some (r', root', _, Some e) => Some (r', root', Some e)
      | Some (r', root', _, None) => run_Writes fuel r' ws' root'
      end
  end.
End Database.

End localdb.

(** ** Reference codecs

    One instance of each codec class, used to run the model on concrete
    databases. The gob instance numbers the exported fields with stdpp's
    [Countable] and writes the number in binary; the gzip instance puts
    the two magic bytes of a gzip stream before the data. *)

Module Ref.

Fixpoint pos_to_bits (p : positive) : string :=
  match p with
  | xH => ""
  | xO p => String.String "0" (pos_to_bits p)
  | xI p => String.String "1" (pos_to_bits p)
  end.

Fixpoint bits_to_pos (s : string) : option positive :=
  match s with
  | "" => Some xH
  | String.String c s' =>
      match bits_to_pos s' with
      | None => None
      | Some p =>
          if Ascii.eqb c "0" then Some (xO p)
          else if Ascii.eqb c "1" then Some (xI p)
          else None
      end
  end.

Lemma bits_to_pos_to_bits p : bits_to_pos (pos_to_bits p) = Some p.
Proof. induction p; simpl; rewrite ?IHp; done. Qed.

#[global] Instance spec_float_eq_dec : EqDecision spec_float.
Proof. solve_decision. Defined.

#[global] Instance spec_float_countable : Countable spec_float.
Proof.
  refine (inj_countable'
    (λ f, match f with
          | S754_zero s => inl (inl s)
          | S754_infinity s => inl (inr s)
          | S754_nan => inr (inl ())
          | S754_finite s m e => inr (inr (s, m, e))
          end)
    (λ x, match x with
          | inl (inl s) => S754_zero s
          | inl (inr s) => S754_infinity s
          | inr (inl _) => S754_nan
          | inr (inr (s, m, e)) => S754_finite s m e
          end) _).
  by intros [].
Defined.

#[global] Instance Value_eq_dec : EqDecision diviner.Value.
Proof. solve_decision. Defined.

#[global] Instance Value_countable : Countable diviner.Value.
Proof.
  refine (inj_countable'
    (λ v, match v with
          | diviner.Int i => inl (inl i)
          | diviner.Float f => inl (inr f)
          | diviner.String s => inr s
          end)
    (λ x, match x with
          | inl (inl i) => diviner.Int i
          | inl (inr f) => diviner.Float f
          | inr s => diviner.String s
          end) _).
  by intros [].
Defined.

Definition to_bytes `{Countable T} (x : T) : bytes := pos_to_bits (encode x).
Definition of_bytes `{Countable T} (p : bytes) : option T := bits_to_pos p ≫= decode.

Lemma of_bytes_to_bytes `{Countable T} (x : T) : of_bytes (to_bytes x) = Some x.
Proof.
  unfold of_bytes, to_bytes. rewrite bits_to_pos_to_bits. simpl. apply decode_encode.
Qed.

(** The exported fields of a run. *)
Definition exported (r : localdb.run) : N * string * gmap string diviner.Value * N :=
  (localdb.Seq r, localdb.Study r, localdb.RunValues r, localdb.RunState r).

Definition unexported (x : N * string * gmap string diviner.Value * N) : localdb.run :=
  let '(sq, study, values, state) := x in
  {| localdb.Seq := sq; localdb.Study := study; localdb.RunValues := values;
     localdb.RunState := state; localdb.wr := bufio.NewWriterSize; localdb.status := "" |}.

#[global, refine] Instance gob_run : Gob localdb.run localdb.run_fill := {|
  gob_encode r := to_bytes (exported r);
  gob_decode p dst := (λ x, localdb.run_fill (unexported x) dst) <$> of_bytes p
|}.
Proof. intros v dst. rewrite of_bytes_to_bytes. by destruct v. Defined.

#[global, refine] Instance gob_metrics : Gob (gmap string float64) localdb.metrics_fill := {|
  gob_encode m := to_bytes m;
  gob_decode p dst := (λ m, localdb.metrics_fill m dst) <$> of_bytes p
|}.
Proof. intros v dst. by rewrite of_bytes_to_bytes. Defined.

#[global, refine] Instance gob_params : Gob (gmap string (list diviner.Value)) localdb.params_fill := {|
  gob_encode m := to_bytes m;
  gob_decode p dst := (λ m, localdb.params_fill m dst) <$> of_bytes p
|}.
Proof. intros v dst. by rewrite of_bytes_to_bytes. Defined.

Definition gzip_magic : string :=
  String.String (ascii_of_N 31) (String.String (ascii_of_N 139) "").

#[global, refine] Instance gzip : Gzip := {|
  deflate p := gzip_magic ++ p;
  inflate p :=
    match p with
    | String.String c1 (String.String c2 data) =>
        if Ascii.eqb c1 (ascii_of_N 31) && Ascii.eqb c2 (ascii_of_N 139)
        then (data, None) else ("", Some gzip_error)
    | _ => ("", Some gzip_error)
    end
|}.
Proof. intros p. reflexivity. Defined.

End Ref.

(** * Properties *)

(** ** The order on strings *)

Lemma ascii_compare_lt_trans a b c :
  Ascii.compare a b = Lt → Ascii.compare b c = Lt → Ascii.compare a c = Lt.
Proof.
  unfold Ascii.compare. rewrite !N.compare_lt_iff. lia.
Qed.

Lemma ascii_compare_refl a : Ascii.compare a a = Eq.
Proof. unfold Ascii.compare. apply N.compare_refl. Qed.

Lemma string_compare_refl s : String.compare s s = Eq.
Proof. induction s as [|c s IH]; simpl; [done|]. by rewrite ascii_compare_refl. Qed.

Lemma string_compare_lt_trans s1 s2 s3 :
  String.compare s1 s2 = Lt → String.compare s2 s3 = Lt → String.compare s1 s3 = Lt.
Proof.
  revert s2 s3. induction s1 as [|c1 s1 IH]; intros [|c2 s2] [|c3 s3]; simpl; try done.
  destruct (Ascii.compare c1 c2) eqn:H12; try done;
    destruct (Ascii.compare c2 c3) eqn:H23; try done; intros Ha Hb.
  - apply Ascii.compare_eq_iff in H12, H23. subst.
    rewrite ascii_compare_refl. eauto.
  - apply Ascii.compare_eq_iff in H12. subst. by rewrite H23.
  - apply Ascii.compare_eq_iff in H23. subst. by rewrite H12.
  - by rewrite (ascii_compare_lt_trans _ _ _ H12 H23).
Qed.

Lemma string_le_iff s1 s2 : string_le s1 s2 ↔ String.compare s1 s2 = Lt ∨ s1 = s2.
Proof.
  unfold string_le, String.leb. split.
  - destruct (String.compare s1 s2) eqn:Hc; try done; [right|left]; try done.
    by apply String.compare_eq_iff.
  - intros [-> | ->]; [done|]. by rewrite string_compare_refl.
Qed.

#[global] Instance string_le_trans : Transitive string_le.
Proof.
  intros s1 s2 s3. rewrite !string_le_iff. intros [H12 | ->] [H23 | ->]; eauto.
  left. by eapply string_compare_lt_trans.
Qed.

#[global] Instance string_le_total : Total string_le.
Proof. intros s1 s2. apply String.leb_total. Qed.

#[global] Instance string_le_antisymm : AntiSymm (=) string_le.
Proof. intros s1 s2. apply String.leb_antisym. Qed.

Lemma sort_Strings_sorted keys : StronglySorted string_le (sort_Strings keys).
Proof. apply (StronglySorted_merge_sort string_le); apply _. Qed.

Lemma sort_Strings_perm keys : sort_Strings keys ≡ₚ keys.
Proof. apply merge_sort_Permutation. Qed.

(** Sorting forgets the order in which the keys came. *)
Lemma sort_Strings_unique keys1 keys2 :
  keys1 ≡ₚ keys2 → sort_Strings keys1 = sort_Strings keys2.
Proof.
  intros Hp. apply (StronglySorted_unique string_le); try apply sort_Strings_sorted.
  by rewrite !sort_Strings_perm.
Qed.

(** ** value.go *)

Section ValueProperties.
Import diviner.








End ValueProperties.

Section ValuesString.
Import diviner.
Variable FormatFloat : float64 → string.

(** Whatever order the map is ranged over, the same string results. *)
Lemma Values_String_from_order (v : Values) (order1 order2 : list string) :
  order1 ≡ₚ order2 →
  Values_String_from FormatFloat order1 v = Values_String_from FormatFloat order2 v.
Proof. intros Hp. unfold Values_String_from. by rewrite (sort_Strings_unique _ _ Hp). Qed.

(** C8, as the code has it: in whatever order [range] yields the
    parameter names, [Values.String] lists every name of the map once,
    in lexicographic order, as [name=String(v)], joined with commas; so
    equal maps have equal strings. (The converse does not hold.) *)
Theorem Values_String_canonical (v : Values) (order : list string) :
  order ≡ₚ (map_to_list v).*1 →
  ∃ (keys elems : list string),
    NoDup keys ∧ (∀ k, k ∈ keys ↔ is_Some (v !! k)) ∧
    StronglySorted string_le keys ∧
    Forall2 (λ k e, ∃ x, v !! k = Some x ∧ e = k ++ "=" ++ Value_String FormatFloat x)
            keys elems ∧
    Values_String_from FormatFloat order v = strings_Join elems "," ∧
    Values_String_from FormatFloat order v = Values_String FormatFloat v.
Proof.
  intros Hp.
  assert (Hkeys : ∀ k, k ∈ sort_Strings order ↔ is_Some (v !! k)).
  { intros k. rewrite sort_Strings_perm, Hp, list_elem_of_fmap. split.
    - intros [[k' x] [-> Hin]]. apply elem_of_map_to_list in Hin. by exists x.
    - intros [x Hx]. exists (k, x). split; [done|]. by apply elem_of_map_to_list. }
  exists (sort_Strings order), (map (elem FormatFloat v) (sort_Strings order)).
  split; [|split; [done|split; [apply sort_Strings_sorted|split; [|split]]]].
  - rewrite sort_Strings_perm, Hp. apply NoDup_fst_map_to_list.
  - apply Forall2_fmap_r, Forall_Forall2_diag, Forall_forall.
    intros k Hk. apply Hkeys in Hk as [x Hx]. exists x. split; [done|].
    unfold elem. by rewrite Hx.
  - done.
  - by apply Values_String_from_order.
Qed.
End ValuesString.

Lemma Values_String_canonical_witness :
  ∃ (keys elems : list string),
    NoDup keys ∧
    (∀ k, k ∈ keys ↔
          is_Some (({[ "b" := diviner.Int 2; "a" := diviner.String "x" ]}
                     : gmap string diviner.Value) !! k)) ∧
    StronglySorted string_le keys ∧
    Forall2 (λ k e, ∃ x,
               ({[ "b" := diviner.Int 2; "a" := diviner.String "x" ]}
                  : gmap string diviner.Value) !! k = Some x ∧
               e = k ++ "=" ++ diviner.Value_String (λ _, "") x) keys elems ∧
    diviner.Values_String_from (λ _, "") ["b"; "a"]
      {[ "b" := diviner.Int 2; "a" := diviner.String "x" ]} = strings_Join elems "," ∧
    diviner.Values_String_from (λ _, "") ["b"; "a"]
      {[ "b" := diviner.Int 2; "a" := diviner.String "x" ]} =
    diviner.Values_String (λ _, "") {[ "b" := diviner.Int 2; "a" := diviner.String "x" ]}.
Proof.
  apply (Values_String_canonical (λ _, "")
           {[ "b" := diviner.Int 2; "a" := diviner.String "x" ]} ["b"; "a"]).
  vm_compute. apply perm_swap.
Defined.

Example Values_String_example :
  diviner.Values_String (λ _, "") {[ "b" := diviner.Int 2; "a" := diviner.String "x" ]}
  = "a=x,b=2".
Proof. reflexivity. Qed.

(** C8 fails as an identity of points: the integer 1 and the string "1"
    are different values of the parameter [a], and the two maps have the
    same canonical string, whatever the formatting of reals. So have a
    map with one string parameter and a map with two. *)
Lemma Values_String_not_injective :
  ({[ "a" := diviner.Int 1 ]} : gmap string diviner.Value) ≠ {[ "a" := diviner.String "1" ]} ∧
  (∀ FormatFloat,
      diviner.Values_String FormatFloat {[ "a" := diviner.Int 1 ]} = "a=1" ∧
      diviner.Values_String FormatFloat {[ "a" := diviner.String "1" ]} = "a=1") ∧
  ({[ "a" := diviner.String "1,b=2" ]} : gmap string diviner.Value)
    ≠ {[ "a" := diviner.String "1"; "b" := diviner.String "2" ]} ∧
  (∀ FormatFloat,
      diviner.Values_String FormatFloat {[ "a" := diviner.String "1,b=2" ]} = "a=1,b=2" ∧
      diviner.Values_String FormatFloat
        {[ "a" := diviner.String "1"; "b" := diviner.String "2" ]} = "a=1,b=2").
Proof.
  split; [|split; [|split]].
  - intros Heq. apply (f_equal (λ m : gmap string diviner.Value, m !! "a")) in Heq.
    rewrite !lookup_singleton_eq in Heq. discriminate.
  - intros FormatFloat. split; reflexivity.
  - intros Heq. apply (f_equal (λ m : gmap string diviner.Value, m !! "b")) in Heq.
    vm_compute in Heq. discriminate.
  - intros FormatFloat. split; reflexivity.
Qed.

(** ** Byte strings, decimal numbers and keys *)

#[local] Arguments String.append !_ _ : simpl nomatch.

Lemma append_nil_r (s : string) : s ++ "" = s.
Proof. induction s as [|c s IH]; simpl; [done|]. by rewrite IH. Qed.

Lemma append_assoc (s1 s2 s3 : string) : (s1 ++ s2) ++ s3 = s1 ++ (s2 ++ s3).
Proof. induction s1 as [|c s1 IH]; simpl; [done|]. by rewrite IH. Qed.

Lemma length_append (s1 s2 : string) :
  String.length (s1 ++ s2) = (String.length s1 + String.length s2)%nat.
Proof. induction s1 as [|c s1 IH]; simpl; [done|]. by rewrite IH. Qed.

Lemma list_ascii_of_append (s1 s2 : string) :
  list_ascii_of_string (s1 ++ s2) = (list_ascii_of_string s1 ++ list_ascii_of_string s2)%list.
Proof. induction s1 as [|c s1 IH]; simpl; [done|]. by rewrite IH. Qed.

Lemma take_drop_bytes (n : nat) (s : string) : take_bytes n s ++ drop_bytes n s = s.
Proof.
  revert s. induction n as [|n IH]; intros [|c s]; simpl; try done. by rewrite IH.
Qed.

Lemma length_take_bytes (n : nat) (s : string) :
  String.length (take_bytes n s) = (n `min` String.length s)%nat.
Proof.
  revert s. induction n as [|n IH]; intros [|c s]; simpl; try done. by rewrite IH.
Qed.

Lemma length_drop_bytes (n : nat) (s : string) :
  String.length (drop_bytes n s) = (String.length s - n)%nat.
Proof.
  revert s. induction n as [|n IH]; intros [|c s]; simpl; try done.
Qed.

Lemma drop_bytes_all (n : nat) (s : string) :
  (String.length s ≤ n)%nat → drop_bytes n s = "".
Proof.
  revert s. induction n as [|n IH]; intros [|c s]; simpl; try done; try lia.
  intros Hle. apply IH. lia.
Qed.

Lemma take_bytes_all (n : nat) (s : string) :
  (String.length s ≤ n)%nat → take_bytes n s = s.
Proof.
  intros Hle. pose proof (take_drop_bytes n s) as Heq.
  by rewrite (drop_bytes_all n s Hle), append_nil_r in Heq.
Qed.

Lemma length_zero_empty (s : string) : String.length s = 0%nat → s = "".
Proof. by destruct s. Qed.

(** *** Big-endian keys *)

Lemma length_be_bytes len n : String.length (be_bytes len n) = len.
Proof.
  revert n. induction len as [|len IH]; intros n; simpl; [done|].
  rewrite length_append, IH. simpl. lia.
Qed.

Lemma Uint64_be_bytes len n : (n < 256 ^ N.of_nat len)%N → Uint64 (be_bytes len n) = n.
Proof.
  unfold Uint64. revert n. induction len as [|len IH]; intros n Hn.
  - simpl in *. lia.
  - cbn [be_bytes]. rewrite list_ascii_of_append, fold_left_app. simpl.
    assert (Hlt : (n `mod` 256 < 256)%N) by (apply N.mod_lt; lia).
    rewrite (N_ascii_embedding _ Hlt).
    assert (Hdiv : (n / 256 < 256 ^ N.of_nat len)%N).
    { apply N.Div0.div_lt_upper_bound.
      rewrite <- N.pow_succ_r', <- Nat2N.inj_succ. done. }
    rewrite (IH _ Hdiv). pose proof (N.div_mod n 256). lia.
Qed.

Lemma Uint64_PutUint64 n : (n < 2 ^ 64)%N → Uint64 (PutUint64 n) = n.
Proof. intros Hn. apply Uint64_be_bytes. exact Hn. Qed.

Lemma PutUint64_inj n m :
  (n < 2 ^ 64)%N → (m < 2 ^ 64)%N → PutUint64 n = PutUint64 m → n = m.
Proof.
  intros Hn Hm Heq. rewrite <- (Uint64_PutUint64 n Hn), <- (Uint64_PutUint64 m Hm).
  by rewrite Heq.
Qed.

Lemma PutUint64_nonempty n : PutUint64 n ≠ "".
Proof.
  intros Heq. pose proof (length_be_bytes 8 n) as Hlen.
  unfold PutUint64 in Heq. rewrite Heq in Hlen. done.
Qed.

Lemma seq_PutUint64 n : (n < 2 ^ 64)%N → localdb.seq (PutUint64 n) = Some n.
Proof.
  intros Hn. unfold localdb.seq, PutUint64. rewrite length_be_bytes. simpl.
  f_equal. by apply Uint64_PutUint64.
Qed.

(** *** Decimal numbers *)

Definition is_digit (c : ascii) : Prop := (48 ≤ N_of_ascii c ≤ 57)%N.

Lemma N_of_digit_char d : (d < 10)%N → N_of_ascii (digit_char d) = (48 + d)%N.
Proof. intros Hd. unfold digit_char. apply N_ascii_embedding. lia. Qed.

Lemma parse_step_digit n d :
  (d < 10)%N → (n * 10 + d ≤ maxUint64)%N →
  parse_step (Some n) (digit_char d) = Some (n * 10 + d)%N.
Proof.
  intros Hd Hmax. unfold parse_step. rewrite (N_of_digit_char d Hd).
  change (maxUint64 / 10 + 1)%N with 1844674407370955162%N.
  unfold maxUint64 in *.
  replace ((48 <=? 48 + d)%N && (48 + d <=? 57)%N) with true
    by (symmetry; apply andb_true_iff; split; apply N.leb_le; lia).
  replace (1844674407370955162 <=? n)%N with false by (symmetry; apply N.leb_gt; lia).
  replace (48 + d - 48)%N with d by lia.
  replace (18446744073709551615 <? n * 10 + d)%N with false
    by (symmetry; apply N.ltb_ge; lia).
  done.
Qed.

Lemma parse_fmt_digits fuel n :
  (n < 10 ^ N.of_nat fuel)%N → (n ≤ maxUint64)%N →
  fold_left parse_step (list_ascii_of_string (fmt_digits fuel n)) (Some 0%N) = Some n.
Proof.
  revert n. induction fuel as [|fuel IH]; intros n Hn Hmax.
  - simpl in *. f_equal. lia.
  - cbn [fmt_digits]. destruct (N.ltb_spec n 10) as [Hlt|Hge].
    + cbn [list_ascii_of_string fold_left].
      rewrite (parse_step_digit 0 n Hlt); [done|]. simpl. lia.
    + rewrite list_ascii_of_append, fold_left_app.
      pose proof (N.div_mod n 10) as Hdm.
      assert (Hm : (n `mod` 10 < 10)%N) by (apply N.mod_lt; lia).
      assert (Hmax' : (n / 10 * 10 + n `mod` 10 ≤ maxUint64)%N) by lia.
      assert (Hmax'' : (n / 10 ≤ maxUint64)%N)
        by (apply N.Div0.div_le_upper_bound; lia).
      rewrite IH.
      * cbn [list_ascii_of_string fold_left].
        rewrite parse_step_digit; [f_equal; lia|done|done].
      * apply N.Div0.div_lt_upper_bound.
        rewrite <- N.pow_succ_r', <- Nat2N.inj_succ. done.
      * done.
Qed.

Lemma fmt_digits_nonempty fuel n : fmt_digits (S fuel) n ≠ "".
Proof.
  cbn [fmt_digits]. destruct (n <? 10)%N; [done|].
  intros Heq. apply (f_equal String.length) in Heq.
  rewrite length_append in Heq. simpl in Heq. lia.
Qed.

(** [strconv.ParseUint] reads back what [%d] prints. *)
Lemma ParseUint_FormatUint n : (n < 2 ^ 64)%N → ParseUint (FormatUint n) = Some n.
Proof.
  intros Hn. unfold ParseUint, FormatUint.
  pose proof (fmt_digits_nonempty 19 n) as Hne.
  destruct (fmt_digits 20 n) eqn:Hf; [done|]. rewrite <- Hf.
  apply parse_fmt_digits.
  - eapply N.lt_trans; [exact Hn|]. done.
  - unfold maxUint64. change (2 ^ 64)%N with 18446744073709551616%N in Hn. lia.
Qed.

Lemma fold_parse_step_None l : fold_left parse_step l None = None.
Proof. induction l as [|c l IH]; simpl; done. Qed.

Lemma parse_step_Some acc c n : parse_step acc c = Some n → is_digit c.
Proof.
  unfold parse_step, is_digit. destruct acc as [a|]; [|done].
  destruct ((48 <=? N_of_ascii c)%N && (N_of_ascii c <=? 57)%N) eqn:Hd; [|done].
  intros _. apply andb_true_iff in Hd as [H1 H2].
  apply N.leb_le in H1, H2. done.
Qed.

Lemma fold_parse_step_digits l acc n :
  fold_left parse_step l acc = Some n → Forall is_digit l.
Proof.
  revert acc. induction l as [|c l IH]; intros acc Hf; [constructor|].
  simpl in Hf. destruct (parse_step acc c) as [m|] eqn:Hs.
  - constructor; [by eapply parse_step_Some|by eapply IH].
  - by rewrite fold_parse_step_None in Hf.
Qed.

Lemma ParseUint_digits s n :
  ParseUint s = Some n → s ≠ "" ∧ Forall is_digit (list_ascii_of_string s).
Proof.
  unfold ParseUint. destruct s as [|c s]; [done|]. intros Hf.
  split; [done|]. by eapply fold_parse_step_digits.
Qed.

(** *** Splitting at the first separator *)

Lemma cut_append sep (s t : string) :
  sep ∉ list_ascii_of_string s →
  cut sep (s ++ String.String sep t) = Some (s, t).
Proof.
  induction s as [|c s IH]; simpl; intros Hnot.
  - by rewrite Ascii.eqb_refl.
  - destruct (Ascii.eqb_spec c sep) as [->|Hne].
    + exfalso. apply Hnot. by left.
    + rewrite IH; [done|]. intros Hin. apply Hnot. by right.
Qed.


Lemma cut_None sep (s : string) : cut sep s = None → sep ∉ list_ascii_of_string s.
Proof.
  induction s as [|c s IH]; simpl; [by intros _ ?%elem_of_nil|].
  destruct (Ascii.eqb_spec c sep) as [->|Hne]; [done|].
  destruct (cut sep s) as [[a' b']|]; [done|].
  intros _ [->|Hin]%elem_of_cons; [done|]. by apply IH.
Qed.

(** ** bbolt: buckets along a path *)

Section BoltProperties.
Import bolt.

Lemma at_path_app (p q : list string) (b : Bucket) :
  at_path (p ++ q)%list b = at_path p b ≫= at_path q.
Proof.
  revert b. induction p as [|k p IH]; intros b; simpl; [done|].
  destruct (entries b !! k) as [[v|c]|]; simpl; try done.
Qed.

Lemma at_path_alter_path f (p : list string) (b : Bucket) :
  at_path p (alter_path f p b) = f <$> at_path p b.
Proof.
  revert b. induction p as [|k p IH]; intros b; simpl; [done|].
  destruct (entries b !! k) as [[v|c]|] eqn:Hk; simpl; rewrite ?Hk; try done.
  by rewrite lookup_insert_eq.
Qed.

Lemma alter_path_app f (p q : list string) (b : Bucket) :
  alter_path f (p ++ q)%list b = alter_path (alter_path f q) p b.
Proof.
  revert b. induction p as [|k p IH]; intros b; simpl; [done|].
  destruct (entries b !! k) as [[v|c]|]; simpl; try done. by rewrite IH.
Qed.

(** Changing a bucket below [p] changes the bucket at [p] in place. *)
Lemma at_path_alter_below f (p q : list string) (b : Bucket) :
  at_path p (alter_path f (p ++ q)%list b) = alter_path f q <$> at_path p b.
Proof. by rewrite alter_path_app, at_path_alter_path. Qed.

Lemma read_at {A} (h : list string) (f : Bucket → A) root b :
  at_path h root = Some b → read h f root = inr (f b, root).
Proof. intros Hb. unfold read. by rewrite Hb. Qed.

Lemma write_at (h : list string) (f : Bucket → Bucket) root b :
  at_path h root = Some b → write h f root = inr (tt, alter_path f h root).
Proof. intros Hb. unfold write. by rewrite Hb. Qed.

Lemma bind_inr {A B} (m : Tx A) (k : A → Tx B) root b root' :
  bind m k root = inr (b, root') →
  ∃ a root1, m root = inr (a, root1) ∧ k a root1 = inr (b, root').
Proof.
  unfold bind. destruct (m root) as [e|[a root1]]; [done|]. eauto.
Qed.

Lemma Bucket_at (h : list string) (key : string) root b :
  at_path h root = Some b →
  Bucket.Bucket h key root =
    inr (match entries b !! key with
         | Some (inr _) => Some (child h key)
         | _ => None
         end, root).
Proof.
  intros Hb. unfold Bucket.Bucket, bind. rewrite (read_at _ _ _ _ Hb).
  by destruct (entries b !! key) as [[v|c]|].
Qed.

Lemma at_path_child (h : list string) (key : string) root b :
  at_path h root = Some b →
  at_path (child h key) root =
    match entries b !! key with
    | Some (inr c) => Some c
    | _ => None
    end.
Proof.
  intros Hb. unfold child. rewrite at_path_app, Hb. simpl.
  by destruct (entries b !! key) as [[v|c]|].
Qed.

Lemma bucket_loop_at (keys : list string) : ∀ (h : list string) root b,
  at_path h root = Some b →
  localdb.bucket_loop h keys root =
    inr (match at_path keys b with
         | Some _ => Some (h ++ keys)%list
         | None => None
         end, root).
Proof.
  induction keys as [|key keys IH]; intros h root b Hb.
  - simpl. by rewrite app_nil_r.
  - cbn [localdb.bucket_loop]. unfold bind. rewrite (Bucket_at _ _ _ _ Hb).
    pose proof (at_path_child h key root b Hb) as Hc. simpl.
    destruct (entries b !! key) as [[v|c]|]; try done.
    rewrite (IH _ _ _ Hc). unfold child. by rewrite <- app_assoc.
Qed.

(** [CreateBucketIfNotExists] under a bucket that is there: the bucket
    [b] becomes [with_sub key b]. *)
Definition with_sub (key : string) (b : Bucket) : Bucket :=
  match entries b !! key with
  | Some (inr _) => b
  | _ => MkBucket (sequence b) (<[key := inr empty_bucket]> (entries b))
  end.

Definition sub (key : string) (b : Bucket) : Bucket :=
  match entries b !! key with
  | Some (inr c) => c
  | _ => empty_bucket
  end.

Definition holds_value (key : string) (b : Bucket) : Prop :=
  ∃ v, entries b !! key = Some (inl v).

Definition holds_bucket (key : string) (b : Bucket) : Prop :=
  ∃ c, entries b !! key = Some (inr c).

Lemma CreateBucketIfNotExists_at (h : list string) (key : string) root b :
  at_path h root = Some b → key ≠ "" → ¬ holds_value key b →
  ∃ root',
    Bucket.CreateBucketIfNotExists h key root = inr (child h key, root') ∧
    at_path h root' = Some (with_sub key b) ∧
    at_path (child h key) root' = Some (sub key b).
Proof.
  intros Hb Hkey Hval.
  unfold Bucket.CreateBucketIfNotExists, Bucket.CreateBucket, bind.
  apply String.eqb_neq in Hkey. rewrite Hkey.
  rewrite (read_at _ _ _ _ Hb). unfold with_sub, sub.
  destruct (entries b !! key) as [[v|c]|] eqn:Hk.
  - exfalso. apply Hval. by exists v.
  - exists root. simpl. split; [done|]. split; [done|].
    by rewrite (at_path_child _ _ _ _ Hb), Hk.
  - rewrite (write_at _ _ _ _ Hb). unfold ret.
    eexists. split; [done|].
    assert (Hb' : at_path h (alter_path
              (λ bkt, MkBucket (sequence bkt) (<[key:=inr empty_bucket]> (entries bkt))) h root)
            = Some (MkBucket (sequence b) (<[key:=inr empty_bucket]> (entries b)))).
    { by rewrite at_path_alter_path, Hb. }
    split; [done|]. rewrite (at_path_child _ _ _ _ Hb'). simpl.
    by rewrite lookup_insert_eq.
Qed.

(** The bucket [b] after [Put(key, value)] in its nested bucket
    [name], whose sequence is set to [sq]. *)
Definition with_record (name : string) (sq : N) (key value : string) (b : Bucket) : Bucket :=
  MkBucket (sequence b)
    (<[name := inr (MkBucket sq (<[key := inl value]> (entries (sub name b))))]> (entries b)).

Definition next_sequence (b : Bucket) : N := ((sequence b + 1) `mod` 2 ^ 64)%N.

Lemma with_record_lookup (name : string) (sq : N) (key value : string) (b : Bucket) :
  entries (with_record name sq key value b) !! name =
    Some (inr (MkBucket sq (<[key := inl value]> (entries (sub name b))))).
Proof. unfold with_record. cbn [entries]. by rewrite lookup_insert_eq. Qed.

Lemma sub_with_record (name : string) (sq : N) (key value : string) (b : Bucket) :
  sub name (with_record name sq key value b) =
    MkBucket sq (<[key := inl value]> (entries (sub name b))).
Proof. unfold sub at 1. by rewrite with_record_lookup. Qed.

(** The transaction that [run.Update] and [runWriter.Write] share: a
    record is put under the next sequence number of a nested bucket. *)
Lemma append_record_at (h : list string) (name : string) (value : string) root b :
  at_path h root = Some b → name ≠ "" → ¬ holds_value name b →
  ¬ holds_bucket (PutUint64 (next_sequence (sub name b))) (sub name b) →
  ∃ root',
    (let* c := Bucket.CreateBucketIfNotExists h name in
     let* seq := Bucket.NextSequence c in
     Bucket.Put c (PutUint64 seq) value) root = inr (tt, root') ∧
    at_path h root' =
      Some (with_record name (next_sequence (sub name b))
              (PutUint64 (next_sequence (sub name b))) value b).
Proof.
  intros Hb Hname Hval Hfree.
  destruct (CreateBucketIfNotExists_at h name root b Hb Hname Hval)
    as (root1 & Hcreate & Hb1 & Hc1).
  unfold bind at 1. rewrite Hcreate.
  unfold Bucket.NextSequence, bind. rewrite (write_at _ _ _ _ Hc1).
  set (incr := λ bkt : Bucket, MkBucket ((sequence bkt + 1) `mod` 2 ^ 64)%N (entries bkt)).
  set (root2 := alter_path incr (child h name) root1).
  assert (Hc2 : at_path (child h name) root2 = Some (incr (sub name b))).
  { unfold root2. by rewrite at_path_alter_path, Hc1. }
  assert (Hb2 : at_path h root2 = Some (alter_path incr [name] (with_sub name b))).
  { unfold root2, child. by rewrite at_path_alter_below, Hb1. }
  rewrite (read_at _ _ _ _ Hc2). cbn [incr sequence].
  fold (next_sequence (sub name b)).
  unfold Bucket.Put, bind.
  pose proof (PutUint64_nonempty (next_sequence (sub name b))) as Hne.
  apply String.eqb_neq in Hne. rewrite Hne.
  rewrite (read_at _ _ _ _ Hc2). cbn [incr entries].
  destruct (entries (sub name b) !! PutUint64 (next_sequence (sub name b)))
    as [[v|c]|] eqn:Hk.
  2:{ exfalso. apply Hfree. by exists c. }
  all: rewrite (write_at _ _ _ _ Hc2); eexists; split; [done|];
    unfold child; rewrite at_path_alter_below, Hb2; simpl;
    unfold with_record, with_sub, sub;
    destruct (entries b !! name) as [[v'|c']|] eqn:Hn; simpl;
    rewrite ?Hn; try (exfalso; apply Hval; by eexists);
    simpl; rewrite ?lookup_insert_eq; simpl; rewrite ?lookup_insert_eq;
    by rewrite ?insert_insert_eq.
Qed.
End BoltProperties.

(** ** localdb: loading and storing runs *)




Section DatabaseProperties.
Import bolt localdb.
Context `{!Gob run run_fill, !Gob (gmap string float64) metrics_fill,
          !Gob (gmap string (list diviner.Value)) params_fill, !Gzip}.

(** The bucket of a run: [studies/<name>/runs/<seq>]. *)
Definition run_path (r : run) : list string :=
  [studiesKey; Study r; runsKey; run_seq r].

(** The header of [r] is what the database holds for it: [r] is
    persisted. *)
Definition stored (root : Bucket) (r : run) : Prop :=
  ∃ rb, at_path (run_path r) root = Some rb ∧
        entries rb !! metaKey = Some (inl (gob_encode r)).

(** A database to which the methods of a run have been applied: they
    work on the bolt file the run points to; a run has no pointer to
    the [DB] value and its liveset. *)
Definition with_db (d : DB) (root : Bucket) : DB := {| db := root; live := live d |}.

Lemma run_bucket_None r root :
  run_bucket r None root =
    match at_path (run_path r) root with
    | Some _ => inr (run_path r, root)
    | None => inl ErrNoSuchRun
    end.
Proof.
  unfold run_bucket, bucket, bind.
  rewrite (bucket_loop_at _ [] root root eq_refl). fold (run_path r). simpl app.
  by destruct (at_path (run_path r) root).
Qed.

Lemma run_bucket_Some r which root rb :
  at_path (run_path r) root = Some rb →
  run_bucket r (Some which) root = Bucket.CreateBucketIfNotExists (run_path r) which root.
Proof.
  intros Hrb. unfold run_bucket, bucket, bind.
  rewrite (bucket_loop_at _ [] root root eq_refl). fold (run_path r). simpl app.
  by rewrite Hrb.
Qed.

Lemma run_marshal_missing r root :
  at_path (run_path r) root = None → run_marshal r root = inl ErrNoSuchRun.
Proof. intros Hno. unfold run_marshal, bind. by rewrite run_bucket_None, Hno. Qed.

Lemma run_marshal_at r root rb :
  at_path (run_path r) root = Some rb → ¬ holds_bucket metaKey rb →
  ∃ root', run_marshal r root = inr (tt, root') ∧ stored root' r ∧
           at_path (run_path r) root' =
             Some (MkBucket (sequence rb) (<[metaKey := inl (gob_encode r)]> (entries rb))).
Proof.
  intros Hrb Hmeta. unfold run_marshal, bind. rewrite run_bucket_None, Hrb.
  unfold put, Bucket.Put, bind.
  change (key (of_bytes metaKey)) with metaKey.
  change (String.eqb metaKey "") with false. cbv beta iota.
  rewrite (read_at _ _ _ _ Hrb).
  assert (Hok : at_path (run_path r)
            (alter_path (λ bkt, MkBucket (sequence bkt)
                                  (<[metaKey:=inl (gob_encode r)]> (entries bkt)))
               (run_path r) root)
          = Some (MkBucket (sequence rb) (<[metaKey:=inl (gob_encode r)]> (entries rb)))).
  { by rewrite at_path_alter_path, Hrb. }
  assert (Hst : stored (alter_path (λ bkt, MkBucket (sequence bkt)
                                  (<[metaKey:=inl (gob_encode r)]> (entries bkt)))
               (run_path r) root) r).
  { eexists. split; [exact Hok|]. cbn [entries]. by rewrite lookup_insert_eq. }
  destruct (entries rb !! metaKey) as [[v|c]|] eqn:Hk.
  2:{ exfalso. apply Hmeta. by exists c. }
  all: rewrite (write_at _ _ _ _ Hrb); eexists; split; [reflexivity|]; by split.
Qed.

(** Whenever [marshal] succeeds, the run is persisted. *)
Lemma run_marshal_stored r root root' :
  run_marshal r root = inr (tt, root') → stored root' r.
Proof.
  intros Hm. destruct (at_path (run_path r) root) as [rb|] eqn:Hrb.
  - destruct (entries rb !! metaKey) as [[v|c]|] eqn:Hc.
    2:{ exfalso. revert Hm. unfold run_marshal, bind. rewrite run_bucket_None, Hrb.
      unfold put, Bucket.Put, bind.
      change (key (of_bytes metaKey)) with metaKey.
      change (String.eqb metaKey "") with false. cbv beta iota.
      rewrite (read_at _ _ _ _ Hrb). by rewrite Hc. }
    all: assert (Hmeta : ¬ holds_bucket metaKey rb)
      by (intros [c' Hc']; rewrite Hc' in Hc; done);
      destruct (run_marshal_at r root rb Hrb Hmeta) as (root1 & Hm1 & Hst & _);
      rewrite Hm in Hm1; by injection Hm1 as <-.
  - by rewrite run_marshal_missing in Hm.
Qed.

Lemma stored_no_bucket root r :
  stored root r → ∃ rb, at_path (run_path r) root = Some rb ∧ ¬ holds_bucket metaKey rb.
Proof.
  intros (rb & Hrb & Hmeta). exists rb. split; [done|].
  intros [c Hc]. rewrite Hc in Hmeta. done.
Qed.

(** Loading into the handle [r] the header stored for [r0]. *)
Lemma run_unmarshal_stored r r0 root :
  stored root r0 → run_path r = run_path r0 →
  run_unmarshal r root = inr (run_fill r0 r, root).
Proof.
  intros (rb & Hrb & Hmeta) Hpath. unfold run_unmarshal, bind.
  rewrite run_bucket_None, Hpath, Hrb.
  unfold get, Bucket.Get, bind. rewrite (read_at _ _ _ _ Hrb).
  change (key (of_bytes metaKey)) with metaKey.
  rewrite Hmeta. unfold ret at 1. by rewrite gob_decode_encode.
Qed.

Lemma run_Complete_stored r state root :
  stored root r →
  ∃ root', run_Complete r state root = (with_RunState r state, root', None) ∧
           stored root' (with_RunState r state).
Proof.
  intros Hst. destruct (stored_no_bucket _ _ Hst) as (rb & Hrb & Hmeta).
  destruct (run_marshal_at (with_RunState r state) root rb Hrb Hmeta)
    as (root' & Hm & Hst' & _).
  exists root'. unfold run_Complete, Update. by rewrite Hm.
Qed.


(** [DB.Run] on the ID of a persisted run. *)
Lemma DB_Run_stored (d : DB) (r : run) :
  stored (db d) r →
  Study r ≠ "" → "/"%char ∉ list_ascii_of_string (Study r) → (Seq r < 2 ^ 64)%N →
  DB_Run d (run_ID r) =
    (Some (run_fill r (run_init (new_run (Seq r) (Study r) ∅))), None).
Proof.
  intros Hst Hname Hslash Hseq. unfold DB_Run, run_ID, SplitN2.
  change ("/" ++ FormatUint (Seq r)) with (String.String "/"%char (FormatUint (Seq r))).
  rewrite (cut_append _ _ _ Hslash).
  apply String.eqb_neq in Hname. rewrite Hname.
  rewrite (ParseUint_FormatUint _ Hseq). unfold View.
  by rewrite (run_unmarshal_stored (run_init (new_run (Seq r) (Study r) ∅)) r (db d)
                Hst eq_refl).
Qed.

Lemma run_fill_fields (r : run) :
  RunState r ≠ 0%N →
  let r' := run_fill r (run_init (new_run (Seq r) (Study r) ∅)) in
  Study r' = Study r ∧ Seq r' = Seq r ∧ RunValues r' = RunValues r ∧
  RunState r' = RunState r.
Proof.
  intros Hstate. simpl. apply N.eqb_neq in Hstate. rewrite Hstate.
  repeat split.
  - by destruct (String.eqb (Study r) "").
  - by destruct (Seq r =? 0)%N.
  - apply (right_id_L ∅ (∪)).
Qed.
End DatabaseProperties.

(** A concrete database: a fresh file, opened, with one run of the study
    [test] created in it. *)
Module Example.
Import localdb.

Definition study : diviner.Study :=
  {| diviner.Name := "test"; diviner.StudyParams := {[ "param" := [diviner.Int 0; diviner.Int 1] ]} |}.

Definition values : gmap string diviner.Value := {[ "param" := diviner.Int 0 ]}.

Definition db0 : DB := (Open bolt.empty_bucket).1.

(** The first run of the study, as [DB.New] returns it. *)
Definition run1 : run :=
  {| Seq := 1; Study := "test"; RunValues := values; RunState := diviner.Pending;
     wr := bufio.NewWriterSize; status := "" |}.

Definition db1 : DB := (DB_New db0 study values).1.

Lemma New_run1 : DB_New db0 study values = (db1, inr run1).
Proof. reflexivity. Qed.

Lemma run1_stored : stored (db db1) run1.
Proof. eexists. split; vm_compute; reflexivity. Qed.
End Example.

Section Identity.
Import bolt localdb.
Context `{!Gob run run_fill, !Gob (gmap string float64) metrics_fill,
          !Gob (gmap string (list diviner.Value)) params_fill, !Gzip}.

(** C6: the ID of a persisted run whose study name is non-empty and
    has no slash is the name, a slash and the sequence number in
    decimal, and [DB.Run] on that ID returns a run with the same study
    name, sequence number, values and state. *)
Theorem Run_ID_round_trip (d : DB) (r : run) :
  stored (db d) r →
  Study r ≠ "" → "/"%char ∉ list_ascii_of_string (Study r) →
  (Seq r < 2 ^ 64)%N → RunState r ≠ 0%N →
  run_ID r = Study r ++ "/" ++ FormatUint (Seq r) ∧
  Forall is_digit (list_ascii_of_string (FormatUint (Seq r))) ∧
  ParseUint (FormatUint (Seq r)) = Some (Seq r) ∧
  ∃ r', DB_Run d (run_ID r) = (Some r', None) ∧
        Study r' = Study r ∧ Seq r' = Seq r ∧ RunValues r' = RunValues r ∧
        RunState r' = RunState r.
Proof.
  intros Hst Hname Hslash Hseq Hstate.
  pose proof (ParseUint_FormatUint _ Hseq) as Hparse.
  split; [done|]. split; [by apply (ParseUint_digits _ _ Hparse)|]. split; [done|].
  eexists. split; [by apply DB_Run_stored|]. by apply run_fill_fields.
Qed.

End Identity.

Lemma Run_ID_round_trip_witness :
  localdb.run_ID Example.run1 = "test" ++ "/" ++ FormatUint 1 ∧
  Forall is_digit (list_ascii_of_string (FormatUint 1)) ∧
  ParseUint (FormatUint 1) = Some 1%N ∧
  ∃ r', localdb.DB_Run Example.db1 (localdb.run_ID Example.run1) = (Some r', None) ∧
        localdb.Study r' = "test" ∧ localdb.Seq r' = 1%N ∧
        localdb.RunValues r' = Example.values ∧
        localdb.RunState r' = diviner.Pending.
Proof.
  apply (Run_ID_round_trip Example.db1 Example.run1).
  - exact Example.run1_stored.
  - done.
  - vm_compute. intros Hin. by repeat (apply elem_of_cons in Hin as [?|Hin]; [done|]);
      apply elem_of_nil in Hin.
  - done.
  - done.
Defined.


(** ** localdb: the liveset and the run states *)

Section Liveset.
Import bolt localdb.
Context `{!Gob run run_fill, !Gob (gmap string float64) metrics_fill,
          !Gob (gmap string (list diviner.Value)) params_fill, !Gzip}.

(** A run that is pending is in the liveset. *)
Definition pending_live (d : DB) (x : run) : Prop :=
  RunState x = diviner.Pending → (Study x, Seq x) ∈ live d.

Lemma Runs_visit_pending_live d study states tx k v runs runs' e :
  Runs_visit d study states tx k v runs = (runs', e) →
  Forall (pending_live d) runs → Forall (pending_live d) runs'.
Proof.
  unfold Runs_visit. destruct (seq k) as [sq|]; [|by intros [= <- <-]].
  destruct (run_unmarshal _ tx) as [err|[x tx']]; [by intros [= <- <-]|].
  destruct (_ && _) eqn:Hcond; intros [= <- <-] Hruns; [|done].
  apply Forall_app. split; [done|]. constructor; [|constructor].
  intros Hpending. unfold run_State in Hcond. rewrite Hpending in Hcond.
  apply andb_true_iff in Hcond as [_ Hlive]. rewrite N.eqb_refl in Hlive.
  simpl in Hlive. by apply bool_decide_eq_true in Hlive.
Qed.

Lemma ForEach_loop_pending_live d study states tx kvs : ∀ runs runs' e,
  Bucket.ForEach_loop (Runs_visit d study states tx) kvs runs = (runs', e) →
  Forall (pending_live d) runs → Forall (pending_live d) runs'.
Proof.
  induction kvs as [|[k v] kvs IH]; intros runs runs' e; simpl.
  - by intros [= <- <-].
  - destruct (Runs_visit d study states tx k v runs) as [runs1 [e1|]] eqn:Hvisit.
    + intros [= <- <-]. by eapply Runs_visit_pending_live.
    + intros Hloop Hruns. eapply IH; [done|]. by eapply Runs_visit_pending_live.
Qed.

Lemma DB_Runs_pending_live d study states runs e :
  DB_Runs d study states = (runs, e) → Forall (pending_live d) runs.
Proof.
  unfold DB_Runs, View, bind.
  destruct (bucket _ _ _ (db d)) as [e1|[[b|] tx1]]; try by intros [= <- <-].
  destruct (Bucket.Bucket b runsKey tx1) as [e2|[[b'|] tx2]]; try by intros [= <- <-].
  destruct (read b' id tx2) as [e3|[bkt tx3]]; [by intros [= <- <-]|].
  unfold ret. intros Hloop. by eapply ForEach_loop_pending_live.
Qed.

(** C2, as the code has it: whatever the state mask of the query, a
    pending run that [DB.Runs] returns is in the liveset; a pending run
    that is not (an orphan) is left out of [Runs(study, Pending)] and of
    every other query. *)
Theorem Runs_excludes_orphans (d : DB) (study : diviner.Study) (states : N)
    (runs : list run) (e : option error) (x : run) :
  DB_Runs d study states = (runs, e) →
  x ∈ runs → RunState x = diviner.Pending →
  (Study x, Seq x) ∈ live d.
Proof.
  intros Hruns Hin Hpending. apply DB_Runs_pending_live in Hruns.
  rewrite Forall_forall in Hruns. by apply Hruns.
Qed.


Lemma NextSequence_bound (b : list string) root sq root' :
  Bucket.NextSequence b root = inr (sq, root') → (sq < 2 ^ 64)%N.
Proof.
  unfold Bucket.NextSequence, bind, write, read.
  destruct (at_path b root) as [bkt|] eqn:Hb; [|done].
  rewrite at_path_alter_path, Hb. simpl. intros [= <- _]. apply N.mod_lt. done.
Qed.

(** What [New] returns when it succeeds. *)
Lemma New_tx_inr study values root r root' :
  New_tx study values root = inr (r, root') →
  stored root' r ∧ Study r = diviner.Name study ∧ RunValues r = values ∧
  RunState r = diviner.Pending ∧ (Seq r < 2 ^ 64)%N ∧ wr r = bufio.NewWriterSize.
Proof.
  unfold New_tx. intros Htx.
  apply bind_inr in Htx as (s0 & root1 & _ & Htx).
  apply bind_inr in Htx as (s1 & root2 & _ & Htx).
  apply bind_inr in Htx as (b0 & root3 & _ & Htx).
  apply bind_inr in Htx as (b1 & root4 & _ & Htx).
  apply bind_inr in Htx as (b2 & root5 & _ & Htx).
  apply bind_inr in Htx as (sq & root6 & Hseq & Htx).
  apply bind_inr in Htx as (b3 & root7 & _ & Htx).
  apply bind_inr in Htx as ([] & root8 & Hmarshal & Htx).
  injection Htx as <- <-. split; [by eapply run_marshal_stored|].
  repeat split; try done. by eapply NextSequence_bound.
Qed.

Lemma DB_New_inr d study values d' r :
  DB_New d study values = (d', inr r) →
  live d' = {[ (Study r, Seq r) ]} ∪ live d ∧ stored (db d') r ∧
  Study r = diviner.Name study ∧ RunValues r = values ∧
  RunState r = diviner.Pending ∧ (Seq r < 2 ^ 64)%N ∧ wr r = bufio.NewWriterSize.
Proof.
  unfold DB_New, Update.
  destruct (New_tx study values (db d)) as [e|[x root']] eqn:Htx; [done|].
  intros [= <- <-]. split; [done|]. by apply (New_tx_inr _ _ _ _ _ Htx).
Qed.

(** C3, as the code has it: [New] adds the key of the new run to the
    liveset; [Complete], a method of the run, has no access to the
    liveset and leaves it as it is, so the run is still a member after
    [Complete] has succeeded. *)
Theorem New_adds_Complete_keeps (d d' : DB) (study : diviner.Study)
    (values : gmap string diviner.Value) (r : run) :
  DB_New d study values = (d', inr r) →
  (Study r, Seq r) ∈ live d' ∧
  live d' = {[ (Study r, Seq r) ]} ∪ live d ∧
  ∀ state, ∃ r' root',
    run_Complete r state (db d') = (r', root', None) ∧
    RunState r' = state ∧
    live (with_db d' root') = live d' ∧
    (Study r', Seq r') ∈ live (with_db d' root').
Proof.
  intros Hnew. apply DB_New_inr in Hnew as (Hlive & Hst & _).
  split; [rewrite Hlive; apply elem_of_union_l; by apply elem_of_singleton|].
  split; [done|].
  intros state. destruct (run_Complete_stored r state _ Hst) as (root' & Hc & _).
  exists (with_RunState r state), root'. split; [done|]. split; [done|].
  split; [done|]. simpl. rewrite Hlive. apply elem_of_union_l. by apply elem_of_singleton.
Qed.

End Liveset.

Module Example2.
Import localdb Example.

(** The database of [Example] after a restart: the file is opened
    again, with an empty liveset. *)
Definition reopened : DB := (Open (db db1)).1.

(** The first run completed with [Success], then with [Failure]. *)
Definition completed1 := run_Complete run1 diviner.Success (db db1).
End Example2.

(** The model at work on the databases of [Example] and [Example2]. *)

Example Runs_Pending_live :
  localdb.DB_Runs Example.db1 Example.study diviner.Pending = ([Example.run1], None).
Proof. reflexivity. Qed.

Example Runs_Complete_after_Success :
  (localdb.DB_Runs (with_db Example.db1 Example2.completed1.1.2) Example.study
     diviner.Complete)
  = ([localdb.with_RunState Example.run1 diviner.Success], None) ∧
  (localdb.DB_Runs (with_db Example.db1 Example2.completed1.1.2) Example.study
     diviner.Pending)
  = ([], None).
Proof. split; reflexivity. Qed.

Example Runs_unknown_study :
  localdb.DB_Runs Example.db1
    {| diviner.Name := "other"; diviner.StudyParams := ∅ |} diviner.Pending
  = ([], Some ErrNoSuchStudy).
Proof. reflexivity. Qed.

Example Run_unknown_run :
  (localdb.DB_Run Example.db1 "test/2").2 = Some ErrNoSuchRun.
Proof. reflexivity. Qed.

Example Run_invalid_IDs :
  localdb.DB_Run Example.db1 "" = (None, Some ErrInvalidRunId) ∧
  localdb.DB_Run Example.db1 "test" = (None, Some ErrInvalidRunId) ∧
  localdb.DB_Run Example.db1 "/1" = (None, Some ErrInvalidRunId) ∧
  localdb.DB_Run Example.db1 "test/" = (None, Some ErrInvalidRunId) ∧
  localdb.DB_Run Example.db1 "test/-1" = (None, Some ErrInvalidRunId) ∧
  localdb.DB_Run Example.db1 "test/1/2" = (None, Some ErrInvalidRunId) ∧
  localdb.DB_Run Example.db1 "test/18446744073709551616" = (None, Some ErrInvalidRunId).
Proof. repeat split; reflexivity. Qed.

Lemma Runs_excludes_orphans_witness :
  (localdb.Study Example.run1, localdb.Seq Example.run1) ∈ localdb.live Example.db1.
Proof.
  apply (Runs_excludes_orphans Example.db1 Example.study diviner.Pending
           [Example.run1] None Example.run1).
  - reflexivity.
  - apply list_elem_of_singleton. reflexivity.
  - reflexivity.
Defined.

(** C2 fails for the mask [Pending|Complete]: after a restart the run of
    [Example] is persisted in state [Pending] and is not in the liveset,
    and the query returns no run. *)
Lemma Runs_Pending_or_Complete_hides_orphan :
  stored (localdb.db Example2.reopened) Example.run1 ∧
  localdb.RunState Example.run1 = diviner.Pending ∧
  ((localdb.Study Example.run1, localdb.Seq Example.run1) ∉ localdb.live Example2.reopened) ∧
  localdb.DB_Runs Example2.reopened Example.study (N.lor diviner.Pending diviner.Complete)
  = ([], None).
Proof.
  split; [|split; [|split]].
  - exact Example.run1_stored.
  - reflexivity.
  - apply not_elem_of_empty.
  - reflexivity.
Qed.


Lemma New_adds_Complete_keeps_witness :
  ("test", 1%N) ∈ localdb.live Example.db1 ∧
  localdb.live Example.db1 = {[ ("test", 1%N) ]} ∪ localdb.live Example.db0 ∧
  ∀ state, ∃ r' root',
    localdb.run_Complete Example.run1 state (localdb.db Example.db1) = (r', root', None) ∧
    localdb.RunState r' = state ∧
    localdb.live (with_db Example.db1 root') = localdb.live Example.db1 ∧
    (localdb.Study r', localdb.Seq r') ∈ localdb.live (with_db Example.db1 root').
Proof.
  apply (New_adds_Complete_keeps Example.db0 Example.db1 Example.study Example.values
           Example.run1).
  exact Example.New_run1.
Defined.

(** C3 fails for [Complete]: the run of [Example] is completed with
    [Success], without error, and its key is still in the liveset. *)
Lemma Complete_keeps_liveset_entry :
  Example2.completed1.2 = None ∧
  localdb.RunState Example2.completed1.1.1 = diviner.Success ∧
  (localdb.Study Example2.completed1.1.1, localdb.Seq Example2.completed1.1.1)
    ∈ localdb.live (with_db Example.db1 Example2.completed1.1.2).
Proof.
  split; [reflexivity|]. split; [reflexivity|].
  change (("test", 1%N) ∈ ({[ ("test", 1%N) ]} ∪ ∅ : gset (string * N))).
  set_solver.
Qed.



(** ** localdb: metrics *)

Section MetricsProperties.
Import bolt localdb.
Context `{!Gob run run_fill, !Gob (gmap string float64) metrics_fill,
          !Gob (gmap string (list diviner.Value)) params_fill, !Gzip}.

(** The key [metrics] of the bucket of a run holds no plain value, and
    the nested bucket holds no bucket: nothing but [Update] wrote
    there. *)
Definition metrics_ok (rb : Bucket) : Prop :=
  ¬ holds_value metricsKey rb ∧ ∀ k, ¬ holds_bucket k (sub metricsKey rb).

Lemma bind_congr {A B} (m m' : Tx A) (k : A → Tx B) root :
  m root = m' root → bind m k root = bind m' k root.
Proof. unfold bind. by intros ->. Qed.

Lemma run_Update_at r metrics root rb :
  at_path (run_path r) root = Some rb → metrics_ok rb →
  ∃ root' rb',
    run_Update r metrics root = (root', None) ∧
    at_path (run_path r) root' = Some rb' ∧ metrics_ok rb' ∧
    run_Metrics r root' = (metrics, None).
Proof.
  intros Hrb [Hval Hsub].
  destruct (append_record_at (run_path r) metricsKey (gob_encode metrics) root rb
              Hrb ltac:(done) Hval (Hsub _)) as (root' & Htx & Hrb').
  set (sq := next_sequence (sub metricsKey rb)) in *.
  exists root'. eexists. split; [|split; [exact Hrb'|split]].
  - unfold run_Update, Update.
    rewrite (bind_congr _ _ _ _ (run_bucket_Some r metricsKey root rb Hrb)).
    unfold put. change (key (of_uint64 ?n)) with (PutUint64 n).
    by rewrite Htx.
  - split.
    + intros [v Hv]. by rewrite with_record_lookup in Hv.
    + intros k [c Hc]. revert Hc. rewrite sub_with_record. cbn [entries].
      destruct (decide (PutUint64 sq = k)) as [<-|Hne].
      * by rewrite lookup_insert_eq.
      * rewrite lookup_insert_ne by done. intros Hc. apply (Hsub k). by exists c.
  - unfold run_Metrics, View, bind. rewrite run_bucket_None, Hrb'.
    rewrite (Bucket_at _ metricsKey _ _ Hrb').
    pose proof (at_path_child _ metricsKey _ _ Hrb') as Hchild.
    rewrite with_record_lookup in Hchild. rewrite with_record_lookup.
    unfold Bucket.Sequence. rewrite (read_at _ _ _ _ Hchild).
    cbn [sequence]. unfold get, Bucket.Get, bind. rewrite (read_at _ _ _ _ Hchild).
    cbn [entries]. change (key (of_uint64 sq)) with (PutUint64 sq).
    rewrite lookup_insert_eq. unfold ret at 1. rewrite gob_decode_encode.
    unfold ret, metrics_fill. by rewrite (right_id_L ∅ (∪)).
Qed.

Lemma run_Metrics_none r root rb :
  at_path (run_path r) root = Some rb → entries rb !! metricsKey = None →
  run_Metrics r root = (∅, None).
Proof.
  intros Hrb Hno. unfold run_Metrics, View, bind. rewrite run_bucket_None, Hrb.
  rewrite (Bucket_at _ metricsKey _ _ Hrb), Hno. done.
Qed.

Lemma run_Updates_at r ms : ∀ root rb,
  at_path (run_path r) root = Some rb → metrics_ok rb →
  ∃ root',
    run_Updates r ms root = (root', None) ∧
    (ms = [] → root' = root) ∧
    (ms ≠ [] → run_Metrics r root' = (default ∅ (last ms), None)).
Proof.
  induction ms as [|m ms IH]; intros root rb Hrb Hok.
  - by exists root.
  - destruct (run_Update_at r m root rb Hrb Hok) as (root1 & rb1 & Hu & Hrb1 & Hok1 & Hm).
    destruct (IH root1 rb1 Hrb1 Hok1) as (root' & Hus & Hnil & Hlast).
    exists root'. cbn [run_Updates]. rewrite Hu. split; [done|]. split; [done|].
    intros _. destruct ms as [|m' ms'].
    + rewrite (Hnil eq_refl). exact Hm.
    + rewrite last_cons_cons. by apply Hlast.
Qed.

(** C4: after any sequence of calls of [Update] on a run, [Metrics]
    returns the map of the latest call, and nothing of the earlier
    ones; when no [Update] was ever made it returns the empty map and
    no error. *)
Theorem Metrics_returns_latest (r : run) (root rb : Bucket)
    (ms : list (gmap string float64)) :
  at_path (run_path r) root = Some rb →
  entries rb !! metricsKey = None →
  ∃ root',
    run_Updates r ms root = (root', None) ∧
    run_Metrics r root' = (default ∅ (last ms), None).
Proof.
  intros Hrb Hno.
  assert (Hok : metrics_ok rb).
  { split.
    - intros [v Hv]. by rewrite Hno in Hv.
    - intros k [c Hc]. revert Hc. unfold sub. by rewrite Hno. }
  destruct (run_Updates_at r ms root rb Hrb Hok) as (root' & Hus & Hnil & Hlast).
  exists root'. split; [done|]. destruct ms as [|m ms].
  - rewrite (Hnil eq_refl). by apply (run_Metrics_none r root rb).
  - by apply Hlast.
Qed.
End MetricsProperties.

Definition metrics1 : gmap string float64 := {[ "paramvalue" := S754_finite false 1 0 ]}.
Definition metrics2 : gmap string float64 :=
  {[ "another" := S754_finite false 3 0; "paramvalue" := S754_zero false ]}.

Lemma Metrics_returns_latest_witness :
  ∃ root',
    localdb.run_Updates Example.run1 [metrics1; metrics2] (localdb.db Example.db1) = (root', None) ∧
    localdb.run_Metrics Example.run1 root' = (default ∅ (last [metrics1; metrics2]), None).
Proof.
  eapply (Metrics_returns_latest Example.run1 (localdb.db Example.db1)).
  - vm_compute. reflexivity.
  - vm_compute. reflexivity.
Defined.

(** The scenario of the runner test: two metric lines, the later one
    wins. *)
Example Metrics_later_wins :
  (localdb.run_Metrics Example.run1
     (localdb.run_Updates Example.run1 [metrics1; metrics2] (localdb.db Example.db1)).1).1
  = metrics2.
Proof. vm_compute. reflexivity. Qed.

(** ** bufio.Writer over a writer that stores blocks *)

Definition bytes_concat (bs : list string) : string := foldr String.append "" bs.

Lemma bytes_concat_app (bs1 bs2 : list string) :
  bytes_concat (bs1 ++ bs2) = bytes_concat bs1 ++ bytes_concat bs2.
Proof.
  induction bs1 as [|b bs1 IH]; simpl; [done|]. by rewrite IH, append_assoc.
Qed.

Section BufioProperties.
Context {U : Type}.
Variable wr_Write : string → U → U * (nat * option error).
Variable size : nat.

(** [holds u bs]: the underlying writer has stored the blocks [bs], in
    this order; it takes another block while there are fewer than
    [limit]. *)
Variable holds : U → list string → Prop.
Variable limit : N.
Hypothesis wr_Write_appends : ∀ u bs p,
  holds u bs → (N.of_nat (length bs) < limit)%N →
  ∃ u', wr_Write p u = (u', (String.length p, None)) ∧ holds u' (bs ++ [p]).

Abbreviation nonempty := (λ b : string, b ≠ "").

Lemma Write_loop_done fuel b p nn (u : U) :
  (bufio.Available size b <? String.length p)%nat && bool_decide (bufio.err b = None) = false →
  bufio.Write_loop wr_Write size fuel b p nn u = Some (b, p, nn, u).
Proof. intros Hcond. destruct fuel; simpl; by rewrite Hcond. Qed.

Lemma Write_loop_step fuel b p nn (u : U) :
  (bufio.Available size b <? String.length p)%nat = true → bufio.err b = None →
  bufio.Write_loop wr_Write size (S fuel) b p nn u =
    if (bufio.Buffered b =? 0)%nat then
      let '(u', (n, e)) := wr_Write p u in
      bufio.Write_loop wr_Write size fuel {| bufio.buf := bufio.buf b; bufio.err := e |}
        (drop_bytes n p) (nn + n) u'
    else
      let n := bufio.Available size b `min` String.length p in
      let b1 := {| bufio.buf := bufio.buf b ++ take_bytes n p; bufio.err := bufio.err b |} in
      let '(b2, u', _) := bufio.Flush wr_Write b1 u in
      bufio.Write_loop wr_Write size fuel b2 (drop_bytes n p) (nn + n) u'.
Proof.
  intros Hcond Herr. cbn [bufio.Write_loop]. rewrite Hcond, Herr.
  by rewrite bool_decide_eq_true_2.
Qed.

Lemma Flush_ok b u bs :
  bufio.err b = None → holds u bs → Forall nonempty bs →
  (N.of_nat (length bs) < limit)%N →
  ∃ u' bs',
    bufio.Flush wr_Write b u = (bufio.NewWriterSize, u', None) ∧
    holds u' bs' ∧ Forall nonempty bs' ∧
    bytes_concat bs' = bytes_concat bs ++ bufio.buf b ∧
    (length bs' ≤ length bs + 1)%nat.
Proof.
  intros Herr Hholds Hne Hlimit. unfold bufio.Flush. rewrite Herr.
  unfold bufio.Buffered. destruct (Nat.eqb_spec (String.length (bufio.buf b)) 0) as [H0|H0].
  - exists u, bs. apply length_zero_empty in H0.
    destruct b as [buf err]. simpl in *. subst.
    rewrite append_nil_r. repeat split; try done. lia.
  - destruct (wr_Write_appends u bs (bufio.buf b) Hholds Hlimit) as (u' & Hw & Hholds').
    rewrite Hw. rewrite Nat.ltb_irrefl.
    exists u', (bs ++ [bufio.buf b])%list. split; [done|]. split; [done|].
    split; [|split].
    + apply Forall_app. split; [done|]. constructor; [|done].
      intros Hempty. rewrite Hempty in H0. done.
    + rewrite bytes_concat_app. simpl. by rewrite append_nil_r.
    + rewrite length_app. simpl. lia.
Qed.

Lemma Write_ok b u bs p fuel :
  bufio.err b = None → (String.length (bufio.buf b) ≤ size)%nat →
  holds u bs → Forall nonempty bs →
  (N.of_nat (length bs) + 1 < limit)%N → (2 ≤ fuel)%nat →
  ∃ b' u' bs',
    bufio.Write wr_Write size fuel b p u = Some (b', u', String.length p, None) ∧
    bufio.err b' = None ∧ (String.length (bufio.buf b') ≤ size)%nat ∧
    holds u' bs' ∧ Forall nonempty bs' ∧
    bytes_concat bs' ++ bufio.buf b' = (bytes_concat bs ++ bufio.buf b) ++ p ∧
    (length bs' ≤ length bs + 2)%nat.
Proof.
  intros Herr Hsize Hholds Hne Hlimit Hfuel.
  destruct fuel as [|[|fuel]]; [lia|lia|].
  destruct b as [buf err]. simpl in Herr, Hsize. subst err.
  unfold bufio.Write.
  destruct (Nat.ltb_spec (size - String.length buf) (String.length p)) as [Hbig|Hfits].
  - (* the data does not fit into the buffer *)
    rewrite Write_loop_step by (try done; by apply Nat.ltb_lt).
    unfold bufio.Buffered at 1. cbn [bufio.buf bufio.err].
    destruct (Nat.eqb_spec (String.length buf) 0) as [H0|H0].
    + (* empty buffer: the data is written directly *)
      apply length_zero_empty in H0. subst buf.
      destruct (wr_Write_appends u bs p Hholds ltac:(lia)) as (u1 & Hw & Hholds1).
      rewrite Hw. rewrite (drop_bytes_all _ p) by done.
      rewrite Write_loop_done
        by (apply andb_false_iff; left; apply Nat.ltb_ge; simpl; lia).
      cbn [bufio.err bufio.buf]. unfold bufio.Available. cbn [bufio.buf String.length].
      rewrite Nat.min_0_r. cbn [take_bytes].
      exists {| bufio.buf := ""; bufio.err := None |}, u1, (bs ++ [p])%list.
      split; [do 3 f_equal; lia|]. split; [done|]. split; [simpl; lia|].
      split; [done|]. split; [|split].
      * apply Forall_app. split; [done|]. constructor; [|done].
        intros ->. simpl in Hbig. lia.
      * rewrite bytes_concat_app. simpl. by rewrite !append_nil_r.
      * rewrite length_app. simpl. lia.
    + (* the buffer is filled and flushed *)
      unfold bufio.Available at 1 2 3. cbn [bufio.buf]. cbv zeta.
      rewrite Nat.min_l by lia.
      set (n := (size - String.length buf)%nat) in *.
      set (b1 := {| bufio.buf := buf ++ take_bytes n p; bufio.err := None |}).
      destruct (Flush_ok b1 u bs eq_refl Hholds Hne ltac:(lia))
        as (u1 & bs1 & Hflush & Hholds1 & Hne1 & Hcat1 & Hlen1).
      rewrite Hflush. unfold bufio.NewWriterSize.
      assert (Hrest : String.length (drop_bytes n p) = (String.length p - n)%nat)
        by apply length_drop_bytes.
      destruct (Nat.ltb_spec (size - 0) (String.length (drop_bytes n p))) as [Hbig2|Hfits2].
      * (* what is left is larger than the buffer: it is written directly *)
        rewrite Write_loop_step by (try done; by apply Nat.ltb_lt).
        unfold bufio.Buffered. cbn [bufio.buf bufio.err String.length Nat.eqb].
        destruct (wr_Write_appends u1 bs1 (drop_bytes n p) Hholds1 ltac:(lia))
          as (u2 & Hw & Hholds2).
        rewrite Hw. rewrite (drop_bytes_all _ (drop_bytes n p)) by done.
        rewrite Write_loop_done
          by (apply andb_false_iff; left; apply Nat.ltb_ge; simpl; lia).
        cbn [bufio.err bufio.buf]. unfold bufio.Available. cbn [bufio.buf String.length].
        rewrite Nat.min_0_r. cbn [take_bytes].
        exists {| bufio.buf := ""; bufio.err := None |}, u2, (bs1 ++ [drop_bytes n p])%list.
        split; [do 3 f_equal; lia|]. split; [done|]. split; [simpl; lia|].
        split; [done|]. split; [|split].
        -- apply Forall_app. split; [done|]. constructor; [|done].
           intros Hempty. rewrite Hempty in Hbig2. simpl in Hbig2. lia.
        -- rewrite bytes_concat_app, Hcat1. simpl. rewrite !append_nil_r.
           rewrite !append_assoc. by rewrite take_drop_bytes.
        -- rewrite length_app. simpl. lia.
      * (* what is left stays in the buffer *)
        rewrite Write_loop_done
          by (unfold bufio.Available; simpl; apply andb_false_iff; left;
              by apply Nat.ltb_ge).
        cbn [bufio.err bufio.buf]. unfold bufio.Available. cbn [bufio.buf String.length].
        rewrite Nat.min_r by lia. rewrite take_bytes_all by done.
        exists {| bufio.buf := "" ++ drop_bytes n p; bufio.err := None |}, u1, bs1.
        split; [do 3 f_equal; lia|]. split; [done|]. split; [simpl; lia|].
        split; [done|]. split; [done|]. split; [|lia].
        rewrite Hcat1. simpl. rewrite !append_assoc. by rewrite take_drop_bytes.
  - (* the data fits into the buffer *)
    rewrite Write_loop_done
      by (unfold bufio.Available; simpl; apply andb_false_iff; left;
          by apply Nat.ltb_ge).
    cbn [bufio.err bufio.buf]. unfold bufio.Available. cbn [bufio.buf].
    rewrite Nat.min_r by lia. rewrite take_bytes_all by done.
    exists {| bufio.buf := buf ++ p; bufio.err := None |}, u, bs.
    split; [done|]. split; [done|].
    split; [simpl; rewrite length_append; lia|].
    split; [done|]. split; [done|]. split; [|lia].
    simpl. by rewrite append_assoc.
Qed.
End BufioProperties.

(** ** localdb: the log of a run *)

Section LogProperties.
Import bolt localdb.
Context `{!Gob run run_fill, !Gob (gmap string float64) metrics_fill,
          !Gob (gmap string (list diviner.Value)) params_fill, !Gzip}.

(** [log_holds rb bs]: the bucket [rb] of a run holds the log blocks
    [bs], block [i] (from 0) compressed under the key of [i+1], and no
    key of a later block; the sequence of the nested bucket [logs] is
    the number of blocks. *)
Definition log_holds (rb : Bucket) (bs : list string) : Prop :=
  ¬ holds_value logsKey rb ∧
  sequence (sub logsKey rb) = N.of_nat (length bs) ∧
  (∀ i b, bs !! i = Some b →
          entries (sub logsKey rb) !! PutUint64 (N.of_nat (S i)) = Some (inl (deflate b))) ∧
  (∀ j, (N.of_nat (length bs) < j < 2 ^ 64)%N →
        entries (sub logsKey rb) !! PutUint64 j = None).

Definition logs_at (path : list string) (root : Bucket) (bs : list string) : Prop :=
  ∃ rb, at_path path root = Some rb ∧ log_holds rb bs.

Lemma log_holds_fresh rb : entries rb !! logsKey = None → log_holds rb [].
Proof.
  intros Hno. unfold log_holds, holds_value, sub. rewrite Hno. simpl.
  split; [by intros [v Hv]|]. split; [done|]. split; [done|]. done.
Qed.

Lemma runWriter_Write_appends (w : run) root bs p :
  logs_at (run_path w) root bs → (N.of_nat (length bs) < 2 ^ 64 - 2)%N →
  ∃ root', runWriter_Write w p root = (root', (String.length p, None)) ∧
           logs_at (run_path w) root' (bs ++ [p]).
Proof.
  intros (rb & Hrb & Hval & Hseq & Hblocks & Hfree) Hroom.
  assert (Hnext : next_sequence (sub logsKey rb) = N.of_nat (S (length bs))).
  { unfold next_sequence. rewrite Hseq, N.mod_small; lia. }
  destruct (append_record_at (run_path w) logsKey (deflate p) root rb
              Hrb ltac:(done) Hval) as (root' & Htx & Hrb').
  { rewrite Hnext. intros [c Hc]. rewrite Hfree in Hc; [done|lia]. }
  rewrite Hnext in Hrb'. exists root'. split.
  - unfold runWriter_Write, Update.
    rewrite (bind_congr _ _ _ _ (run_bucket_Some w logsKey root rb Hrb)).
    change (key (of_uint64 ?n)) with (PutUint64 n). by rewrite Htx.
  - eexists. split; [exact Hrb'|]. split; [|split; [|split]].
    + intros [v Hv]. by rewrite with_record_lookup in Hv.
    + rewrite sub_with_record, length_app. simpl. lia.
    + intros i b Hi. rewrite sub_with_record. cbn [entries].
      destruct (decide (i = length bs)) as [->|Hne].
      * rewrite lookup_insert_eq. rewrite lookup_app_r, Nat.sub_diag in Hi by done.
        by injection Hi as ->.
      * assert (Hlt : (i < length bs)%nat).
        { apply lookup_lt_Some in Hi. rewrite length_app in Hi. simpl in Hi. lia. }
        rewrite lookup_app_l in Hi by done.
        rewrite lookup_insert_ne; [by apply Hblocks|].
        intros Heq. apply PutUint64_inj in Heq; lia.
    + intros j Hj. rewrite length_app in Hj. simpl in Hj.
      rewrite sub_with_record. cbn [entries].
      rewrite lookup_insert_ne; [apply Hfree; lia|].
      intros Heq. apply PutUint64_inj in Heq; lia.
Qed.

(** *** Writing *)

Lemma run_Write_ok fuel r p root bs :
  bufio.err (wr r) = None → (String.length (bufio.buf (wr r)) ≤ wr_size)%nat →
  logs_at (run_path r) root bs → Forall (λ b, b ≠ "") bs →
  (N.of_nat (length bs) + 1 < 2 ^ 64 - 2)%N → (2 ≤ fuel)%nat →
  ∃ r' root' bs',
    run_Write fuel r p root = Some (r', root', String.length p, None) ∧
    run_path r' = run_path r ∧
    bufio.err (wr r') = None ∧ (String.length (bufio.buf (wr r')) ≤ wr_size)%nat ∧
    logs_at (run_path r) root' bs' ∧ Forall (λ b, b ≠ "") bs' ∧
    bytes_concat bs' ++ bufio.buf (wr r') = (bytes_concat bs ++ bufio.buf (wr r)) ++ p ∧
    (length bs' ≤ length bs + 2)%nat.
Proof.
  intros Herr Hsize Hlogs Hne Hroom Hfuel.
  destruct (Write_ok (runWriter_Write r) wr_size (logs_at (run_path r)) (2 ^ 64 - 2)%N
              (runWriter_Write_appends r) (wr r) root bs p fuel
              Herr Hsize Hlogs Hne Hroom Hfuel)
    as (w' & root' & bs' & Hw & Herr' & Hsize' & Hlogs' & Hne' & Hcat & Hlen).
  exists (with_wr r w'), root', bs'. unfold run_Write. rewrite Hw. done.
Qed.

Lemma run_Writes_ok fuel ws : ∀ r root bs,
  bufio.err (wr r) = None → (String.length (bufio.buf (wr r)) ≤ wr_size)%nat →
  logs_at (run_path r) root bs → Forall (λ b, b ≠ "") bs →
  (N.of_nat (length bs) + 2 * N.of_nat (length ws) + 1 < 2 ^ 64 - 2)%N →
  (2 ≤ fuel)%nat →
  ∃ r' root' bs',
    run_Writes fuel r ws root = Some (r', root', None) ∧
    run_path r' = run_path r ∧ bufio.err (wr r') = None ∧
    logs_at (run_path r) root' bs' ∧ Forall (λ b, b ≠ "") bs' ∧
    bytes_concat bs' ++ bufio.buf (wr r') =
      (bytes_concat bs ++ bufio.buf (wr r)) ++ bytes_concat ws ∧
    (N.of_nat (length bs') ≤ N.of_nat (length bs) + 2 * N.of_nat (length ws))%N.
Proof.
  induction ws as [|p ws IH]; intros r root bs Herr Hsize Hlogs Hne Hroom Hfuel.
  - exists r, root, bs. simpl. rewrite append_nil_r. repeat split; try done. lia.
  - cbn [length] in Hroom.
    destruct (run_Write_ok fuel r p root bs Herr Hsize Hlogs Hne ltac:(lia) Hfuel)
      as (r1 & root1 & bs1 & Hw & Hpath1 & Herr1 & Hsize1 & Hlogs1 & Hne1 & Hcat1 & Hlen1).
    rewrite <- Hpath1 in Hlogs1.
    destruct (IH r1 root1 bs1 Herr1 Hsize1 Hlogs1 Hne1 ltac:(lia) Hfuel)
      as (r' & root' & bs' & Hws & Hpath' & Herr' & Hlogs' & Hne' & Hcat' & Hlen').
    exists r', root', bs'. cbn [run_Writes]. rewrite Hw.
    split; [done|]. split; [by rewrite Hpath'|]. split; [done|].
    split; [by rewrite <- Hpath1|]. split; [done|]. split.
    + rewrite Hcat', Hcat1. simpl. by rewrite !append_assoc.
    + cbn [length]. lia.
Qed.

Lemma run_Flush_ok r root bs :
  bufio.err (wr r) = None → logs_at (run_path r) root bs → Forall (λ b, b ≠ "") bs →
  (N.of_nat (length bs) < 2 ^ 64 - 2)%N →
  ∃ root' bs',
    run_Flush r root = (with_wr r bufio.NewWriterSize, root', None) ∧
    logs_at (run_path r) root' bs' ∧ Forall (λ b, b ≠ "") bs' ∧
    bytes_concat bs' = bytes_concat bs ++ bufio.buf (wr r) ∧
    (length bs' ≤ length bs + 1)%nat.
Proof.
  intros Herr Hlogs Hne Hroom.
  destruct (Flush_ok (runWriter_Write r) (logs_at (run_path r)) (2 ^ 64 - 2)%N
              (runWriter_Write_appends r) (wr r) root bs Herr Hlogs Hne Hroom)
    as (root' & bs' & Hflush & Hlogs' & Hne' & Hcat & Hlen).
  exists root', bs'. unfold run_Flush. rewrite Hflush. done.
Qed.

(** *** Reading *)

Lemma Read_loop_nonempty fuel r root :
  rbuf r ≠ "" → Read_loop fuel r root = Some (r, None).
Proof.
  intros Hbuf. destruct (rbuf r) as [|c s] eqn:Hr; [done|].
  destruct fuel; simpl; by rewrite Hr.
Qed.

Lemma Read_loop_step fuel r root :
  rbuf r = "" →
  Read_loop (S fuel) r root =
    match View (Read_tx r) root with
    | inl e => Some (r, Some e)
    | inr (r', Some e) => Some (r', Some e)
    | inr (r', None) => Read_loop fuel r' root
    end.
Proof. intros Hbuf. cbn [Read_loop]. by rewrite Hbuf. Qed.

(** The transaction of [Read] on the block after [i] blocks. *)
Lemma Read_tx_block r root bs i b :
  logs_at (run_path (reader_run r)) root bs →
  (N.of_nat (length bs) + 1 < 2 ^ 64)%N →
  whence r = N.of_nat (S i) → bs !! i = Some b →
  View (Read_tx r) root =
    inr ({| reader_run := reader_run r; whence := N.of_nat (S (S i)); rbuf := b |}, None).
Proof.
  intros (rb & Hrb & Hval & Hseq & Hblocks & Hfree) Hroom Hwhence Hi.
  pose proof (Hblocks i b Hi) as Hblock.
  pose proof (lookup_lt_Some _ _ _ Hi) as Hlt.
  unfold View, Read_tx, bind. rewrite run_bucket_None, Hrb.
  rewrite (Bucket_at _ logsKey _ _ Hrb).
  pose proof (at_path_child _ logsKey _ _ Hrb) as Hchild.
  unfold sub in Hblock. destruct (entries rb !! logsKey) as [[v|lb]|] eqn:Hl.
  - exfalso. apply Hval. by exists v.
  - unfold Bucket.Get, bind. rewrite (read_at _ _ _ _ Hchild).
    change (key (of_uint64 ?n)) with (PutUint64 n). rewrite Hwhence, Hblock.
    unfold ret at 1. rewrite inflate_deflate. unfold ret.
    do 3 f_equal. rewrite N.mod_small; lia.
  - unfold empty_bucket in Hblock. cbn [entries] in Hblock.
    by rewrite lookup_empty in Hblock.
Qed.

Lemma Read_tx_end r root bs :
  logs_at (run_path (reader_run r)) root bs →
  (N.of_nat (length bs) + 1 < 2 ^ 64)%N →
  whence r = N.of_nat (S (length bs)) → rbuf r = "" →
  ∃ r', View (Read_tx r) root = inr (r', Some io_EOF).
Proof.
  intros (rb & Hrb & Hval & Hseq & Hblocks & Hfree) Hroom Hwhence Hbuf.
  pose proof (Hfree (N.of_nat (S (length bs))) ltac:(lia)) as Hnone.
  unfold View, Read_tx, bind. rewrite run_bucket_None, Hrb.
  rewrite (Bucket_at _ logsKey _ _ Hrb).
  pose proof (at_path_child _ logsKey _ _ Hrb) as Hchild.
  unfold sub in Hnone. destruct (entries rb !! logsKey) as [[v|lb]|] eqn:Hl.
  - exfalso. apply Hval. by exists v.
  - unfold Bucket.Get, bind. rewrite (read_at _ _ _ _ Hchild).
    change (key (of_uint64 ?n)) with (PutUint64 n). rewrite Hwhence, Hnone.
    eexists. reflexivity.
  - eexists. reflexivity.
Qed.

(** One call of [Read] with data in the buffer. *)
Lemma runReader_Read_buffered fuel r len_p root :
  rbuf r ≠ "" →
  runReader_Read fuel r len_p root =
    Some ({| reader_run := reader_run r; whence := whence r;
             rbuf := drop_bytes (len_p `min` String.length (rbuf r)) (rbuf r) |},
          take_bytes (len_p `min` String.length (rbuf r)) (rbuf r), None).
Proof. intros Hbuf. unfold runReader_Read. by rewrite Read_loop_nonempty. Qed.

Lemma length_nonempty (s : string) : s ≠ "" → (0 < String.length s)%nat.
Proof. destruct s; [done|]. simpl. lia. Qed.

(** Reading to the end from the middle of the log: [buf] is what is
    left of the current block, [i] blocks have been fetched. *)
Lemma ReadAll_from r0 root bs len_p :
  logs_at (run_path r0) root bs → Forall (λ b, b ≠ "") bs →
  (N.of_nat (length bs) + 1 < 2 ^ 64)%N → (0 < len_p)%nat →
  ∀ fuel i buf acc,
    (i ≤ length bs)%nat →
    (String.length (buf ++ bytes_concat (drop i bs)) < fuel)%nat →
    ReadAll fuel {| reader_run := r0; whence := N.of_nat (S i); rbuf := buf |}
      len_p root acc
    = Some (acc ++ buf ++ bytes_concat (drop i bs), None).
Proof.
  intros Hlogs Hne Hroom Hlen.
  assert (Hbuffered : ∀ fuel i buf acc,
    (∀ i' buf' acc',
        (i' ≤ length bs)%nat →
        (String.length (buf' ++ bytes_concat (drop i' bs)) < fuel)%nat →
        ReadAll fuel {| reader_run := r0; whence := N.of_nat (S i'); rbuf := buf' |}
          len_p root acc'
        = Some (acc' ++ buf' ++ bytes_concat (drop i' bs), None)) →
    buf ≠ "" → (i ≤ length bs)%nat →
    (String.length (buf ++ bytes_concat (drop i bs)) < S fuel)%nat →
    ∀ fuel0,
    match runReader_Read fuel0
            {| reader_run := r0; whence := N.of_nat (S i); rbuf := buf |} len_p root with
    | None => None
    | Some (r', data, Some e) =>
        Some (acc ++ data, if bool_decide (e = io_EOF) then None else Some e)
    | Some (r', data, None) => ReadAll fuel r' len_p root (acc ++ data)
    end = Some (acc ++ buf ++ bytes_concat (drop i bs), None)).
  { intros fuel i buf acc IH Hbuf Hi Hfuel fuel0.
    rewrite runReader_Read_buffered by done. cbn [rbuf whence reader_run].
    pose proof (length_nonempty buf Hbuf) as Hpos.
    set (n := (len_p `min` String.length buf)%nat).
    rewrite IH; [|done|].
    - by rewrite !append_assoc, <- (append_assoc (take_bytes n buf)), take_drop_bytes.
    - rewrite length_append in *. rewrite length_drop_bytes. lia. }
  induction fuel as [|fuel IH]; intros i buf acc Hi Hfuel; [lia|].
  cbn [ReadAll]. destruct (decide (buf = "")) as [->|Hbuf]; [|by apply Hbuffered].
  unfold runReader_Read at 1. rewrite Read_loop_step by done.
  destruct (decide (i = length bs)) as [->|Hlast].
  - destruct (Read_tx_end {| reader_run := r0; whence := N.of_nat (S (length bs)); rbuf := "" |}
                root bs Hlogs Hroom eq_refl eq_refl) as (r' & ->).
    rewrite drop_all. simpl. by rewrite !append_nil_r.
  - assert (Hlt : (i < length bs)%nat) by lia.
    destruct (lookup_lt_is_Some_2 bs i Hlt) as [b Hb].
    rewrite (Read_tx_block {| reader_run := r0; whence := N.of_nat (S i); rbuf := "" |}
               root bs i b Hlogs Hroom eq_refl Hb).
    cbn [reader_run].
    assert (Hnonempty : b ≠ "").
    { rewrite Forall_forall in Hne. apply Hne. by eapply list_elem_of_lookup_2. }
    rewrite (drop_S _ _ _ Hb) in Hfuel |- *.
    change ("" ++ bytes_concat (b :: drop (S i) bs))
      with (b ++ bytes_concat (drop (S i) bs)) in Hfuel |- *.
    pose proof (Hbuffered fuel (S i) b acc IH Hnonempty ltac:(lia) Hfuel fuel)
      as Hread.
    unfold runReader_Read in Hread. exact Hread.
Qed.

(** Writing, flushing and reading back, from a log that holds the
    blocks [bs] already. *)
Lemma Log_append_read_back (r : run) (root : Bucket) (bs ws : list string)
    (fuel len_p : nat) :
  logs_at (run_path r) root bs → Forall (λ b, b ≠ "") bs →
  wr r = bufio.NewWriterSize →
  (N.of_nat (length bs) + 2 * N.of_nat (length ws) + 4 < 2 ^ 64)%N →
  (2 ≤ fuel)%nat → (0 < len_p)%nat →
  ∃ r1 root1 root2 bs',
    run_Writes fuel r ws root = Some (r1, root1, None) ∧
    run_Flush r1 root1 = (with_wr r1 bufio.NewWriterSize, root2, None) ∧
    logs_at (run_path r) root2 bs' ∧
    bytes_concat bs' = bytes_concat bs ++ bytes_concat ws ∧
    ∀ fuel', (String.length (bytes_concat bs ++ bytes_concat ws) < fuel')%nat →
      ReadAll fuel' (run_Log (with_wr r1 bufio.NewWriterSize)) len_p root2 ""
      = Some (bytes_concat bs ++ bytes_concat ws, None).
Proof.
  intros Hlogs Hne Hwr Hroom Hfuel Hlen.
  assert (Herr : bufio.err (wr r) = None) by by rewrite Hwr.
  assert (Hsize : (String.length (bufio.buf (wr r)) ≤ wr_size)%nat)
    by (rewrite Hwr; simpl; lia).
  destruct (run_Writes_ok fuel ws r root bs Herr Hsize Hlogs Hne ltac:(lia) Hfuel) as
    (r1 & root1 & bs1 & Hws & Hpath1 & Herr1 & Hlogs1 & Hne1 & Hcat1 & Hlen1).
  rewrite <- Hpath1 in Hlogs1.
  destruct (run_Flush_ok r1 root1 bs1 Herr1 Hlogs1 Hne1 ltac:(lia))
    as (root2 & bs2 & Hflush & Hlogs2 & Hne2 & Hcat2 & Hlen2).
  assert (Hcat : bytes_concat bs2 = bytes_concat bs ++ bytes_concat ws).
  { rewrite Hcat2, Hcat1, Hwr. simpl. by rewrite append_nil_r. }
  exists r1, root1, root2, bs2. split; [done|]. split; [done|].
  split; [by rewrite <- Hpath1|]. split; [done|].
  intros fuel' Hfuel'.
  pose proof (ReadAll_from (with_wr r1 bufio.NewWriterSize) root2 bs2 len_p
                Hlogs2 Hne2 ltac:(lia) Hlen fuel' 0%nat "" "" ltac:(lia)) as Hread.
  rewrite drop_0 in Hread. simpl in Hread. rewrite Hcat in Hread.
  apply Hread. exact Hfuel'.
Qed.

(** C5: on a run whose log is still empty, the bytes written by any
    sequence of calls of [Write], followed by [Flush], are stored as
    gzip-compressed blocks under the keys 1, 2, ... in the order they
    were written, and reading [Log] to the end yields their
    concatenation. *)
Theorem Log_round_trip (r : run) (root rb : Bucket) (ws : list string)
    (fuel len_p : nat) :
  at_path (run_path r) root = Some rb → entries rb !! logsKey = None →
  wr r = bufio.NewWriterSize →
  (2 * N.of_nat (length ws) + 4 < 2 ^ 64)%N →
  (2 ≤ fuel)%nat → (0 < len_p)%nat →
  ∃ r1 root1 r2 root2 blocks,
    run_Writes fuel r ws root = Some (r1, root1, None) ∧
    run_Flush r1 root1 = (r2, root2, None) ∧
    logs_at (run_path r) root2 blocks ∧
    bytes_concat blocks = bytes_concat ws ∧
    ∀ fuel', (String.length (bytes_concat ws) < fuel')%nat →
      ReadAll fuel' (run_Log r2) len_p root2 "" = Some (bytes_concat ws, None).
Proof.
  intros Hrb Hno Hwr Hroom Hfuel Hlen.
  assert (Hlogs0 : logs_at (run_path r) root []).
  { exists rb. split; [done|]. by apply log_holds_fresh. }
  destruct (Log_append_read_back r root [] ws fuel len_p Hlogs0 ltac:(done) Hwr
              ltac:(simpl; lia) Hfuel Hlen) as
    (r1 & root1 & root2 & bs' & Hws & Hflush & Hlogs & Hcat & Hread).
  exists r1, root1, (with_wr r1 bufio.NewWriterSize), root2, bs'. done.
Qed.
End LogProperties.

Lemma Log_round_trip_witness :
  ∃ r1 root1 r2 root2 blocks,
    localdb.run_Writes 2 Example.run1 ["hello "; "world"] (localdb.db Example.db1)
      = Some (r1, root1, None) ∧
    localdb.run_Flush r1 root1 = (r2, root2, None) ∧
    logs_at (run_path Example.run1) root2 blocks ∧
    bytes_concat blocks = bytes_concat ["hello "; "world"] ∧
    ∀ fuel', (String.length (bytes_concat ["hello "; "world"]) < fuel')%nat →
      localdb.ReadAll fuel' (localdb.run_Log r2) 4 root2 ""
      = Some (bytes_concat ["hello "; "world"], None).
Proof.
  eapply (Log_round_trip Example.run1 (localdb.db Example.db1) _ ["hello "; "world"] 2 4).
  - vm_compute. reflexivity.
  - vm_compute. reflexivity.
  - reflexivity.
  - vm_compute. reflexivity.
  - lia.
  - lia.
Defined.

Example Log_hello_world :
  match localdb.run_Writes 2 Example.run1 ["hello "; "world"] (localdb.db Example.db1) with
  | Some (r1, root1, None) =>
      match localdb.run_Flush r1 root1 with
      | (r2, root2, None) => localdb.ReadAll 12 (localdb.run_Log r2) 4 root2 ""
      | _ => None
      end
  | _ => None
  end = Some ("hello world", None).
Proof. vm_compute. reflexivity. Qed.

(** * Further properties of the code *)

(** ** localdb: keys of sequence numbers *)

Lemma string_snoc_ind (P : string → Prop) :
  P "" → (∀ s c, P s → P (s ++ String.String c "")) → ∀ s, P s.
Proof.
  intros Hnil Hsnoc s. rewrite <- (string_of_list_ascii_of_string s).
  induction (list_ascii_of_string s) as [|c l IH] using rev_ind; [done|].
  replace (string_of_list_ascii (l ++ [c]))
    with (string_of_list_ascii l ++ String.String c "").
  - by apply Hsnoc.
  - clear IH. induction l as [|c' l IH]; simpl; [done|]. by rewrite IH.
Qed.

Lemma Uint64_snoc (s : string) (c : ascii) :
  Uint64 (s ++ String.String c "") = (Uint64 s * 256 + N_of_ascii c)%N.
Proof. unfold Uint64. by rewrite list_ascii_of_append, fold_left_app. Qed.

(** The bytes of a key are the digits of its number in base 256. *)
Lemma be_bytes_Uint64 (s : string) :
  (Uint64 s < 256 ^ N.of_nat (String.length s))%N ∧
  be_bytes (String.length s) (Uint64 s) = s.
Proof.
  induction s as [|s c [IHlt IHeq]] using string_snoc_ind; [done|].
  rewrite Uint64_snoc, length_append. simpl String.length.
  replace (String.length s + 1)%nat with (S (String.length s)) by lia.
  pose proof (N_ascii_bounded c) as Hc. split.
  - rewrite Nat2N.inj_succ, N.pow_succ_r'. lia.
  - cbn [be_bytes].
    replace ((Uint64 s * 256 + N_of_ascii c) / 256)%N with (Uint64 s).
    + replace ((Uint64 s * 256 + N_of_ascii c) `mod` 256)%N with (N_of_ascii c).
      * by rewrite IHeq, ascii_N_embedding.
      * rewrite N.add_comm, N.Div0.mod_add. by rewrite N.mod_small.
    + rewrite N.add_comm, N.div_add by done. rewrite N.div_small by done. done.
Qed.

(** X1: [key] and [seq] are inverse to each other between the [uint64]
    numbers and the keys of 8 bytes; [seq] panics on every other key. *)
Theorem seq_key_round_trip (n : N) (p : string) :
  ((n < 2 ^ 64)%N →
   String.length (localdb.key (localdb.of_uint64 n)) = 8%nat ∧
   localdb.seq (localdb.key (localdb.of_uint64 n)) = Some n) ∧
  (String.length p = 8%nat →
   ∃ m, localdb.seq p = Some m ∧ (m < 2 ^ 64)%N ∧ localdb.key (localdb.of_uint64 m) = p) ∧
  (String.length p ≠ 8%nat → localdb.seq p = None).
Proof.
  split; [|split].
  - intros Hn. split; [apply length_be_bytes|by apply seq_PutUint64].
  - intros Hlen. exists (Uint64 p). unfold localdb.seq. rewrite Hlen. simpl.
    destruct (be_bytes_Uint64 p) as [Hlt Heq]. rewrite Hlen in Hlt, Heq.
    split; [done|]. split; [exact Hlt|exact Heq].
  - intros Hlen. unfold localdb.seq. apply Nat.eqb_neq in Hlen. by rewrite Hlen.
Qed.

Lemma seq_key_round_trip_witness :
  (String.length (localdb.key (localdb.of_uint64 258)) = 8%nat ∧
   localdb.seq (localdb.key (localdb.of_uint64 258)) = Some 258%N) ∧
  (∃ m, localdb.seq "ABCDEFGH" = Some m ∧ (m < 2 ^ 64)%N ∧
        localdb.key (localdb.of_uint64 m) = "ABCDEFGH").
Proof.
  split.
  - apply (proj1 (seq_key_round_trip 258 "ABCDEFGH")). reflexivity.
  - apply (proj1 (proj2 (seq_key_round_trip 258 "ABCDEFGH"))). reflexivity.
Defined.

Lemma string_compare_snoc (s1 s2 : string) (c1 c2 : ascii) :
  String.length s1 = String.length s2 →
  String.compare (s1 ++ String.String c1 "") (s2 ++ String.String c2 "") =
    match String.compare s1 s2 with
    | Eq => Ascii.compare c1 c2
    | ne => ne
    end.
Proof.
  revert s2. induction s1 as [|a s1 IH]; intros [|b s2] Hlen; simpl in *; try done.
  - by destruct (Ascii.compare c1 c2).
  - destruct (Ascii.compare a b); try done. apply IH. lia.
Qed.

Lemma N_compare_base256 (n m : N) :
  (n ?= m)%N =
    match (n / 256 ?= m / 256)%N with
    | Eq => (n `mod` 256 ?= m `mod` 256)%N
    | ne => ne
    end.
Proof.
  pose proof (N.div_mod n 256 ltac:(lia)) as Hn.
  pose proof (N.div_mod m 256 ltac:(lia)) as Hm.
  pose proof (N.mod_lt n 256 ltac:(lia)) as Hnr.
  pose proof (N.mod_lt m 256 ltac:(lia)) as Hmr.
  revert Hn Hm Hnr Hmr.
  generalize (n / 256)%N (m / 256)%N (n `mod` 256)%N (m `mod` 256)%N.
  intros qn qm rn rm Hn Hm Hnr Hmr.
  destruct (N.compare_spec qn qm) as [Heq|Hlt|Hgt].
  - destruct (N.compare_spec rn rm) as [Heq'|Hlt'|Hgt'].
    + apply N.compare_eq_iff. lia.
    + apply N.compare_lt_iff. lia.
    + apply N.compare_gt_iff. lia.
  - apply N.compare_lt_iff. lia.
  - apply N.compare_gt_iff. lia.
Qed.

Lemma be_bytes_compare (len : nat) : ∀ n m,
  (n < 256 ^ N.of_nat len)%N → (m < 256 ^ N.of_nat len)%N →
  String.compare (be_bytes len n) (be_bytes len m) = (n ?= m)%N.
Proof.
  induction len as [|len IH]; intros n m Hn Hm.
  - simpl in *. symmetry. apply N.compare_eq_iff. lia.
  - cbn [be_bytes]. rewrite string_compare_snoc by by rewrite !length_be_bytes.
    rewrite Nat2N.inj_succ, N.pow_succ_r' in Hn, Hm.
    rewrite IH by (apply N.Div0.div_lt_upper_bound; lia).
    rewrite (N_compare_base256 n m).
    destruct (n / 256 ?= m / 256)%N; try done.
    unfold Ascii.compare. rewrite !N_ascii_embedding; [done| |]; apply N.mod_lt; lia.
Qed.

(** X2: the bytewise order of the keys is the order of the numbers, so
    a bucket holds its blocks, records and runs in the order of their
    sequence numbers. *)
Theorem key_order (n m : N) :
  (n < 2 ^ 64)%N → (m < 2 ^ 64)%N →
  String.compare (localdb.key (localdb.of_uint64 n)) (localdb.key (localdb.of_uint64 m))
  = (n ?= m)%N ∧
  (string_le (localdb.key (localdb.of_uint64 n)) (localdb.key (localdb.of_uint64 m))
   ↔ (n ≤ m)%N).
Proof.
  intros Hn Hm.
  assert (Hcmp : String.compare (PutUint64 n) (PutUint64 m) = (n ?= m)%N)
    by by apply be_bytes_compare.
  split; [exact Hcmp|]. unfold string_le, String.leb. simpl localdb.key.
  rewrite Hcmp. unfold N.le. destruct (n ?= m)%N; split; done.
Qed.

Lemma key_order_witness :
  String.compare (localdb.key (localdb.of_uint64 255)) (localdb.key (localdb.of_uint64 256))
  = (255 ?= 256)%N ∧
  (string_le (localdb.key (localdb.of_uint64 255)) (localdb.key (localdb.of_uint64 256))
   ↔ (255 ≤ 256)%N).
Proof. apply (key_order 255 256); reflexivity. Defined.

(** ** value.go: the order and the kinds *)

Lemma string_ltb_trans a b c :
  String.ltb a b = true → String.ltb b c = true → String.ltb a c = true.
Proof.
  unfold String.ltb.
  destruct (String.compare a b) eqn:Hab; try done.
  destruct (String.compare b c) eqn:Hbc; try done.
  by rewrite (string_compare_lt_trans _ _ _ Hab Hbc).
Qed.

Lemma SFltb_trans a b c : SFltb a b = true → SFltb b c = true → SFltb a c = true.
Proof.
  unfold SFltb.
  destruct a as [sa|sa| |sa ma ea], b as [sb|sb| |sb mb eb], c as [sc|sc| |sc mc ec];
    simpl; try done;
    try (by destruct sa); try (by destruct sb); try (by destruct sc);
    try (by destruct sa, sb); try (by destruct sb, sc); try (by destruct sa, sc);
    try (by destruct sa, sb, sc).
  destruct sa, sb, sc; try done;
    change (Pos.compare_cont Eq ma mb) with (ma ?= mb)%positive;
    change (Pos.compare_cont Eq mb mc) with (mb ?= mc)%positive;
    change (Pos.compare_cont Eq ma mc) with (ma ?= mc)%positive;
    destruct (Z.compare_spec ea eb), (Z.compare_spec eb ec), (Z.compare_spec ea ec);
    try done; try lia; subst;
    destruct (Pos.compare_spec ma mb), (Pos.compare_spec mb mc), (Pos.compare_spec ma mc);
    try done; try lia.
Qed.

(** X3: [Less] is transitive on the values of one kind, reals
    included. *)
Theorem Less_transitive (a b c : diviner.Value) :
  diviner.Value_Less a b = Some true → diviner.Value_Less b c = Some true →
  diviner.Value_Less a c = Some true.
Proof.
  destruct a as [x|x|x], b as [y|y|y], c as [z|z|z]; simpl; try done;
    intros [= Hab] [= Hbc]; f_equal.
  - apply Z.ltb_lt in Hab, Hbc. apply Z.ltb_lt. lia.
  - by eapply SFltb_trans.
  - by eapply string_ltb_trans.
Qed.

Lemma Less_transitive_witness :
  diviner.Value_Less (diviner.Float (S754_infinity true)) (diviner.Float (S754_finite false 3 0))
  = Some true.
Proof.
  apply (Less_transitive (diviner.Float (S754_infinity true))
           (diviner.Float (S754_zero false)) (diviner.Float (S754_finite false 3 0)));
    reflexivity.
Defined.

(** X4: which methods of a value panic is decided by its kind:
    [Less] returns exactly when both values have the same kind, and
    [Int], [Float] and [Str] return exactly on the values of kind
    [Integer], [Real] and [Str]. *)
Theorem methods_defined_by_kind (v w : diviner.Value) :
  (is_Some (diviner.Value_Less v w) ↔ diviner.Value_Kind v = diviner.Value_Kind w) ∧
  (is_Some (diviner.Value_Int v) ↔ diviner.Value_Kind v = diviner.Integer) ∧
  (is_Some (diviner.Value_Float v) ↔ diviner.Value_Kind v = diviner.Real) ∧
  (is_Some (diviner.Value_Str v) ↔ diviner.Value_Kind v = diviner.Str).
Proof.
  destruct v, w; simpl; repeat split; intros H; try done; try (by destruct H); eauto.
Qed.

(** ** localdb: the helpers [bucket], [put] and [get] *)

Section HelperProperties.
Import bolt localdb.
Context {T : Type} {fill : T → T → T} `{!Gob T fill}.

(** X5: [bucket] returns the bucket at the end of the path when every
    key on it names a nested bucket, and [nil] otherwise; it never
    changes the database. *)
Theorem bucket_follows_path (bkt : list string) (key0 : string) (keys : list string)
    (root b : Bucket) :
  at_path bkt root = Some b →
  bucket bkt key0 keys root =
    inr (match at_path (key0 :: keys) b with
         | Some _ => Some (bkt ++ key0 :: keys)%list
         | None => None
         end, root).
Proof.
  intros Hb. unfold bucket. rewrite (bucket_loop_at _ _ _ _ Hb).
  by destruct (at_path (key0 :: keys) b).
Qed.

Lemma put_at (b : list string) (k : keyarg) (v : T) root bkt :
  at_path b root = Some bkt → key k ≠ "" → ¬ holds_bucket (key k) bkt →
  put b k v root =
    inr (tt, alter_path (λ bkt, MkBucket (sequence bkt)
                                  (<[key k := inl (gob_encode v)]> (entries bkt))) b root).
Proof.
  intros Hb Hkey Hfree. unfold put, Bucket.Put, bind.
  apply String.eqb_neq in Hkey. rewrite Hkey. rewrite (read_at _ _ _ _ Hb).
  destruct (entries bkt !! key k) as [[x|c]|] eqn:Hk.
  2:{ exfalso. apply Hfree. by exists c. }
  all: by rewrite (write_at _ _ _ _ Hb).
Qed.

(** X6: [get] after [put] under the same key decodes what was put, and
    so after any other [put] in the same bucket since; [get] under a key
    that holds no value returns false and leaves the destination as it
    was. *)
Theorem get_after_put (b : list string) (k k' : keyarg) (v v' dst : T) (root bkt : Bucket) :
  at_path b root = Some bkt → key k ≠ "" → ¬ holds_bucket (key k) bkt →
  ∃ root',
    put b k v root = inr (tt, root') ∧
    get b k dst root' = inr ((true, fill v dst), root') ∧
    (key k' ≠ "" → key k' ≠ key k → ¬ holds_bucket (key k') bkt →
     ∃ root'', put b k' v' root' = inr (tt, root'') ∧
               get b k dst root'' = inr ((true, fill v dst), root'')) ∧
    (¬ holds_value (key k') bkt → get b k' dst root = inr ((false, dst), root)).
Proof.
  intros Hb Hkey Hfree. eexists. split; [by apply (put_at b k v root bkt)|].
  set (root' := alter_path _ b root).
  assert (Hb' : at_path b root'
            = Some (MkBucket (sequence bkt) (<[key k := inl (gob_encode v)]> (entries bkt)))).
  { unfold root'. by rewrite at_path_alter_path, Hb. }
  split; [|split].
  - unfold get, Bucket.Get, bind. rewrite (read_at _ _ _ _ Hb'). cbn [entries].
    rewrite lookup_insert_eq. unfold ret at 1. by rewrite gob_decode_encode.
  - intros Hkey' Hne Hfree'. eexists. split.
    + apply (put_at b k' v' root' _ Hb' Hkey'). intros [c Hc]. cbn [entries] in Hc.
      rewrite lookup_insert_ne in Hc by done. apply Hfree'. by exists c.
    + unfold get, Bucket.Get, bind.
      erewrite read_at; [|by rewrite at_path_alter_path, Hb'].
      cbn [entries]. rewrite lookup_insert_ne by done. rewrite lookup_insert_eq.
      unfold ret at 1. by rewrite gob_decode_encode.
  - intros Hnone. unfold get, Bucket.Get, bind. rewrite (read_at _ _ _ _ Hb).
    destruct (entries bkt !! key k') as [[x|c]|] eqn:Hk; try done.
    exfalso. apply Hnone. by exists x.
Qed.
End HelperProperties.

Lemma bucket_follows_path_witness :
  localdb.bucket [] localdb.studiesKey ["test"; localdb.runsKey; PutUint64 1]
    (localdb.db Example.db1) =
  inr (Some [localdb.studiesKey; "test"; localdb.runsKey; PutUint64 1],
       localdb.db Example.db1) ∧
  localdb.bucket [] localdb.studiesKey ["test"; localdb.runsKey; PutUint64 2]
    (localdb.db Example.db1) = inr (None, localdb.db Example.db1).
Proof.
  split.
  - apply (bucket_follows_path [] localdb.studiesKey ["test"; localdb.runsKey; PutUint64 1]
             (localdb.db Example.db1) (localdb.db Example.db1)).
    reflexivity.
  - reflexivity.
Defined.

Lemma get_after_put_witness :
  ∃ root',
    localdb.put [localdb.studiesKey] (localdb.of_uint64 7) metrics1 (localdb.db Example.db1)
      = inr (tt, root') ∧
    localdb.get [localdb.studiesKey] (localdb.of_uint64 7) metrics2 root'
      = inr ((true, localdb.metrics_fill metrics1 metrics2), root') ∧
    (localdb.key (localdb.of_uint64 8) ≠ "" →
     localdb.key (localdb.of_uint64 8) ≠ localdb.key (localdb.of_uint64 7) →
     ¬ holds_bucket (localdb.key (localdb.of_uint64 8)) (sub localdb.studiesKey (localdb.db Example.db1)) →
     ∃ root'',
       localdb.put [localdb.studiesKey] (localdb.of_uint64 8) metrics2 root' = inr (tt, root'') ∧
       localdb.get [localdb.studiesKey] (localdb.of_uint64 7) metrics2 root''
         = inr ((true, localdb.metrics_fill metrics1 metrics2), root'')) ∧
    (¬ holds_value (localdb.key (localdb.of_uint64 8)) (sub localdb.studiesKey (localdb.db Example.db1)) →
     localdb.get [localdb.studiesKey] (localdb.of_uint64 8) metrics2 (localdb.db Example.db1)
       = inr ((false, metrics2), localdb.db Example.db1)).
Proof.
  apply (get_after_put [localdb.studiesKey] (localdb.of_uint64 7) (localdb.of_uint64 8)
           metrics1 metrics2 metrics2 (localdb.db Example.db1)
           (sub localdb.studiesKey (localdb.db Example.db1))).
  - reflexivity.
  - apply PutUint64_nonempty.
  - intros [c Hc]. vm_compute in Hc. discriminate.
Defined.

(** ** localdb: runs and studies that are not there *)

Section MissingProperties.
Import bolt localdb.
Context `{!Gob run run_fill, !Gob (gmap string float64) metrics_fill,
          !Gob (gmap string (list diviner.Value)) params_fill, !Gzip}.

Lemma run_bucket_missing r which root :
  at_path (run_path r) root = None → run_bucket r which root = inl ErrNoSuchRun.
Proof.
  intros Hno. unfold run_bucket, bucket, bind.
  rewrite (bucket_loop_at _ [] root root eq_refl). fold (run_path r). simpl app.
  by rewrite Hno.
Qed.

(** X7: on a run whose bucket is not in the database, [Update],
    [Metrics], the write of a log block and [Read] fail with
    [ErrNoSuchRun], and the database is left as it was. *)
Theorem missing_run_fails (r : run) (root : Bucket) (metrics : gmap string float64)
    (p : string) (fuel len_p : nat) :
  at_path (run_path r) root = None →
  run_Update r metrics root = (root, Some ErrNoSuchRun) ∧
  run_Metrics r root = (∅, Some ErrNoSuchRun) ∧
  runWriter_Write r p root = (root, (0%nat, Some ErrNoSuchRun)) ∧
  runReader_Read (S fuel) (run_Log r) len_p root = Some (run_Log r, "", Some ErrNoSuchRun).
Proof.
  intros Hno. split; [|split; [|split]].
  - unfold run_Update, Update, bind. by rewrite (run_bucket_missing _ _ _ Hno).
  - unfold run_Metrics, View, bind. by rewrite (run_bucket_missing _ _ _ Hno).
  - unfold runWriter_Write, Update, bind. by rewrite (run_bucket_missing _ _ _ Hno).
  - unfold runReader_Read. rewrite Read_loop_step by done.
    unfold View, Read_tx, bind. by rewrite (run_bucket_missing _ _ _ Hno).
Qed.

(** X8: [DB.Run] on a well-formed ID under which no header is stored
    returns [ErrNoSuchRun], together with the handle it built for the
    ID. *)
Theorem Run_no_such_run (d : DB) (name : string) (sq : N) :
  name ≠ "" → "/"%char ∉ list_ascii_of_string name → (sq < 2 ^ 64)%N →
  (∀ rb, at_path [studiesKey; name; runsKey; PutUint64 sq] (db d) = Some rb →
         ¬ holds_value metaKey rb) →
  DB_Run d (name ++ "/" ++ FormatUint sq) =
    (Some (run_init (new_run sq name ∅)), Some ErrNoSuchRun).
Proof.
  intros Hname Hslash Hsq Hmeta. unfold DB_Run, SplitN2.
  change ("/" ++ FormatUint sq) with (String.String "/"%char (FormatUint sq)).
  rewrite (cut_append _ _ _ Hslash). apply String.eqb_neq in Hname. rewrite Hname.
  rewrite (ParseUint_FormatUint _ Hsq). unfold View, run_unmarshal, bind.
  rewrite run_bucket_None.
  change (run_path (run_init (new_run sq name ∅)))
    with [studiesKey; name; runsKey; PutUint64 sq].
  destruct (at_path [studiesKey; name; runsKey; PutUint64 sq] (db d)) as [rb|] eqn:Hrb;
    [|done].
  unfold get, Bucket.Get, bind. rewrite (read_at _ _ _ _ Hrb).
  change (key (of_bytes metaKey)) with metaKey.
  destruct (entries rb !! metaKey) as [[v|c]|] eqn:Hk; try done.
  exfalso. apply (Hmeta rb eq_refl). by exists v.
Qed.

(** X9: [DB.Runs] on a study that has no bucket in the database returns
    [ErrNoSuchStudy]; on a study whose bucket has no runs yet it returns
    no run and no error. *)
Theorem Runs_without_runs (d : DB) (study : diviner.Study) (states : N) :
  (at_path [studiesKey; diviner.Name study] (db d) = None →
   DB_Runs d study states = ([], Some ErrNoSuchStudy)) ∧
  (∀ sb, at_path [studiesKey; diviner.Name study] (db d) = Some sb →
         ¬ holds_bucket runsKey sb →
         DB_Runs d study states = ([], None)).
Proof.
  split.
  - intros Hno. unfold DB_Runs, View, bind, bucket.
    rewrite (bucket_loop_at _ [] (db d) (db d) eq_refl).
    by rewrite Hno.
  - intros sb Hsb Hruns. unfold DB_Runs, View, bind, bucket.
    rewrite (bucket_loop_at _ [] (db d) (db d) eq_refl).
    rewrite Hsb. simpl app. rewrite (Bucket_at _ runsKey _ _ Hsb).
    destruct (entries sb !! runsKey) as [[v|c]|] eqn:Hk; try done.
    exfalso. apply Hruns. by exists c.
Qed.
End MissingProperties.

Lemma missing_run_fails_witness :
  localdb.run_Update (localdb.new_run 2 "test" ∅) metrics1 (localdb.db Example.db1)
    = (localdb.db Example.db1, Some ErrNoSuchRun) ∧
  localdb.run_Metrics (localdb.new_run 2 "test" ∅) (localdb.db Example.db1)
    = (∅, Some ErrNoSuchRun) ∧
  localdb.runWriter_Write (localdb.new_run 2 "test" ∅) "log" (localdb.db Example.db1)
    = (localdb.db Example.db1, (0%nat, Some ErrNoSuchRun)) ∧
  localdb.runReader_Read 1 (localdb.run_Log (localdb.new_run 2 "test" ∅)) 4
    (localdb.db Example.db1)
    = Some (localdb.run_Log (localdb.new_run 2 "test" ∅), "", Some ErrNoSuchRun).
Proof.
  apply (missing_run_fails (localdb.new_run 2 "test" ∅) (localdb.db Example.db1)
           metrics1 "log" 0 4).
  reflexivity.
Defined.

Lemma Run_no_such_run_witness :
  localdb.DB_Run Example.db1 ("test" ++ "/" ++ FormatUint 2) =
    (Some (localdb.run_init (localdb.new_run 2 "test" ∅)), Some ErrNoSuchRun).
Proof.
  apply (Run_no_such_run Example.db1 "test" 2).
  - done.
  - vm_compute. intros Hin. by repeat (apply elem_of_cons in Hin as [?|Hin]; [done|]);
      apply elem_of_nil in Hin.
  - done.
  - intros rb Hrb. vm_compute in Hrb. discriminate.
Defined.

Lemma Runs_without_runs_witness :
  localdb.DB_Runs Example.db1 {| diviner.Name := "other"; diviner.StudyParams := ∅ |}
    diviner.Pending = ([], Some ErrNoSuchStudy).
Proof.
  apply (proj1 (Runs_without_runs Example.db1
                  {| diviner.Name := "other"; diviner.StudyParams := ∅ |} diviner.Pending)).
  reflexivity.
Defined.

(** ** localdb: buffering and errors of the log *)

Section LogBehaviour.
Import bolt localdb.
Context `{!Gob run run_fill, !Gob (gmap string float64) metrics_fill,
          !Gob (gmap string (list diviner.Value)) params_fill, !Gzip}.

Lemma Read_loop_Some fuel : ∀ r root r',
  Read_loop fuel r root = Some (r', None) → rbuf r' ≠ "".
Proof.
  induction fuel as [|fuel IH]; intros r root r'.
  - simpl. destruct (rbuf r) as [|c s] eqn:Hbuf; simpl; [done|].
    intros [= <-]. by rewrite Hbuf.
  - destruct (rbuf r) as [|c s] eqn:Hbuf.
    + rewrite Read_loop_step by done.
      destruct (View (Read_tx r) root) as [e|[r1 [e|]]]; try done. apply IH.
    + rewrite Read_loop_nonempty by by rewrite Hbuf.
      intros [= <-]. by rewrite Hbuf.
Qed.

(** X10: [Read] keeps the contract of a reader: whenever it returns, it
    has copied at most [len(p)] bytes; without an error it has copied at
    least one byte (for a [p] that is not empty), and with an error it
    has copied none. *)
Theorem Read_contract (fuel : nat) (r r' : runReader) (len_p : nat) (root : Bucket)
    (data : string) (e : option error) :
  (0 < len_p)%nat →
  runReader_Read fuel r len_p root = Some (r', data, e) →
  (String.length data ≤ len_p)%nat ∧
  (e = None → (0 < String.length data)%nat) ∧
  (e ≠ None → data = "").
Proof.
  intros Hlen. unfold runReader_Read.
  destruct (Read_loop fuel r root) as [[r1 [e1|]]|] eqn:Hloop; [| |done].
  - intros [= <- <- <-]. split; [simpl; lia|]. split; done.
  - intros [= <- <- <-]. apply Read_loop_Some in Hloop.
    apply length_nonempty in Hloop. rewrite length_take_bytes.
    split; [lia|]. split; [lia|done].
Qed.

(** X11: data that fits into what is left of the 4096 bytes of the
    buffer is only buffered: [Write] accepts it and the database is not
    touched, so the log shows it only after the buffer has been
    flushed. *)
Theorem Write_is_buffered (fuel : nat) (r : run) (p : string) (root : Bucket) :
  bufio.err (wr r) = None →
  (String.length (bufio.buf (wr r)) + String.length p ≤ wr_size)%nat →
  run_Write fuel r p root =
    Some (with_wr r {| bufio.buf := bufio.buf (wr r) ++ p; bufio.err := None |},
          root, String.length p, None).
Proof.
  intros Herr Hfits. unfold run_Write, bufio.Write.
  rewrite Write_loop_done
    by (apply andb_false_iff; left; apply Nat.ltb_ge; unfold bufio.Available; lia).
  rewrite Herr. unfold bufio.Available.
  rewrite Nat.min_r by lia. by rewrite take_bytes_all.
Qed.

(** X12: the error of the buffered writer is sticky. When the buffer
    cannot be flushed because the bucket of the run is missing, [Flush]
    returns [ErrNoSuchRun] and keeps the data; from then on every
    [Write] on the handle accepts no byte and every [Flush] writes
    nothing, whatever the database holds, and they return that error. *)
Theorem write_error_is_sticky (r : run) (root : Bucket) :
  (bufio.err (wr r) = None → bufio.buf (wr r) ≠ "" →
   at_path (run_path r) root = None →
   run_Flush r root =
     (with_wr r {| bufio.buf := bufio.buf (wr r); bufio.err := Some ErrNoSuchRun |},
      root, Some ErrNoSuchRun)) ∧
  (∀ e fuel p,
     bufio.err (wr r) = Some e →
     run_Write fuel r p root = Some (r, root, 0%nat, Some e) ∧
     run_Flush r root = (r, root, Some e)).
Proof.
  split.
  - intros Herr Hbuf Hno. unfold run_Flush, bufio.Flush. rewrite Herr.
    unfold bufio.Buffered.
    destruct (Nat.eqb_spec (String.length (bufio.buf (wr r))) 0) as [H0|H0].
    { by apply length_zero_empty in H0. }
    unfold runWriter_Write, Update, bind. by rewrite (run_bucket_missing _ _ _ Hno).
  - intros e fuel p Herr. split.
    + unfold run_Write, bufio.Write.
      rewrite Write_loop_done
        by (apply andb_false_iff; right; rewrite Herr; by apply bool_decide_eq_false_2).
      rewrite Herr. by destruct r.
    + unfold run_Flush, bufio.Flush. rewrite Herr. by destruct r.
Qed.
End LogBehaviour.

(** The database of [Example] with the log "hello world" of its run. *)
Definition logged : bolt.Bucket :=
  (localdb.run_Flush
     (localdb.with_wr Example.run1 {| bufio.buf := "hello world"; bufio.err := None |})
     (localdb.db Example.db1)).1.2.

Lemma Read_contract_witness :
  (String.length "hell" ≤ 4)%nat ∧
  (None = (None : option error) → (0 < String.length "hell")%nat) ∧
  (None ≠ (None : option error) → "hell" = "").
Proof.
  apply (Read_contract 1 (localdb.run_Log Example.run1)
           {| localdb.reader_run := Example.run1; localdb.whence := 2;
              localdb.rbuf := "o world" |}
           4 logged "hell" None).
  - lia.
  - reflexivity.
Defined.

Lemma Write_is_buffered_witness :
  localdb.run_Write 0 Example.run1 "hello" (localdb.db Example.db1) =
    Some (localdb.with_wr Example.run1 {| bufio.buf := "" ++ "hello"; bufio.err := None |},
          localdb.db Example.db1, 5%nat, None).
Proof.
  apply (Write_is_buffered 0 Example.run1 "hello" (localdb.db Example.db1)).
  - reflexivity.
  - unfold localdb.wr_size. simpl. lia.
Defined.

Lemma write_error_is_sticky_witness :
  localdb.run_Flush
    (localdb.with_wr (localdb.new_run 2 "test" ∅) {| bufio.buf := "log"; bufio.err := None |})
    (localdb.db Example.db1) =
  (localdb.with_wr (localdb.new_run 2 "test" ∅)
     {| bufio.buf := "log"; bufio.err := Some ErrNoSuchRun |},
   localdb.db Example.db1, Some ErrNoSuchRun).
Proof.
  apply (proj1 (write_error_is_sticky
                  (localdb.with_wr (localdb.new_run 2 "test" ∅)
                     {| bufio.buf := "log"; bufio.err := None |})
                  (localdb.db Example.db1))).
  - reflexivity.
  - done.
  - reflexivity.
Defined.

(** ** bolt: what a write leaves as it is *)

Section FrameProperties.
Import bolt.

(** Two paths part: they differ at a position that both have. *)
Fixpoint parted (p q : list string) : Prop :=
  match p, q with
  | a :: p', b :: q' => a ≠ b ∨ parted p' q'
  | _, _ => False
  end.

(** What the bucket at [p] holds under the key [k]: a value, a nested
    bucket or nothing; [None] when there is no bucket at [p]. *)
Definition holds (p : list string) (k : string) (root : Bucket)
    : option (option (string + Bucket)) :=
  (λ b, entries b !! k) <$> at_path p root.

(** [g] changes at most the sequence of a bucket and its entry [k]. *)
Definition only_entry (k : string) (g : Bucket → Bucket) : Prop :=
  ∀ b j, j ≠ k → entries (g b) !! j = entries b !! j.

(** The transaction went from [root] to [root'] and kept every entry
    off the path [q]. *)
Definition frame (q : list string) (root root' : Bucket) : Prop :=
  ∀ p k, parted (p ++ [k])%list q → holds p k root' = holds p k root.

(** What the transaction [m] returns satisfies [Q], and it keeps every
    entry off the path [q]. *)
Definition tx_frame {A} (q : list string) (m : Tx A) (Q : A → Prop) : Prop :=
  ∀ root a root', m root = inr (a, root') → Q a ∧ frame q root root'.

Lemma parted_nil_r (p : list string) : ¬ parted p [].
Proof. intros H. destruct p; exact H. Qed.

Lemma parted_app_r (p q t : list string) : parted p q → parted p (q ++ t)%list.
Proof.
  revert q. induction p as [|a p IH]; intros [|b q]; simpl; try done.
  intros [?|?]; [by left|right; by apply IH].
Qed.

Lemma parted_common (c : list string) (a b : string) (p q : list string) :
  a ≠ b → parted (c ++ a :: p)%list (c ++ b :: q)%list.
Proof. intros Hne. induction c as [|x c IH]; simpl; [by left|by right]. Qed.

Lemma holds_alter g (h : list string) (k' : string) :
  only_entry k' g → ∀ p k root,
  parted (p ++ [k])%list (h ++ [k'])%list →
  holds p k (alter_path g h root) = holds p k root.
Proof.
  intros Hg. induction h as [|b h IH]; intros p k root Hpart.
  - destruct p as [|a p]; simpl in Hpart.
    + destruct Hpart as [Hne|[]]. unfold holds. simpl. f_equal. by apply Hg.
    + destruct Hpart as [Hne|Hpart]; [|by apply parted_nil_r in Hpart].
      unfold holds. simpl. by rewrite (Hg root a Hne).
  - destruct p as [|a p]; simpl in Hpart.
    + destruct Hpart as [Hne|[]]. unfold holds. simpl.
      destruct (entries root !! b) as [[v|c]|]; try done.
      simpl. by rewrite lookup_insert_ne.
    + unfold holds. simpl. destruct (decide (a = b)) as [->|Hne].
      * destruct Hpart as [?|Hpart]; [done|].
        destruct (entries root !! b) as [[v|c]|] eqn:E; simpl; rewrite ?E; try done.
        rewrite lookup_insert_eq. apply (IH p k c Hpart).
      * destruct (entries root !! b) as [[v|c]|] eqn:E; simpl; try done.
        by rewrite lookup_insert_ne.
Qed.

Lemma holds_child (h : list string) (j k : string) (root : Bucket) :
  holds (h ++ [j])%list k root =
    match holds h j root with
    | Some (Some (inr c)) => Some (entries c !! k)
    | _ => None
    end.
Proof.
  unfold holds. rewrite at_path_app. destruct (at_path h root) as [b|]; simpl; [|done].
  by destruct (entries b !! j) as [[v|c]|].
Qed.

Lemma frame_refl (q : list string) root : frame q root root.
Proof. by intros p k _. Qed.

Lemma frame_trans (q : list string) root1 root2 root3 :
  frame q root1 root2 → frame q root2 root3 → frame q root1 root3.
Proof. intros H12 H23 p k Hp. by rewrite (H23 p k Hp), (H12 p k Hp). Qed.

Lemma frame_prefix (q t : list string) root root' :
  frame (q ++ t)%list root root' → frame q root root'.
Proof. intros H p k Hp. apply H. by apply parted_app_r. Qed.

Lemma tx_frame_ret {A} (q : list string) (a : A) (Q : A → Prop) :
  Q a → tx_frame q (ret a) Q.
Proof. intros Ha root a' root' [= <- <-]. split; [done|apply frame_refl]. Qed.

Lemma tx_frame_fail {A} (q : list string) e (Q : A → Prop) : tx_frame q (fail e) Q.
Proof. by intros root a root'. Qed.

Lemma tx_frame_bind {A B} (q : list string) (m : Tx A) (k : A → Tx B) Q R :
  tx_frame q m Q → (∀ a, Q a → tx_frame q (k a) R) → tx_frame q (bind m k) R.
Proof.
  intros Hm Hk root b root' Htx.
  apply bind_inr in Htx as (a & root1 & Ha & Hb).
  destruct (Hm _ _ _ Ha) as [HQ H1]. destruct (Hk a HQ _ _ _ Hb) as [HR H2].
  split; [done|by eapply frame_trans].
Qed.

Lemma tx_frame_prefix {A} (q t : list string) (m : Tx A) Q :
  tx_frame (q ++ t)%list m Q → tx_frame q m Q.
Proof.
  intros Hm root a root' Htx. destruct (Hm _ _ _ Htx) as [HQ H].
  split; [done|by eapply frame_prefix].
Qed.

Lemma tx_frame_read {A} (q h : list string) (f : Bucket → A) :
  tx_frame q (read h f) (λ _, True).
Proof.
  intros root a root'. unfold read. destruct (at_path h root); [|done].
  intros [= _ <-]. split; [done|apply frame_refl].
Qed.

Lemma tx_frame_write (h : list string) (k : string) g :
  only_entry k g → tx_frame (h ++ [k])%list (write h g) (λ _, True).
Proof.
  intros Hg root a root'. unfold write. destruct (at_path h root); [|done].
  intros [= _ <-]. split; [done|]. intros p j Hp. by apply (holds_alter g h k Hg).
Qed.

Lemma only_entry_insert (k : string) (x : Bucket → string + Bucket) sq :
  only_entry k (λ bkt, MkBucket (sq bkt) (<[k := x bkt]> (entries bkt))).
Proof. intros b j Hne. cbn [entries]. by rewrite lookup_insert_ne. Qed.

Lemma tx_frame_Bucket (q h : list string) (k : string) :
  tx_frame q (Bucket.Bucket h k) (λ o, ∀ h', o = Some h' → h' = child h k).
Proof.
  unfold Bucket.Bucket. eapply tx_frame_bind; [apply tx_frame_read|].
  intros [[v|c]|] _; apply tx_frame_ret; congruence.
Qed.

Lemma tx_frame_CreateBucket (h : list string) (k : string) :
  tx_frame (h ++ [k])%list (Bucket.CreateBucket h k) (λ h', h' = child h k).
Proof.
  unfold Bucket.CreateBucket. destruct (String.eqb k ""); [apply tx_frame_fail|].
  eapply tx_frame_bind; [apply tx_frame_read|].
  intros [[v|c]|] _; try apply tx_frame_fail.
  eapply tx_frame_bind; [apply tx_frame_write, only_entry_insert with (x := λ _, inr _)|].
  intros _ _. by apply tx_frame_ret.
Qed.

Lemma tx_frame_CreateBucketIfNotExists (h : list string) (k : string) :
  tx_frame (h ++ [k])%list (Bucket.CreateBucketIfNotExists h k) (λ h', h' = child h k).
Proof.
  intros root a root'. unfold Bucket.CreateBucketIfNotExists.
  pose proof (tx_frame_CreateBucket h k root) as Hc.
  destruct (Bucket.CreateBucket h k root) as [e|[a' root1]].
  - destruct e; try done. intros [= <- <-]. split; [done|apply frame_refl].
  - intros [= <- <-]. by apply Hc.
Qed.

Lemma tx_frame_NextSequence (h : list string) (k : string) :
  tx_frame (h ++ [k])%list (Bucket.NextSequence h) (λ _, True).
Proof.
  unfold Bucket.NextSequence. eapply tx_frame_bind; [|intros; apply tx_frame_read].
  apply tx_frame_write. by intros b j _.
Qed.

Lemma tx_frame_Put (h : list string) (k v : string) :
  tx_frame (h ++ [k])%list (Bucket.Put h k v) (λ _, True).
Proof.
  unfold Bucket.Put. destruct (String.eqb k ""); [apply tx_frame_fail|].
  eapply tx_frame_bind; [apply tx_frame_read|].
  intros [[x|c]|] _; try apply tx_frame_fail;
    apply tx_frame_write, only_entry_insert with (x := λ _, inl _).
Qed.

(** Create the bucket [name] of [h] if needed and append a record to
    it: nothing but the entry [name] of [h] changes. *)
Lemma tx_frame_append (h : list string) (name : string) (m : Tx (list string))
    (value : N → string) (k : N → string) :
  tx_frame (h ++ [name])%list m (λ c, c = child h name) →
  tx_frame (h ++ [name])%list
    (let* c := m in
     let* sq := Bucket.NextSequence c in
     Bucket.Put c (k sq) (value sq)) (λ _, True).
Proof.
  intros Hm. eapply tx_frame_bind; [exact Hm|]. intros c ->.
  eapply tx_frame_bind.
  - apply (tx_frame_prefix _ [""]), tx_frame_NextSequence.
  - intros sq _. apply (tx_frame_prefix _ [k sq]), tx_frame_Put.
Qed.
End FrameProperties.

Section BufioFrame.
(** What every [Write] of the underlying writer preserves, [Flush] and
    [Write] of the buffered writer preserve. *)
Context {U : Type} (wr_Write : bytes → U → U * (nat * option error)) (size : nat).
Variable R : U → U → Prop.
Hypothesis R_refl : ∀ u, R u u.
Hypothesis R_trans : ∀ u v w, R u v → R v w → R u w.
Hypothesis wr_R : ∀ p u, R u (wr_Write p u).1.

Lemma Flush_preserves (b : bufio.Writer) (u : U) : R u (bufio.Flush wr_Write b u).1.2.
Proof.
  unfold bufio.Flush. destruct (bufio.err b); [apply R_refl|].
  destruct (bufio.Buffered b =? 0)%nat; [apply R_refl|].
  pose proof (wr_R (bufio.buf b) u) as Hw.
  destruct (wr_Write (bufio.buf b) u) as [u' [n e]]. simpl in Hw.
  destruct e as [e|]; [done|]. by destruct (n <? bufio.Buffered b)%nat.
Qed.

Lemma Write_loop_preserves (fuel : nat) : ∀ b p nn u b' p' nn' u',
  bufio.Write_loop wr_Write size fuel b p nn u = Some (b', p', nn', u') → R u u'.
Proof.
  induction fuel as [|fuel IH]; intros b p nn u b' p' nn' u'; simpl.
  - destruct (_ && _); [done|]. intros [= _ _ _ <-]. apply R_refl.
  - destruct (_ && _); [|intros [= _ _ _ <-]; apply R_refl].
    destruct (bufio.Buffered b =? 0)%nat.
    + pose proof (wr_R p u) as Hw. destruct (wr_Write p u) as [u1 [n e]].
      intros Hloop. apply IH in Hloop. by eapply R_trans.
    + match goal with |- context [bufio.Flush wr_Write ?b1 u] =>
        pose proof (Flush_preserves b1 u) as Hf;
        destruct (bufio.Flush wr_Write b1 u) as [[b2 u1] e] end.
      intros Hloop. apply IH in Hloop. by eapply R_trans.
Qed.

Lemma Write_preserves (fuel : nat) b p u b' u' n e :
  bufio.Write wr_Write size fuel b p u = Some (b', u', n, e) → R u u'.
Proof.
  unfold bufio.Write.
  destruct (bufio.Write_loop wr_Write size fuel b p 0 u) as [[[[b1 p1] nn] u1]|] eqn:Hloop;
    [|done].
  apply Write_loop_preserves in Hloop.
  destruct (bufio.err b1); by intros [= _ <- _ _].
Qed.
End BufioFrame.

(** ** localdb: the methods of a run change their own part only *)

Section Isolation.
Import bolt localdb.
Context `{!Gob run run_fill, !Gob (gmap string float64) metrics_fill,
          !Gob (gmap string (list diviner.Value)) params_fill, !Gzip}.

(** The database after [Write] or [Flush] on the run [r]. *)
Inductive log_method (r : run) (root : Bucket) : Bucket → Prop :=
  | method_Write fuel p r' root' n e :
      run_Write fuel r p root = Some (r', root', n, e) → log_method r root root'
  | method_Flush : log_method r root (run_Flush r root).1.2.

(** The database after one of the methods of the run [r] that write to
    it. *)
Inductive run_method (r : run) (root : Bucket) : Bucket → Prop :=
  | method_Complete state : run_method r root (run_Complete r state root).1.2
  | method_Update metrics : run_method r root (run_Update r metrics root).1
  | method_log root' : log_method r root root' → run_method r root root'.

(** The three things the database holds for a run [r0], as the code
    reads them: the header ([run.unmarshal], for [DB.Run] and
    [DB.Runs]), the metrics and the log. *)
Definition same_header (r0 : run) (root root' : Bucket) : Prop :=
  View (run_unmarshal r0) root' = View (run_unmarshal r0) root.

Definition same_Metrics (r0 : run) (root root' : Bucket) : Prop :=
  run_Metrics r0 root' = run_Metrics r0 root.

Definition same_Log (r0 : run) (root root' : Bucket) : Prop :=
  ∀ fuel rd len_p, reader_run rd = r0 →
    runReader_Read fuel rd len_p root' = runReader_Read fuel rd len_p root.

Lemma run_paths_parted (r0 r : run) (k k' : string) :
  run_path r0 ≠ run_path r ∨ k ≠ k' →
  parted (run_path r0 ++ [k])%list (run_path r ++ [k'])%list.
Proof.
  intros Hne. unfold run_path in *. simpl.
  destruct (decide (Study r0 = Study r)) as [Hs|Hs]; [|right; by left].
  destruct (decide (run_seq r0 = run_seq r)) as [Hq|Hq]; [|do 3 right; by left].
  do 4 right. left. destruct Hne as [Hne|Hne]; [|done].
  exfalso. apply Hne. by rewrite Hs, Hq.
Qed.

Lemma tx_frame_run_bucket_None (q : list string) (r : run) :
  tx_frame q (run_bucket r None) (λ b, b = run_path r).
Proof.
  intros root a root'. rewrite run_bucket_None.
  destruct (at_path (run_path r) root); [|done].
  intros [= <- <-]. split; [done|apply frame_refl].
Qed.

Lemma tx_frame_run_bucket_Some (r : run) (which : string) :
  tx_frame (run_path r ++ [which])%list (run_bucket r (Some which))
    (λ b, b = child (run_path r) which).
Proof.
  intros root a root' Htx. destruct (at_path (run_path r) root) as [rb|] eqn:Hrb.
  - rewrite (run_bucket_Some _ _ _ _ Hrb) in Htx.
    by apply tx_frame_CreateBucketIfNotExists in Htx.
  - by rewrite (run_bucket_missing _ _ _ Hrb) in Htx.
Qed.

Lemma run_marshal_frame (r : run) :
  tx_frame (run_path r ++ [metaKey])%list (run_marshal r) (λ _, True).
Proof.
  unfold run_marshal. eapply tx_frame_bind; [apply tx_frame_run_bucket_None|].
  intros b ->. apply tx_frame_Put.
Qed.

Lemma run_Complete_frame (r : run) state root :
  frame (run_path r ++ [metaKey])%list root (run_Complete r state root).1.2.
Proof.
  unfold run_Complete, Update.
  pose proof (run_marshal_frame (with_RunState r state) root) as Hm.
  destruct (run_marshal (with_RunState r state) root) as [e|[a root']]; simpl;
    [apply frame_refl|].
  by apply (Hm a root').
Qed.

Lemma run_Update_frame (r : run) metrics root :
  frame (run_path r ++ [metricsKey])%list root (run_Update r metrics root).1.
Proof.
  unfold run_Update, Update.
  pose proof (tx_frame_append (run_path r) metricsKey (run_bucket r (Some metricsKey))
                (λ _, gob_encode metrics) (λ sq, key (of_uint64 sq))
                (tx_frame_run_bucket_Some r metricsKey) root) as Hm.
  unfold put.
  destruct (bind _ _ root) as [e|[a root']]; simpl; [apply frame_refl|].
  by apply (Hm a root').
Qed.

Lemma runWriter_Write_frame (r : run) p root :
  frame (run_path r ++ [logsKey])%list root (runWriter_Write r p root).1.
Proof.
  unfold runWriter_Write, Update.
  pose proof (tx_frame_append (run_path r) logsKey (run_bucket r (Some logsKey))
                (λ _, deflate p) (λ sq, key (of_uint64 sq))
                (tx_frame_run_bucket_Some r logsKey) root) as Hm.
  cbv zeta.
  destruct (bind _ _ root) as [e|[a root']]; simpl; [apply frame_refl|].
  by apply (Hm a root').
Qed.

Lemma log_method_frame (r : run) root root' :
  log_method r root root' → frame (run_path r ++ [logsKey])%list root root'.
Proof.
  intros [fuel p r' root1 n e Hw|].
  - unfold run_Write in Hw.
    destruct (bufio.Write _ _ _ _ _ _) as [[[[w root2] n'] e']|] eqn:Hb; [|done].
    injection Hw as _ <- _ _.
    eapply (Write_preserves (runWriter_Write r) wr_size
              (frame (run_path r ++ [logsKey])%list)); [..|exact Hb].
    + apply frame_refl.
    + apply frame_trans.
    + intros; apply runWriter_Write_frame.
  - unfold run_Flush.
    pose proof (Flush_preserves (runWriter_Write r)
                  (frame (run_path r ++ [logsKey])%list)
                  (frame_refl _)
                  (λ p u, runWriter_Write_frame r p u) (wr r) root) as Hf.
    by destruct (bufio.Flush _ _ _) as [[w root1] e].
Qed.

(** What the code reads of a run depends on one entry of its bucket. *)
Lemma header_view (r0 : run) root root' :
  holds (run_path r0) metaKey root' = holds (run_path r0) metaKey root →
  same_header r0 root root'.
Proof.
  unfold holds, same_header, View, run_unmarshal, bind. rewrite !run_bucket_None.
  destruct (at_path (run_path r0) root') as [b'|] eqn:Hb',
           (at_path (run_path r0) root) as [b|] eqn:Hb; simpl; try done.
  intros [= Heq]. unfold get, Bucket.Get, bind.
  rewrite (read_at _ _ _ _ Hb), (read_at _ _ _ _ Hb').
  change (key (of_bytes metaKey)) with metaKey. rewrite Heq.
  destruct (entries b !! metaKey) as [[v|c]|]; try done.
  unfold ret, fail. by destruct (gob_decode v r0).
Qed.

Lemma Metrics_view (r0 : run) root root' :
  holds (run_path r0) metricsKey root' = holds (run_path r0) metricsKey root →
  same_Metrics r0 root root'.
Proof.
  unfold holds, same_Metrics, run_Metrics, View, bind. rewrite !run_bucket_None.
  destruct (at_path (run_path r0) root') as [b'|] eqn:Hb',
           (at_path (run_path r0) root) as [b|] eqn:Hb; simpl; try done.
  intros [= Heq].
  rewrite (Bucket_at _ metricsKey _ _ Hb), (Bucket_at _ metricsKey _ _ Hb').
  pose proof (at_path_child _ metricsKey _ _ Hb) as Hc.
  pose proof (at_path_child _ metricsKey _ _ Hb') as Hc'.
  rewrite Heq in *.
  destruct (entries b !! metricsKey) as [[v|c]|]; try done.
  unfold Bucket.Sequence, get, Bucket.Get, bind.
  rewrite !(read_at _ _ _ _ Hc), !(read_at _ _ _ _ Hc').
  destruct (entries c !! key (of_uint64 (sequence c))) as [[v|c']|]; try done.
  unfold ret, fail. by destruct (gob_decode v ∅).
Qed.

Lemma Read_tx_view (rd : runReader) root root' :
  holds (run_path (reader_run rd)) logsKey root'
    = holds (run_path (reader_run rd)) logsKey root →
  View (Read_tx rd) root' = View (Read_tx rd) root.
Proof.
  unfold holds, View, Read_tx, bind. rewrite !run_bucket_None.
  destruct (at_path (run_path (reader_run rd)) root') as [b'|] eqn:Hb',
           (at_path (run_path (reader_run rd)) root) as [b|] eqn:Hb; simpl; try done.
  intros [= Heq].
  rewrite (Bucket_at _ logsKey _ _ Hb), (Bucket_at _ logsKey _ _ Hb').
  pose proof (at_path_child _ logsKey _ _ Hb) as Hc.
  pose proof (at_path_child _ logsKey _ _ Hb') as Hc'.
  rewrite Heq in *.
  destruct (entries b !! logsKey) as [[v|c]|]; try done.
  unfold Bucket.Get, bind.
  rewrite !(read_at _ _ _ _ Hc), !(read_at _ _ _ _ Hc').
  destruct (entries c !! _) as [[v|c']|]; try done.
  unfold ret, fail. by destruct (inflate v) as [buf [e|]].
Qed.

Lemma Read_tx_run (rd rd' : runReader) root e :
  View (Read_tx rd) root = inr (rd', e) → reader_run rd' = reader_run rd.
Proof.
  unfold View, Read_tx, bind. rewrite run_bucket_None.
  destruct (at_path (run_path (reader_run rd)) root) as [b|] eqn:Hb; [|done].
  rewrite (Bucket_at _ logsKey _ _ Hb).
  pose proof (at_path_child _ logsKey _ _ Hb) as Hc.
  destruct (entries b !! logsKey) as [[v|c]|]; try by intros [= <- _].
  unfold Bucket.Get, bind. rewrite (read_at _ _ _ _ Hc).
  destruct (entries c !! _) as [[v|c']|];
    try by intros [= <- _].
  unfold ret, fail. destruct (inflate v) as [buf [e'|]]; by intros [= <- _].
Qed.

Lemma Log_view (r0 : run) root root' :
  holds (run_path r0) logsKey root' = holds (run_path r0) logsKey root →
  same_Log r0 root root'.
Proof.
  intros Heq fuel rd len_p Hrd. unfold runReader_Read.
  assert (Hloop : Read_loop fuel rd root' = Read_loop fuel rd root); [|by rewrite Hloop].
  revert rd Hrd. induction fuel as [|fuel IH]; intros rd Hrd; simpl; [done|].
  destruct (String.length (rbuf rd) =? 0)%nat; [|done].
  rewrite (Read_tx_view rd root root') by by rewrite Hrd.
  destruct (View (Read_tx rd) root) as [e|[rd' [e|]]] eqn:Hv; try done.
  apply IH. by rewrite (Read_tx_run _ _ _ _ Hv).
Qed.

(** X13: each method of a run changes one part of what the database
    holds: [Complete] leaves the metrics and the log of every run as
    they were, [Update] the header and the log, and [Write] and [Flush]
    the header and the metrics; this also when the method fails. *)
Theorem methods_change_their_part (r r0 : run) (root : Bucket) :
  (∀ state, same_Metrics r0 root (run_Complete r state root).1.2 ∧
            same_Log r0 root (run_Complete r state root).1.2) ∧
  (∀ metrics, same_header r0 root (run_Update r metrics root).1 ∧
              same_Log r0 root (run_Update r metrics root).1) ∧
  (∀ root', log_method r root root' →
            same_header r0 root root' ∧ same_Metrics r0 root root').
Proof.
  split; [|split].
  - intros state. pose proof (run_Complete_frame r state root) as Hf.
    split; [apply Metrics_view|apply Log_view]; apply Hf, run_paths_parted; by right.
  - intros metrics. pose proof (run_Update_frame r metrics root) as Hf.
    split; [apply header_view|apply Log_view]; apply Hf, run_paths_parted; by right.
  - intros root' Hf%log_method_frame.
    split; [apply header_view|apply Metrics_view]; apply Hf, run_paths_parted; by right.
Qed.

(** X14: no method of a run changes what the database holds for
    another run: its header, its metrics and its log are read as
    before. *)
Theorem methods_change_their_run (r r0 : run) (root root' : Bucket) :
  run_method r root root' → run_path r0 ≠ run_path r →
  same_header r0 root root' ∧ same_Metrics r0 root root' ∧ same_Log r0 root root'.
Proof.
  intros Hm Hne.
  assert (Hf : frame (run_path r) root root').
  { destruct Hm as [state|metrics|root' Hlog].
    - apply (frame_prefix _ [metaKey]), run_Complete_frame.
    - apply (frame_prefix _ [metricsKey]), run_Update_frame.
    - by apply (frame_prefix _ [logsKey]), log_method_frame. }
  assert (Hp : ∀ k, parted (run_path r0 ++ [k])%list (run_path r)).
  { intros k. pose proof (run_paths_parted r0 r k k (or_introl Hne)) as Hp.
    unfold run_path in *. simpl in *. tauto. }
  split; [|split]; [apply header_view|apply Metrics_view|apply Log_view]; apply Hf, Hp.
Qed.
End Isolation.

(** The database of [Example] with a second run of the study. *)
Module Example3.
Import localdb Example.

Definition values2 : gmap string diviner.Value := {[ "param" := diviner.Int 1 ]}.

Definition run2 : run :=
  {| Seq := 2; Study := "test"; RunValues := values2; RunState := diviner.Pending;
     wr := bufio.NewWriterSize; status := "" |}.

Definition db2 : DB := (DB_New db1 study values2).1.

Lemma New_run2 : DB_New db1 study values2 = (db2, inr run2).
Proof. reflexivity. Qed.
End Example3.

Lemma methods_change_their_part_witness :
  same_header Example.run1 (localdb.db Example.db1) logged ∧
  same_Metrics Example.run1 (localdb.db Example.db1) logged.
Proof.
  apply (proj2 (proj2 (methods_change_their_part
                         (localdb.with_wr Example.run1
                            {| bufio.buf := "hello world"; bufio.err := None |})
                         Example.run1 (localdb.db Example.db1)))).
  apply method_Flush.
Defined.

Lemma methods_change_their_run_witness :
  same_header Example.run1 (localdb.db Example3.db2)
    (localdb.run_Complete Example3.run2 diviner.Failure (localdb.db Example3.db2)).1.2 ∧
  same_Metrics Example.run1 (localdb.db Example3.db2)
    (localdb.run_Complete Example3.run2 diviner.Failure (localdb.db Example3.db2)).1.2 ∧
  same_Log Example.run1 (localdb.db Example3.db2)
    (localdb.run_Complete Example3.run2 diviner.Failure (localdb.db Example3.db2)).1.2.
Proof.
  apply (methods_change_their_run Example3.run2 Example.run1).
  - apply method_Complete.
  - vm_compute. discriminate.
Defined.

(** ** localdb: the runs [DB.New] creates *)

Section NewProperties.
Import bolt localdb.
Context `{!Gob run run_fill, !Gob (gmap string float64) metrics_fill,
          !Gob (gmap string (list diviner.Value)) params_fill, !Gzip}.

(** The bucket of the runs of a study. *)
Definition runs_path (name : string) : list string := [studiesKey; name; runsKey].

(** The counter from which the runs of a study are numbered: the
    sequence of its [runs] bucket, 0 as long as there is none. *)
Definition runs_sequence (name : string) (root : Bucket) : N :=
  match at_path (runs_path name) root with
  | Some runs => sequence runs
  | None => 0
  end.

(** The transaction kept every entry of the buckets below [q]. *)
Definition keeps_below (q : list string) (root root' : Bucket) : Prop :=
  ∀ t k, t ≠ [] → holds (q ++ t)%list k root' = holds (q ++ t)%list k root.

Lemma keeps_below_refl q root : keeps_below q root root.
Proof. by intros t k _. Qed.

Lemma keeps_below_trans q root1 root2 root3 :
  keeps_below q root1 root2 → keeps_below q root2 root3 → keeps_below q root1 root3.
Proof. intros H12 H23 t k Ht. by rewrite (H23 t k Ht), (H12 t k Ht). Qed.

Lemma keeps_below_app q j root root' :
  keeps_below q root root' → keeps_below (q ++ [j])%list root root'.
Proof.
  intros Hq t k _. rewrite <- !(assoc_L (++)). by apply Hq.
Qed.

Lemma frame_keeps_below q j j' root root' :
  j ≠ j' → frame (q ++ [j'])%list root root' → keeps_below (q ++ [j])%list root root'.
Proof.
  intros Hne Hf t k _. apply Hf. rewrite <- !(assoc_L (++)). by apply parted_common.
Qed.

Lemma Bucket_inv (h : list string) (k : string) root o root' :
  Bucket.Bucket h k root = inr (o, root') →
  root' = root ∧
  ∃ b, at_path h root = Some b ∧
       o = match entries b !! k with
           | Some (inr _) => Some (child h k)
           | _ => None
           end.
Proof.
  unfold Bucket.Bucket, bind, read. destruct (at_path h root) as [b|]; [|done].
  destruct (entries b !! k) as [[v|c]|] eqn:Hk; intros [= <- <-];
    (split; [done|]); exists b; by rewrite Hk.
Qed.

Lemma CreateBucket_inv (h : list string) (j : string) root c root' :
  Bucket.CreateBucket h j root = inr (c, root') →
  c = child h j ∧ at_path (child h j) root = None ∧
  at_path (child h j) root' = Some empty_bucket ∧
  keeps_below (h ++ [j])%list root root'.
Proof.
  unfold Bucket.CreateBucket. destruct (String.eqb j ""); [done|].
  unfold bind, read, write. destruct (at_path h root) as [b|] eqn:Hb; [|done].
  destruct (entries b !! j) as [[v|c']|] eqn:Hj; try done.
  rewrite Hb. intros [= <- <-]. unfold child. split; [done|].
  rewrite !at_path_app, at_path_alter_path, Hb. simpl.
  rewrite Hj, lookup_insert_eq. split; [done|]. split; [done|].
  intros [|i t] k Ht; [done|]. unfold holds.
  rewrite <- !(assoc_L (++)), !at_path_app, at_path_alter_path, Hb. simpl.
  by rewrite Hj, lookup_insert_eq.
Qed.

Lemma CreateBucketIfNotExists_inv (h : list string) (j : string) root c root' :
  Bucket.CreateBucketIfNotExists h j root = inr (c, root') →
  c = child h j ∧
  (∃ b, at_path h root = Some b ∧ at_path (child h j) root' = Some (sub j b) ∧
        at_path h root' = Some (with_sub j b)) ∧
  keeps_below (h ++ [j])%list root root'.
Proof.
  unfold Bucket.CreateBucketIfNotExists.
  destruct (Bucket.CreateBucket h j root) as [e|[c' root1]] eqn:Hc.
  - destruct e; try done. intros [= <- <-]. split; [done|].
    split; [|apply keeps_below_refl].
    revert Hc. unfold Bucket.CreateBucket. destruct (String.eqb j ""); [done|].
    unfold bind, read, write. destruct (at_path h root) as [b|] eqn:Hb; [|done].
    destruct (entries b !! j) as [[v|c']|] eqn:Hj; try done.
    + intros _. exists b. split; [done|]. rewrite (at_path_child _ _ _ _ Hb).
      unfold sub, with_sub. by rewrite Hj.
    + by rewrite Hb.
  - intros [= <- <-]. pose proof Hc as (-> & Hno & Hnew & Hbelow)%CreateBucket_inv.
    split; [done|]. split; [|done].
    revert Hc. unfold Bucket.CreateBucket. destruct (String.eqb j ""); [done|].
    unfold bind, read, write. destruct (at_path h root) as [b|] eqn:Hb; [|done].
    destruct (entries b !! j) as [[v|c']|] eqn:Hj; try done.
    rewrite Hb. intros [= <-]. exists b. split; [done|].
    rewrite Hnew, at_path_alter_path, Hb. unfold sub, with_sub. by rewrite Hj.
Qed.

Lemma NextSequence_inv (h : list string) root sq root' :
  Bucket.NextSequence h root = inr (sq, root') →
  ∃ b, at_path h root = Some b ∧ sq = next_sequence b ∧
       at_path h root' = Some (MkBucket sq (entries b)).
Proof.
  unfold Bucket.NextSequence, bind, write, read.
  destruct (at_path h root) as [b|] eqn:Hb; [|done].
  rewrite at_path_alter_path, Hb. simpl. intros [= <- <-].
  exists b. by rewrite at_path_alter_path, Hb.
Qed.

Lemma Put_inv (h : list string) (k v : string) root u root' :
  Bucket.Put h k v root = inr (u, root') →
  ∃ b, at_path h root = Some b ∧
       root' = alter_path (λ bkt, MkBucket (sequence bkt) (<[k := inl v]> (entries bkt)))
                 h root.
Proof.
  unfold Bucket.Put. destruct (String.eqb k ""); [done|].
  unfold bind, read, write. destruct (at_path h root) as [b|] eqn:Hb; [|done].
  destruct (entries b !! k) as [[x|c]|]; try done;
    rewrite Hb; intros [= _ <-]; by exists b.
Qed.

Lemma sequence_alter_below g (h t : list string) root :
  t ≠ [] →
  sequence <$> at_path h (alter_path g (h ++ t)%list root) = sequence <$> at_path h root.
Proof.
  intros Ht. rewrite at_path_alter_below. destruct (at_path h root) as [b|]; [|done].
  simpl. destruct t as [|k t]; [done|]. simpl.
  by destruct (entries b !! k) as [[v|c]|].
Qed.

Lemma run_marshal_inv (r : run) root u root' :
  run_marshal r root = inr (u, root') →
  ∀ h t, run_path r = (h ++ t)%list → t ≠ [] →
         sequence <$> at_path h root' = sequence <$> at_path h root.
Proof.
  unfold run_marshal, bind. rewrite run_bucket_None.
  destruct (at_path (run_path r) root) as [rb|]; [|done].
  intros (b & _ & ->)%Put_inv h t -> Ht. by apply sequence_alter_below.
Qed.

(** What the transaction of [New] does when it succeeds: it takes the
    next number of the study and leaves it as the sequence of the runs;
    it keeps every entry outside the bucket of the study, and every
    entry of the other runs of the study. *)
Lemma New_tx_inv (study : diviner.Study) values root r root' :
  New_tx study values root = inr (r, root') →
  Seq r = ((runs_sequence (diviner.Name study) root + 1) `mod` 2 ^ 64)%N ∧
  runs_sequence (diviner.Name study) root' = Seq r ∧
  frame [studiesKey; diviner.Name study] root root' ∧
  ∀ q k, q ≠ run_seq r →
         holds (runs_path (diviner.Name study) ++ [q])%list k root'
         = holds (runs_path (diviner.Name study) ++ [q])%list k root.
Proof.
  unfold New_tx. set (name := diviner.Name study). intros Htx.
  apply bind_inr in Htx as (s0 & root1 & H1 & Htx).
  apply Bucket_inv in H1 as (-> & x0 & [= <-] & ->).
  apply bind_inr in Htx as (s1 & root2 & H2 & Htx).
  destruct (entries root !! studiesKey) as [[v|s]|] eqn:Hs; try done.
  injection H2 as <- <-.
  assert (Hsb : at_path [studiesKey] root = Some s) by (simpl; by rewrite Hs).
  apply bind_inr in Htx as (b0 & root3 & H3 & Htx).
  apply Bucket_inv in H3 as (-> & x1 & Hx1 & ->).
  change (child [] studiesKey) with [studiesKey] in *.
  rewrite Hsb in Hx1. injection Hx1 as <-.
  apply bind_inr in Htx as (b1 & root4 & H4 & Htx).
  assert (Hstudy : b1 = [studiesKey; name] ∧
            (∃ x4, at_path [studiesKey; name] root4 = Some x4 ∧
                   sequence (sub runsKey x4) = runs_sequence name root) ∧
            frame [studiesKey; name] root root4 ∧
            keeps_below (runs_path name) root root4).
  { destruct (entries s !! name) as [[v|st]|] eqn:Hst.
    - apply bind_inr in H4 as (s2 & root_a & H4a & H4).
      apply Bucket_inv in H4a as (-> & y & [= <-] & ->). rewrite Hs in H4.
      apply bind_inr in H4 as (s3 & root_b & H4b & H4). injection H4b as <- <-.
      apply bind_inr in H4 as (b & root_c & H4c & H4).
      revert H4c. unfold Bucket.CreateBucket. destruct (String.eqb name ""); [done|].
      unfold bind. by rewrite (read_at _ _ _ _ Hsb), Hst.
    - injection H4 as <- <-. split; [done|].
      split; [|split; [apply frame_refl|apply keeps_below_refl]].
      exists st. split; [simpl; by rewrite Hs, Hst|].
      unfold runs_sequence, runs_path, sub. simpl. rewrite Hs, Hst.
      by destruct (entries st !! runsKey) as [[v|c]|].
    - apply bind_inr in H4 as (s2 & root_a & H4a & H4).
      apply Bucket_inv in H4a as (-> & y & [= <-] & ->). rewrite Hs in H4.
      apply bind_inr in H4 as (s3 & root_b & H4b & H4). injection H4b as <- <-.
      apply bind_inr in H4 as (b & root_c & H4c & H4).
      pose proof (tx_frame_CreateBucket _ _ _ _ _ H4c) as [_ Fc].
      apply CreateBucket_inv in H4c as (-> & Hno & Hnew & Hbelow).
      apply bind_inr in H4 as (u & root_d & H4d & H4). injection H4 as <- <-.
      pose proof (tx_frame_Put _ _ _ _ _ _ H4d) as [_ Fd].
      apply Put_inv in H4d as (y & Hy & ->).
      change (child [studiesKey] name) with [studiesKey; name] in *.
      change (key (of_bytes metaKey)) with metaKey in *.
      rewrite Hnew in Hy. injection Hy as <-.
      split; [done|]. split; [|split].
      + eexists. split; [by rewrite at_path_alter_path, Hnew|].
        unfold runs_sequence, runs_path. simpl. by rewrite Hs, Hst.
      + eapply frame_trans; [exact Fc|]. apply (frame_prefix _ [metaKey]). exact Fd.
      + eapply keeps_below_trans.
        * apply (keeps_below_app [studiesKey; name] runsKey), Hbelow.
        * by apply (frame_keeps_below [studiesKey; name] runsKey metaKey). }
  destruct Hstudy as (-> & (x4 & Hx4 & Hseq4) & F4 & K4).
  apply bind_inr in Htx as (b2 & root5 & H5 & Htx).
  pose proof (tx_frame_CreateBucketIfNotExists _ _ _ _ _ H5) as [_ F5].
  apply CreateBucketIfNotExists_inv in H5 as (-> & (y & Hy & Hruns5 & _) & K5).
  rewrite Hx4 in Hy. injection Hy as <-.
  change (child [studiesKey; name] runsKey) with (runs_path name) in *.
  change ([studiesKey; name] ++ [runsKey])%list with (runs_path name) in *.
  apply bind_inr in Htx as (sq & root6 & H6 & Htx).
  pose proof (tx_frame_NextSequence _ (PutUint64 sq) _ _ _ H6) as [_ F6].
  pose proof H6 as (y & Hy & Hsq & Hruns6)%NextSequence_inv.
  rewrite Hruns5 in Hy. injection Hy as <-.
  apply bind_inr in Htx as (b3 & root7 & H7 & Htx).
  pose proof (tx_frame_CreateBucketIfNotExists _ _ _ _ _ H7) as [_ F7].
  apply CreateBucketIfNotExists_inv in H7 as (-> & (y & Hy & _ & Hruns7) & _).
  rewrite Hruns6 in Hy. injection Hy as <-.
  apply bind_inr in Htx as (u & root8 & H8 & Htx).
  pose proof (run_marshal_frame _ _ _ _ H8) as [_ F8].
  pose proof (run_marshal_inv _ _ _ _ H8 (runs_path name) [PutUint64 sq] eq_refl
                ltac:(done)) as Hseq8.
  injection Htx as <- <-. cbn [Seq run_init new_run run_seq].
  assert (F58 : frame (runs_path name ++ [PutUint64 sq])%list root5 root8).
  { eapply frame_trans; [exact F6|]. eapply frame_trans; [exact F7|].
    apply (frame_prefix _ [metaKey]). exact F8. }
  split; [|split; [|split]].
  - rewrite Hsq. unfold next_sequence. by rewrite Hseq4.
  - unfold runs_sequence. rewrite Hruns7 in Hseq8.
    destruct (at_path (runs_path name) root8) as [b8|]; [|done].
    injection Hseq8 as ->. unfold with_sub. cbn [entries sequence].
    by destruct (entries (sub runsKey x4) !! _) as [[v|c]|].
  - eapply frame_trans; [exact F4|]. eapply frame_trans.
    + apply (frame_prefix [studiesKey; name] [runsKey]). exact F5.
    + apply (frame_prefix [studiesKey; name] [runsKey; PutUint64 sq]). exact F58.
  - intros q k Hq. rewrite <- (K4 [q] k) by done. rewrite <- (K5 [q] k) by done.
    apply F58. unfold runs_path. simpl. do 3 right. by left.
Qed.

(** X15: [New] numbers the runs of a study: the run it returns has the
    number after the sequence of the study's [runs] bucket (wrapping
    around at 2^64) and leaves this number as the sequence. So the first
    run of a study that is not in the database has the number 1, and the
    run of the next [New] for the study has the next number. *)
Theorem New_numbers_the_runs (d d' : DB) (study : diviner.Study)
    (values : gmap string diviner.Value) (r : run) :
  DB_New d study values = (d', inr r) →
  Seq r = ((runs_sequence (diviner.Name study) (db d) + 1) `mod` 2 ^ 64)%N ∧
  runs_sequence (diviner.Name study) (db d') = Seq r ∧
  (at_path [studiesKey; diviner.Name study] (db d) = None → Seq r = 1%N) ∧
  (∀ values2 d'' r2, DB_New d' study values2 = (d'', inr r2) →
                     Seq r2 = ((Seq r + 1) `mod` 2 ^ 64)%N).
Proof.
  unfold DB_New, Update.
  destruct (New_tx study values (db d)) as [e|[x root']] eqn:Htx; [done|].
  intros [= <- <-]. apply New_tx_inv in Htx as (Hseq & Hseq' & _).
  split; [done|]. split; [done|]. split.
  - intros Hno. rewrite Hseq. unfold runs_sequence, runs_path.
    change [studiesKey; diviner.Name study; runsKey]
      with ([studiesKey; diviner.Name study] ++ [runsKey])%list.
    by rewrite at_path_app, Hno.
  - intros values2 d'' r2. cbn [db].
    destruct (New_tx study values2 root') as [e|[x2 root'']] eqn:Htx2; [done|].
    intros [= _ <-]. apply New_tx_inv in Htx2 as (Hseq2 & _).
    by rewrite Hseq2, Hseq'.
Qed.

(** X16: [New] changes nothing of the runs that are in the database: of
    every run but the one it returns, the header, the metrics and the
    log are read as before (of every run, when [New] fails). *)
Theorem New_keeps_the_other_runs (d d' : DB) (study : diviner.Study)
    (values : gmap string diviner.Value) (res : error + run) (r0 : run) :
  DB_New d study values = (d', res) →
  (∀ r, res = inr r → run_path r0 ≠ run_path r) →
  same_header r0 (db d) (db d') ∧ same_Metrics r0 (db d) (db d') ∧
  same_Log r0 (db d) (db d').
Proof.
  unfold DB_New, Update.
  destruct (New_tx study values (db d)) as [e|[r root']] eqn:Htx.
  { intros [= <- <-] _. cbn [db]. done. }
  intros [= <- <-] Hne. specialize (Hne r eq_refl). cbn [db].
  pose proof (New_tx_inr _ _ _ _ _ Htx) as (_ & Hname & _).
  apply New_tx_inv in Htx as (_ & _ & Hf & Hruns).
  assert (Hk : ∀ k, holds (run_path r0) k root' = holds (run_path r0) k (db d)).
  { intros k. destruct (decide (Study r0 = diviner.Name study)) as [Hs|Hs].
    - unfold run_path in *. rewrite Hs.
      apply (Hruns (run_seq r0) k). intros Hq. apply Hne. by rewrite Hs, Hname, Hq.
    - apply Hf. unfold run_path. simpl. right. by left. }
  split; [|split]; [apply header_view|apply Metrics_view|apply Log_view]; apply Hk.
Qed.
End NewProperties.

Lemma New_numbers_the_runs_witness :
  localdb.Seq Example.run1
    = ((runs_sequence (diviner.Name Example.study) (localdb.db Example.db0) + 1)
         `mod` 2 ^ 64)%N ∧
  runs_sequence (diviner.Name Example.study) (localdb.db Example.db1)
    = localdb.Seq Example.run1 ∧
  (bolt.at_path [localdb.studiesKey; diviner.Name Example.study] (localdb.db Example.db0)
     = None → localdb.Seq Example.run1 = 1%N) ∧
  (∀ values2 d'' r2,
     localdb.DB_New Example.db1 Example.study values2 = (d'', inr r2) →
     localdb.Seq r2 = ((localdb.Seq Example.run1 + 1) `mod` 2 ^ 64)%N).
Proof.
  apply (New_numbers_the_runs Example.db0 Example.db1 Example.study Example.values
           Example.run1).
  reflexivity.
Defined.

Lemma New_keeps_the_other_runs_witness :
  same_header Example.run1 (localdb.db Example.db1) (localdb.db Example3.db2) ∧
  same_Metrics Example.run1 (localdb.db Example.db1) (localdb.db Example3.db2) ∧
  same_Log Example.run1 (localdb.db Example.db1) (localdb.db Example3.db2).
Proof.
  apply (New_keeps_the_other_runs Example.db1 Example3.db2 Example.study Example3.values2
           (inr Example3.run2) Example.run1).
  - reflexivity.
  - intros r [= <-]. vm_compute. discriminate.
Defined.

(** ** localdb: opening a database *)

Section OpenProperties.
Import bolt localdb.
Context `{!Gob run run_fill, !Gob (gmap string float64) metrics_fill,
          !Gob (gmap string (list diviner.Value)) params_fill, !Gzip}.

Lemma Open_cases (file : Bucket) :
  Open file =
    match entries file !! studiesKey with
    | Some (inr _) => ({| db := file; live := ∅ |}, None)
    | Some (inl _) => ({| db := file; live := ∅ |}, Some ErrIncompatibleValue)
    | None =>
        ({| db := MkBucket (sequence file)
                    (<[studiesKey := inr empty_bucket]> (entries file));
            live := ∅ |}, None)
    end.
Proof.
  unfold Open, Update, Bucket.CreateBucketIfNotExists, Bucket.CreateBucket.
  change (String.eqb studiesKey "") with false. unfold bind, read, write. simpl.
  by destruct (entries file !! studiesKey) as [[v|c]|].
Qed.

Lemma bind_eq {A B} (m : Tx A) (k : A → Tx B) root a root' :
  m root = inr (a, root') → bind m k root = k a root'.
Proof. unfold bind. by intros ->. Qed.

Lemma bind_fails {A B} (m : Tx A) (k : A → Tx B) root e :
  m root = inl e → bind m k root = inl e.
Proof. unfold bind. by intros ->. Qed.

(** X17: [Open] creates the bucket of the studies in a file that has
    none and leaves a file that has it as it is, so opening what [Open]
    returned changes nothing; on a file that holds a value under this
    key it fails. The liveset of the database it returns is empty, so
    after a restart no query of [DB.Runs] returns a pending run. *)
Theorem Open_restarts (file : Bucket) :
  (holds_bucket studiesKey file → Open file = ({| db := file; live := ∅ |}, None)) ∧
  (entries file !! studiesKey = None →
   Open file =
     ({| db := MkBucket (sequence file)
                 (<[studiesKey := inr empty_bucket]> (entries file));
         live := ∅ |}, None)) ∧
  (holds_value studiesKey file →
   Open file = ({| db := file; live := ∅ |}, Some ErrIncompatibleValue)) ∧
  ((Open file).2 = None → Open (db (Open file).1) = Open file) ∧
  live (Open file).1 = ∅ ∧
  (∀ study states x,
     x ∈ (DB_Runs (Open file).1 study states).1 → RunState x ≠ diviner.Pending).
Proof.
  assert (Hlive : live (Open file).1 = ∅).
  { rewrite Open_cases. by destruct (entries file !! studiesKey) as [[v|c]|]. }
  split; [|split; [|split; [|split; [|split]]]].
  - intros [c Hc]. by rewrite Open_cases, Hc.
  - intros Hno. by rewrite Open_cases, Hno.
  - intros [v Hv]. by rewrite Open_cases, Hv.
  - rewrite (Open_cases file).
    destruct (entries file !! studiesKey) as [[v|c]|] eqn:Hk; simpl; try done.
    + intros _. by rewrite Open_cases, Hk.
    + intros _. rewrite Open_cases. cbn [entries sequence].
      by rewrite lookup_insert_eq.
  - exact Hlive.
  - intros study states x Hx Hpending.
    destruct (DB_Runs (Open file).1 study states) as [runs e] eqn:Hruns.
    apply DB_Runs_pending_live in Hruns. rewrite Forall_forall in Hruns.
    specialize (Hruns x Hx Hpending). rewrite Hlive in Hruns.
    by apply elem_of_empty in Hruns.
Qed.

Lemma empty_no_bucket (k : string) : ¬ holds_bucket k empty_bucket.
Proof. intros [c Hc]. unfold empty_bucket in Hc. cbn [entries] in Hc. by rewrite lookup_empty in Hc. Qed.

Lemma empty_no_value (k : string) : ¬ holds_value k empty_bucket.
Proof. intros [c Hc]. unfold empty_bucket in Hc. cbn [entries] in Hc. by rewrite lookup_empty in Hc. Qed.

(** X18: on a database that [Open] returned, [New] for a study that is
    not in it creates the study and returns its first run: number 1,
    pending, with the values given; the run is stored and live. With an
    empty study name [New] fails and changes nothing. *)
Theorem New_first_run (d : DB) (study : diviner.Study)
    (values : gmap string diviner.Value) (s : Bucket) :
  at_path [studiesKey] (db d) = Some s →
  entries s !! diviner.Name study = None →
  (diviner.Name study ≠ "" →
   ∃ root',
     DB_New d study values =
       ({| db := root'; live := {[ (diviner.Name study, 1%N) ]} ∪ live d |},
        inr (run_init (new_run 1 (diviner.Name study) values))) ∧
     stored root' (run_init (new_run 1 (diviner.Name study) values))) ∧
  (diviner.Name study = "" →
   DB_New d study values = ({| db := db d; live := live d |}, inl ErrBucketNameRequired)).
Proof.
  intros Hs Hst.
  assert (Hroot : entries (db d) !! studiesKey = Some (inr s)).
  { simpl in Hs. by destruct (entries (db d) !! studiesKey) as [[v|c]|]; simplify_eq. }
  set (name := diviner.Name study) in *.
  assert (Hstudies : ∀ B (k : list string → Tx B),
            (let* s := Bucket.Bucket [] studiesKey in
             let* s := deref s in k s) (db d) = k [studiesKey] (db d)).
  { intros B k.
    rewrite (bind_eq _ _ _ _ _ (Bucket_at [] studiesKey (db d) (db d) eq_refl)), Hroot.
    cbv beta iota. change (child [] studiesKey) with [studiesKey].
    by rewrite (bind_eq (deref (Some [studiesKey])) _ (db d) [studiesKey] (db d) eq_refl). }
  split.
  - intros Hname.
    (* the study *)
    assert (Hc : ∃ root1, Bucket.CreateBucket [studiesKey] name (db d)
                   = inr ([studiesKey; name], root1) ∧
                 at_path [studiesKey; name] root1 = Some empty_bucket).
    { eexists. split.
      - unfold Bucket.CreateBucket. apply String.eqb_neq in Hname. rewrite Hname.
        unfold bind. rewrite (read_at _ _ _ _ Hs), Hst. by rewrite (write_at _ _ _ _ Hs).
      - change [studiesKey; name] with ([studiesKey] ++ [name])%list.
        rewrite at_path_app, at_path_alter_path, Hs. simpl.
        by rewrite lookup_insert_eq. }
    destruct Hc as (root1 & Hc & Hb1).
    pose proof (put_at [studiesKey; name] (of_bytes metaKey) (diviner.StudyParams study)
                  root1 empty_bucket Hb1 ltac:(done) (empty_no_bucket _)) as Hput.
    set (root2 := alter_path _ [studiesKey; name] root1) in Hput.
    assert (Hb2 : at_path [studiesKey; name] root2
              = Some (MkBucket 0 (<[metaKey := inl (gob_encode (diviner.StudyParams study))]> ∅))).
    { unfold root2. by rewrite at_path_alter_path, Hb1. }
    (* the runs *)
    destruct (CreateBucketIfNotExists_at [studiesKey; name] runsKey root2 _ Hb2
                ltac:(done)
                ltac:(by intros [v Hv]; cbn [entries] in Hv;
                      rewrite lookup_insert_ne, lookup_empty in Hv))
      as (root3 & Hc3 & _ & Hruns3).
    change (sub runsKey _) with empty_bucket in Hruns3.
    change (child [studiesKey; name] runsKey) with (runs_path name) in *.
    assert (Hnext : ∃ root4, Bucket.NextSequence (runs_path name) root3 = inr (1%N, root4) ∧
                             at_path (runs_path name) root4 = Some (MkBucket 1 ∅)).
    { eexists. split.
      - unfold Bucket.NextSequence, bind. rewrite (write_at _ _ _ _ Hruns3).
        rewrite (read_at _ _ _ (MkBucket 1 ∅)); [done|].
        by rewrite at_path_alter_path, Hruns3.
      - by rewrite at_path_alter_path, Hruns3. }
    destruct Hnext as (root4 & Hnext & Hruns4).
    (* the run *)
    destruct (CreateBucketIfNotExists_at (runs_path name) (PutUint64 1) root4 _ Hruns4
                (PutUint64_nonempty 1) (empty_no_value _))
      as (root5 & Hc5 & _ & Hrun5).
    change (sub (PutUint64 1) _) with empty_bucket in Hrun5.
    destruct (run_marshal_at (run_init (new_run 1 name values)) root5 empty_bucket Hrun5
                (empty_no_bucket _))
      as (root6 & Hm & Hstored & _).
    exists root6. split; [|done].
    unfold DB_New, Update, New_tx. rewrite Hstudies.
    rewrite (bind_eq _ _ _ _ _ (Bucket_at _ name _ _ Hs)), Hst.
    erewrite (bind_eq (A := list string)).
    2:{ rewrite Hstudies. rewrite (bind_eq _ _ _ _ _ Hc). by rewrite (bind_eq _ _ _ _ _ Hput). }
    rewrite (bind_eq _ _ _ _ _ Hc3), (bind_eq _ _ _ _ _ Hnext).
    cbv zeta. change (run_seq (run_init (new_run 1 name values))) with (PutUint64 1).
    by rewrite (bind_eq _ _ _ _ _ Hc5), (bind_eq _ _ _ _ _ Hm).
  - intros Hname. unfold DB_New, Update, New_tx. rewrite Hstudies.
    rewrite (bind_eq _ _ _ _ _ (Bucket_at _ name _ _ Hs)), Hst.
    erewrite (bind_fails (A := list string)); [done|].
    rewrite Hstudies. apply bind_fails. unfold Bucket.CreateBucket.
    unfold name in Hname. by rewrite Hname.
Qed.
End OpenProperties.

Lemma Open_restarts_witness :
  localdb.Open (localdb.db Example.db1)
    = ({| localdb.db := localdb.db Example.db1; localdb.live := ∅ |}, None).
Proof.
  apply (proj1 (Open_restarts (localdb.db Example.db1))).
  eexists. vm_compute. reflexivity.
Defined.

Lemma New_first_run_witness :
  ∃ root',
    localdb.DB_New Example.db0 Example.study Example.values =
      ({| localdb.db := root';
          localdb.live := {[ (diviner.Name Example.study, 1%N) ]} ∪ localdb.live Example.db0 |},
       inr (localdb.run_init (localdb.new_run 1 (diviner.Name Example.study) Example.values))) ∧
    stored root'
      (localdb.run_init (localdb.new_run 1 (diviner.Name Example.study) Example.values)).
Proof.
  refine (proj1 (New_first_run Example.db0 Example.study Example.values
                   bolt.empty_bucket _ _) _).
  - vm_compute. reflexivity.
  - vm_compute. reflexivity.
  - done.
Defined.

(** ** localdb: what [DB.Runs] lists *)

Section RunsProperties.
Import bolt localdb.
Context `{!Gob run run_fill, !Gob (gmap string float64) metrics_fill,
          !Gob (gmap string (list diviner.Value)) params_fill, !Gzip}.

(** The run [DB.Runs] loads for the key [k] of the [runs] bucket of the
    study [name]. *)
Definition Runs_load (d : DB) (name : string) (k : string) : error + run :=
  match seq k with
  | None => inl panicked
  | Some sq => View (run_unmarshal (run_init (new_run sq name ∅))) (db d)
  end.

(** The condition under which [DB.Runs] appends a run it loaded. *)
Definition Runs_selects (d : DB) (states : diviner.RunState) (x : run) : bool :=
  (N.land (run_State x) states =? run_State x)%N
  && (negb (run_State x =? diviner.Pending)%N
      || bool_decide ((Study x, Seq x) ∈ live d)).

Lemma ForEach_loop_Runs (d : DB) (study : diviner.Study) states
    (v : string → option string) (ks : list string) (xs : list run) :
  Forall2 (λ k x, Runs_load d (diviner.Name study) k = inr x) ks xs →
  ∀ acc,
    Bucket.ForEach_loop (Runs_visit d study states (db d)) (map (λ k, (k, v k)) ks) acc
    = ((acc ++ List.filter (Runs_selects d states) xs)%list, None).
Proof.
  induction 1 as [|k x ks xs Hk _ IH]; intros acc; simpl.
  - by rewrite app_nil_r.
  - unfold Runs_visit at 1. unfold Runs_load, View in Hk.
    destruct (seq k) as [sq|]; [|done].
    destruct (run_unmarshal _ (db d)) as [e|[x' tx']]; [done|].
    injection Hk as ->. fold (Runs_selects d states x).
    destruct (Runs_selects d states x); rewrite IH; [|done].
    by rewrite <- app_assoc.
Qed.

Lemma Forall2_loaded {A B} (P : A → B → Prop) (l : list A) :
  (∀ a, a ∈ l → ∃ b, P a b) → ∃ l', Forall2 P l l'.
Proof.
  induction l as [|a l IH]; intros Hl.
  - exists []. constructor.
  - destruct (Hl a) as [b Hb]; [by left|].
    destruct IH as [l' Hl']; [intros a' Ha'; apply Hl; by right|].
    exists (b :: l'). by constructor.
Qed.

(** X19: when every key of the [runs] bucket of a study loads as a
    run, [DB.Runs] returns no error, and it returns the runs it selects
    among those loaded: one for each key at most, in the order of the
    keys. *)
Theorem Runs_lists_the_selected_runs (d : DB) (study : diviner.Study)
    (states : diviner.RunState) (runs : Bucket) :
  at_path (runs_path (diviner.Name study)) (db d) = Some runs →
  (∀ k, is_Some (entries runs !! k) → ∃ x, Runs_load d (diviner.Name study) k = inr x) →
  ∃ ks xs,
    StronglySorted string_le ks ∧ NoDup ks ∧
    (∀ k, k ∈ ks ↔ is_Some (entries runs !! k)) ∧
    Forall2 (λ k x, Runs_load d (diviner.Name study) k = inr x) ks xs ∧
    DB_Runs d study states = (List.filter (Runs_selects d states) xs, None).
Proof.
  intros Hruns Hload. pose (name := diviner.Name study). fold name in Hruns, Hload.
  set (ks := sort_Strings (map_to_list (entries runs)).*1).
  assert (Hks : ∀ k, k ∈ ks ↔ is_Some (entries runs !! k)).
  { intros k. unfold ks. rewrite sort_Strings_perm, list_elem_of_fmap. split.
    - intros [[k' e] [-> Hin]]. apply elem_of_map_to_list in Hin. by exists e.
    - intros [e He]. exists (k, e). split; [done|]. by apply elem_of_map_to_list. }
  destruct (Forall2_loaded (λ k x, Runs_load d name k = inr x) ks) as [xs Hxs].
  { intros k Hk. apply Hload. by apply Hks. }
  exists ks, xs. split; [apply sort_Strings_sorted|]. split.
  { unfold ks. rewrite sort_Strings_perm. apply NoDup_fst_map_to_list. }
  split; [done|]. split; [done|].
  change (runs_path name) with ([studiesKey; name] ++ [runsKey])%list in Hruns.
  rewrite at_path_app in Hruns.
  destruct (at_path [studiesKey; name] (db d)) as [sb|] eqn:Hsb; [|done].
  simpl in Hruns.
  destruct (entries sb !! runsKey) as [[v|c]|] eqn:Hc; try done.
  injection Hruns as ->.
  unfold DB_Runs, View, bind, bucket. fold name.
  rewrite (bucket_loop_at _ [] (db d) (db d) eq_refl). rewrite Hsb. simpl app.
  rewrite (Bucket_at _ runsKey _ _ Hsb), Hc.
  erewrite read_at; [|by rewrite (at_path_child _ _ _ _ Hsb), Hc].
  unfold ret, Bucket.ForEach, Bucket.items. fold ks.
  by rewrite (ForEach_loop_Runs d study states _ ks xs Hxs []).
Qed.
End RunsProperties.

Lemma Runs_lists_the_selected_runs_witness :
  ∃ ks xs,
    StronglySorted string_le ks ∧ NoDup ks ∧
    (∀ k, k ∈ ks ↔
          is_Some (bolt.entries
                     (sub localdb.runsKey
                        (sub "test" (sub localdb.studiesKey (localdb.db Example3.db2)))) !! k)) ∧
    Forall2 (λ k x, Runs_load Example3.db2 (diviner.Name Example.study) k = inr x) ks xs ∧
    localdb.DB_Runs Example3.db2 Example.study diviner.Pending
      = (List.filter (Runs_selects Example3.db2 diviner.Pending) xs, None).
Proof.
  apply (Runs_lists_the_selected_runs Example3.db2 Example.study diviner.Pending
           (sub localdb.runsKey
              (sub "test" (sub localdb.studiesKey (localdb.db Example3.db2))))).
  - vm_compute. reflexivity.
  - intros k [e He]. apply elem_of_map_to_list in He.
    assert (Hk : k ∈ [PutUint64 1; PutUint64 2]).
    { apply (list_elem_of_fmap_2 fst) in He. revert He. generalize k.
      vm_compute. intros k' Hk'. exact Hk'. }
    apply elem_of_cons in Hk as [->|Hk]; [eexists; vm_compute; reflexivity|].
    apply elem_of_cons in Hk as [->|Hk]; [eexists; vm_compute; reflexivity|].
    by apply elem_of_nil in Hk.
Defined.

(** ** localdb: following a log, and what a handle keeps to itself *)

Section HandleProperties.
Import bolt localdb.
Context `{!Gob run run_fill, !Gob (gmap string float64) metrics_fill,
          !Gob (gmap string (list diviner.Value)) params_fill, !Gzip}.

Lemma Read_tx_at_end (rd : runReader) root bs :
  logs_at (run_path (reader_run rd)) root bs →
  (N.of_nat (length bs) + 1 < 2 ^ 64)%N →
  whence rd = N.of_nat (S (length bs)) → rbuf rd = "" →
  View (Read_tx rd) root = inr (rd, Some io_EOF).
Proof.
  intros (rb & Hrb & Hval & Hseq & Hblocks & Hfree) Hroom Hwhence Hbuf.
  pose proof (Hfree (N.of_nat (S (length bs))) ltac:(lia)) as Hnone.
  unfold View, Read_tx, bind. rewrite run_bucket_None, Hrb.
  rewrite (Bucket_at _ logsKey _ _ Hrb).
  pose proof (at_path_child _ logsKey _ _ Hrb) as Hchild.
  unfold sub in Hnone. destruct (entries rb !! logsKey) as [[v|lb]|] eqn:Hl.
  - exfalso. apply Hval. by exists v.
  - unfold Bucket.Get, bind. rewrite (read_at _ _ _ _ Hchild).
    change (key (of_uint64 ?n)) with (PutUint64 n). rewrite Hwhence, Hnone.
    unfold ret. rewrite <- Hwhence, <- Hbuf. by destruct rd.
  - done.
Qed.

(** X20: a reader can follow a log that is still written. At the end
    of the log [Read] returns [io.EOF] and leaves the reader where it
    is; once the next block has been written, [Read] on the same reader
    returns the data of that block. *)
Theorem Read_follows_the_log (r : run) (root : Bucket) (bs : list string) (p : string)
    (rd : runReader) (len_p : nat) :
  logs_at (run_path r) root bs → (N.of_nat (length bs) + 2 < 2 ^ 64 - 2)%N →
  reader_run rd = r → whence rd = N.of_nat (S (length bs)) → rbuf rd = "" →
  p ≠ "" →
  runReader_Read 1 rd len_p root = Some (rd, "", Some io_EOF) ∧
  ∃ root',
    runWriter_Write r p root = (root', (String.length p, None)) ∧
    runReader_Read 1 rd len_p root' =
      Some ({| reader_run := r; whence := N.of_nat (S (S (length bs)));
               rbuf := drop_bytes (len_p `min` String.length p) p |},
            take_bytes (len_p `min` String.length p) p, None).
Proof.
  intros Hlogs Hroom Hrun Hwhence Hbuf Hp. subst r. split.
  - unfold runReader_Read. rewrite Read_loop_step by done.
    by rewrite (Read_tx_at_end rd root bs Hlogs ltac:(lia) Hwhence Hbuf).
  - destruct (runWriter_Write_appends (reader_run rd) root bs p Hlogs ltac:(lia))
      as (root' & Hw & Hlogs').
    exists root'. split; [done|].
    unfold runReader_Read. rewrite Read_loop_step by done.
    rewrite (Read_tx_block rd root' (bs ++ [p]) (length bs) p Hlogs').
    + by rewrite Read_loop_nonempty.
    + rewrite length_app. simpl. lia.
    + done.
    + by rewrite lookup_app_r, Nat.sub_diag.
Qed.

(** X21: the status of a run and the data in its log buffer belong to
    the handle, not to the database: whatever they were in the handle
    that stored the run, the handle [DB.Run] returns for it has the
    empty status and an empty buffer. *)
Theorem status_is_not_stored (d : DB) (r : run) :
  stored (db d) r →
  Study r ≠ "" → "/"%char ∉ list_ascii_of_string (Study r) → (Seq r < 2 ^ 64)%N →
  ∃ x, DB_Run d (run_ID r) = (Some x, None) ∧
       run_Status x = ("", None) ∧ wr x = bufio.NewWriterSize.
Proof.
  intros Hstored Hname Hslash Hseq. eexists. split.
  - by apply DB_Run_stored.
  - done.
Qed.
End HandleProperties.

Lemma Read_follows_the_log_witness :
  localdb.runReader_Read 1 (localdb.run_Log Example.run1) 4 (localdb.db Example.db1)
    = Some (localdb.run_Log Example.run1, "", Some io_EOF) ∧
  ∃ root',
    localdb.runWriter_Write Example.run1 "hello" (localdb.db Example.db1)
      = (root', (String.length "hello", None)) ∧
    localdb.runReader_Read 1 (localdb.run_Log Example.run1) 4 root' =
      Some ({| localdb.reader_run := Example.run1; localdb.whence := N.of_nat 2;
               localdb.rbuf := drop_bytes (4 `min` String.length "hello") "hello" |},
            take_bytes (4 `min` String.length "hello") "hello", None).
Proof.
  apply (Read_follows_the_log Example.run1 (localdb.db Example.db1) [] "hello"
           (localdb.run_Log Example.run1) 4).
  - eexists. split; [vm_compute; reflexivity|]. by apply log_holds_fresh.
  - simpl. lia.
  - reflexivity.
  - reflexivity.
  - reflexivity.
  - done.
Defined.

Lemma status_is_not_stored_witness :
  ∃ x, localdb.DB_Run Example.db1 (localdb.run_ID (localdb.with_status Example.run1 "busy"))
         = (Some x, None) ∧
       localdb.run_Status x = ("", None) ∧ localdb.wr x = bufio.NewWriterSize.
Proof.
  apply (status_is_not_stored Example.db1 (localdb.with_status Example.run1 "busy")).
  - eexists. split; vm_compute; reflexivity.
  - done.
  - vm_compute. intros Hin. by repeat (apply elem_of_cons in Hin as [?|Hin]; [done|]);
      apply elem_of_nil in Hin.
  - done.
Defined.

(** ** localdb: run IDs *)

Section IDProperties.
Import bolt localdb.
Context `{!Gob run run_fill, !Gob (gmap string float64) metrics_fill,
          !Gob (gmap string (list diviner.Value)) params_fill, !Gzip}.

Lemma cut_app sep (s t a b : string) :
  cut sep s = Some (a, b) → cut sep (s ++ t) = Some (a, b ++ t).
Proof.
  revert a. induction s as [|c s IH]; simpl; intros a; [done|].
  destruct (Ascii.eqb c sep); [by intros [= <- <-]|].
  destruct (cut sep s) as [[a' b']|]; [|done].
  intros [= <- <-]. by rewrite (IH a' eq_refl).
Qed.

Lemma cut_elem_of sep (s : string) :
  sep ∈ list_ascii_of_string s → is_Some (cut sep s).
Proof.
  intros Hin. destruct (cut sep s) as [ab|] eqn:Hcut; [by eexists|].
  by apply cut_None in Hcut.
Qed.

(** X22: the ID identifies the run: two runs of studies whose names
    have no slash have the same ID only if they have the same study
    and the same number. *)
Theorem ID_identifies_the_run (r1 r2 : run) :
  "/"%char ∉ list_ascii_of_string (Study r1) →
  "/"%char ∉ list_ascii_of_string (Study r2) →
  (Seq r1 < 2 ^ 64)%N → (Seq r2 < 2 ^ 64)%N →
  run_ID r1 = run_ID r2 → Study r1 = Study r2 ∧ Seq r1 = Seq r2.
Proof.
  intros Hs1 Hs2 Hq1 Hq2 Hid. unfold run_ID in Hid.
  change ("/" ++ ?s) with (String.String "/"%char s) in Hid.
  apply (f_equal (cut "/")) in Hid. rewrite !cut_append in Hid by done.
  injection Hid as Hstudy Hseq. split; [done|].
  apply (f_equal ParseUint) in Hseq. rewrite !ParseUint_FormatUint in Hseq by done.
  by injection Hseq.
Qed.

(** X23: [DB.Run] does not accept the ID of a run whose study name has
    a slash: whatever the database holds, it returns
    [ErrInvalidRunId]. *)
Theorem ID_with_slash_is_invalid (d : DB) (r : run) :
  "/"%char ∈ list_ascii_of_string (Study r) →
  DB_Run d (run_ID r) = (None, Some ErrInvalidRunId).
Proof.
  intros [[a b] Hcut]%cut_elem_of. unfold DB_Run, SplitN2, run_ID.
  rewrite (cut_app _ _ _ _ _ Hcut).
  destruct (String.eqb a ""); [done|].
  destruct (ParseUint (b ++ "/" ++ FormatUint (Seq r))) as [n|] eqn:Hparse; [|done].
  apply ParseUint_digits in Hparse as [_ Hdigits].
  rewrite Forall_forall in Hdigits. specialize (Hdigits "/"%char).
  unfold is_digit in Hdigits. simpl in Hdigits.
  assert (48 ≤ 47 ≤ 57)%N; [|lia]. apply Hdigits.
  rewrite list_ascii_of_append. apply elem_of_app. right. by left.
Qed.
End IDProperties.

Lemma ID_identifies_the_run_witness :
  localdb.Study Example.run1 = localdb.Study (localdb.with_status Example.run1 "busy") ∧
  localdb.Seq Example.run1 = localdb.Seq (localdb.with_status Example.run1 "busy").
Proof.
  apply (ID_identifies_the_run Example.run1 (localdb.with_status Example.run1 "busy")).
  - vm_compute. intros Hin. by repeat (apply elem_of_cons in Hin as [?|Hin]; [done|]);
      apply elem_of_nil in Hin.
  - vm_compute. intros Hin. by repeat (apply elem_of_cons in Hin as [?|Hin]; [done|]);
      apply elem_of_nil in Hin.
  - done.
  - done.
  - reflexivity.
Defined.

Lemma ID_with_slash_is_invalid_witness :
  localdb.DB_Run Example.db1 (localdb.run_ID (localdb.new_run 1 "a/b" ∅))
    = (None, Some ErrInvalidRunId).
Proof.
  apply (ID_with_slash_is_invalid Example.db1 (localdb.new_run 1 "a/b" ∅)).
  simpl. right. by left.
Defined.

(** ** localdb: the next run of a study *)

Section NextRun.
Import bolt localdb.
Context `{!Gob run run_fill, !Gob (gmap string float64) metrics_fill,
          !Gob (gmap string (list diviner.Value)) params_fill, !Gzip}.

(** X24: for a study that is in the database, [New] succeeds whenever
    the next number of the study is free: it returns the run of that
    number, pending, with the values given, stored and live. *)
Theorem New_next_run (d : DB) (study : diviner.Study)
    (values : gmap string diviner.Value) (sb : Bucket) :
  at_path [studiesKey; diviner.Name study] (db d) = Some sb →
  ¬ holds_value runsKey sb →
  entries (sub runsKey sb) !! PutUint64 (next_sequence (sub runsKey sb)) = None →
  ∃ root',
    DB_New d study values =
      ({| db := root';
          live := {[ (diviner.Name study, next_sequence (sub runsKey sb)) ]} ∪ live d |},
       inr (run_init (new_run (next_sequence (sub runsKey sb)) (diviner.Name study) values))) ∧
    stored root'
      (run_init (new_run (next_sequence (sub runsKey sb)) (diviner.Name study) values)).
Proof.
  intros Hsb Hval Hfree. pose (name := diviner.Name study). fold name in Hsb |- *.
  set (runs := sub runsKey sb) in *. set (sq := next_sequence runs) in *.
  assert (Hroot : ∃ s, entries (db d) !! studiesKey = Some (inr s) ∧
                       entries s !! name = Some (inr sb)).
  { simpl in Hsb. destruct (entries (db d) !! studiesKey) as [[v|s]|]; try done.
    exists s. split; [done|]. by destruct (entries s !! name) as [[v|c]|]; simplify_eq. }
  destruct Hroot as (s & Hroot & Hname).
  assert (Hs : at_path [studiesKey] (db d) = Some s) by (simpl; by rewrite Hroot).
  destruct (CreateBucketIfNotExists_at [studiesKey; name] runsKey (db d) sb Hsb
              ltac:(done) Hval) as (root3 & Hc3 & _ & Hruns3).
  change (child [studiesKey; name] runsKey) with (runs_path name) in *. fold runs in Hruns3.
  assert (Hnext : ∃ root4, Bucket.NextSequence (runs_path name) root3 = inr (sq, root4) ∧
                           at_path (runs_path name) root4 = Some (MkBucket sq (entries runs))).
  { eexists. split.
    - unfold Bucket.NextSequence, bind. rewrite (write_at _ _ _ _ Hruns3).
      rewrite (read_at _ _ _ (MkBucket sq (entries runs))); [done|].
      by rewrite at_path_alter_path, Hruns3.
    - by rewrite at_path_alter_path, Hruns3. }
  destruct Hnext as (root4 & Hnext & Hruns4).
  destruct (CreateBucketIfNotExists_at (runs_path name) (PutUint64 sq) root4 _ Hruns4
              (PutUint64_nonempty sq)
              ltac:(by intros [v Hv]; cbn [entries] in Hv; rewrite Hfree in Hv))
    as (root5 & Hc5 & _ & Hrun5).
  assert (Hsub : sub (PutUint64 sq) (MkBucket sq (entries runs)) = empty_bucket).
  { unfold sub. cbn [entries]. by rewrite Hfree. }
  rewrite Hsub in Hrun5.
  destruct (run_marshal_at (run_init (new_run sq name values)) root5 empty_bucket Hrun5
              (empty_no_bucket _))
    as (root6 & Hm & Hstored & _).
  exists root6. split; [|done].
  unfold DB_New, Update, New_tx. fold name.
  rewrite (bind_eq _ _ _ _ _ (Bucket_at [] studiesKey (db d) (db d) eq_refl)), Hroot.
  cbv beta iota. change (child [] studiesKey) with [studiesKey].
  rewrite (bind_eq (deref (Some [studiesKey])) _ (db d) [studiesKey] (db d) eq_refl).
  rewrite (bind_eq _ _ _ _ _ (Bucket_at _ name _ _ Hs)), Hname.
  cbv beta iota. change (child [studiesKey] name) with [studiesKey; name].
  rewrite (bind_eq (ret [studiesKey; name]) _ (db d) [studiesKey; name] (db d) eq_refl).
  rewrite (bind_eq _ _ _ _ _ Hc3), (bind_eq _ _ _ _ _ Hnext).
  cbv zeta. change (run_seq (run_init (new_run sq name values))) with (PutUint64 sq).
  by rewrite (bind_eq _ _ _ _ _ Hc5), (bind_eq _ _ _ _ _ Hm).
Qed.
End NextRun.

Lemma New_next_run_witness :
  ∃ root',
    localdb.DB_New Example.db1 Example.study Example3.values2 =
      ({| localdb.db := root';
          localdb.live :=
            {[ (diviner.Name Example.study,
                next_sequence (sub localdb.runsKey
                                 (sub "test" (sub localdb.studiesKey (localdb.db Example.db1))))) ]}
            ∪ localdb.live Example.db1 |},
       inr (localdb.run_init
              (localdb.new_run
                 (next_sequence (sub localdb.runsKey
                                   (sub "test" (sub localdb.studiesKey (localdb.db Example.db1)))))
                 (diviner.Name Example.study) Example3.values2))) ∧
    stored root'
      (localdb.run_init
         (localdb.new_run
            (next_sequence (sub localdb.runsKey
                              (sub "test" (sub localdb.studiesKey (localdb.db Example.db1)))))
            (diviner.Name Example.study) Example3.values2)).
Proof.
  apply (New_next_run Example.db1 Example.study Example3.values2
           (sub "test" (sub localdb.studiesKey (localdb.db Example.db1)))).
  - vm_compute. reflexivity.
  - intros [v Hv]. vm_compute in Hv. discriminate.
  - vm_compute. reflexivity.
Defined.
